(** * Symbolic memory of simuvex ([simuvex/s_memory.py]) and the state
      cacher of angr ([angr/exploration_techniques/cacher.py])

    A shallow embedding of the two modules, the properties their
    specification states about them, and further properties of the
    code: what the methods preserve, their errors, and how they compose.

    Conventions of the embedding:
    - Python integers are [Z]; the three module-level [itertools.count()]
      counters are [N] fields of the world, holding the value the next
      [.next()] returns.
    - Exceptions are values of [exn]; a method that can raise lives in the
      monad [M], which threads the world and keeps the mutations made
      before a raise (Python does not roll back).
    - Objects that are mutated and can be reached from several places (the
      [cooldict.BranchingDict] behind a [SimMemory]) live in a heap of the
      world and are named by handles, so aliasing is visible.
    - Calls to [logging] in [s_memory.py] have no effect on the results
      and are left out; the cacher's log is modelled, since a property
      below is about it. The helper class [Vectorizer] of [s_memory.py]
      is not used by [SimMemory]; its one method of substance,
      [default_cacher], is embedded on its own. *)

From Stdlib Require Import ZArith List String Ascii Lia.
From Stdlib Require Import Hexadecimal HexadecimalString HexadecimalZ.
From stdpp Require Import base option numbers list strings pretty gmap sets.

#[local] Set Warnings "-register-all".
#[local] Open Scope Z_scope.
#[local] Open Scope string_scope.

(** ** The expression engine ([symexec])

    Modelled from the spec: [symexec] is not under src/; it is consumed,
    not implemented, by the memory. The embedding keeps the terms the
    memory builds with it as syntax and gives them the usual bit-vector
    meaning, so that "equal value" and "satisfiable only with" can be
    stated. *)
Module symexec.

(** Bit-vector terms: [symexec.BitVec(name, size)],
    [symexec.BitVecVal(value, size)], [symexec.Concat( *args )] and
    [symexec.Extract(high, low, e)]. *)
Inductive bv : Type :=
| BitVec (name : string) (bits : Z)
| BitVecVal (value : Z) (bits : Z)
| Concat (args : list bv)
| Extract (high low : Z) (e : bv).

(** The right operand of [==] is a term or a plain Python integer. *)
Inductive operand : Type :=
| OInt (z : Z)
| OExpr (e : bv).

(** Constraints: [a == b], [symexec.And( *args )], [symexec.Or( *args )]. *)
Inductive bexp : Type :=
| Eq (a : bv) (b : operand)
| And (args : list bexp)
| Or (args : list bexp).

(** [e.size()] *)
Fixpoint size (e : bv) : Z :=
  match e with
  | BitVec _ n => n
  | BitVecVal _ n => n
  | Concat args => foldr (fun a acc => size a + acc) 0 args
  | Extract high low _ => high - low + 1
  end.

(** Terms the engine accepts: positive widths, at least one argument
    under [Concat], [Extract] bounds inside the argument. *)
Fixpoint wf (e : bv) : bool :=
  match e with
  | BitVec _ n => bool_decide (0 < n)
  | BitVecVal _ n => bool_decide (0 < n)
  | Concat args => negb (bool_decide (args = [])) && forallb wf args
  | Extract high low e =>
      bool_decide (0 <= low) && bool_decide (low <= high)
      && bool_decide (high < size e) && wf e
  end.

(** A model gives every symbol (name and width) a value. *)
Definition model := string -> Z -> Z.

(** The unsigned value of a term in a model, always reduced modulo two
    to the width. [Concat] puts its first argument in the high bits. *)
Fixpoint eval (rho : model) (e : bv) : Z :=
  match e with
  | BitVec name n => rho name n mod 2 ^ n
  | BitVecVal v n => v mod 2 ^ n
  | Concat args =>
      foldl (fun acc a => acc * 2 ^ size a + eval rho a) 0 args
  | Extract high low e => (eval rho e / 2 ^ low) mod 2 ^ (high - low + 1)
  end.

(** A plain integer compared with a term of width [n] is taken modulo
    two to the [n]. *)
Definition eval_operand (rho : model) (n : Z) (o : operand) : Z :=
  match o with
  | OInt z => z mod 2 ^ n
  | OExpr e => eval rho e
  end.

Fixpoint holds (rho : model) (c : bexp) : bool :=
  match c with
  | Eq a b => bool_decide (eval rho a = eval_operand rho (size a) b)
  | And args => forallb (holds rho) args
  | Or args => existsb (holds rho) args
  end.

End symexec.
Export symexec.

(** ** Names of fresh symbols

    [s_memory.py] names symbols with [%]-formatting; [%d] and [%s] of a
    counter print it in decimal, [%x] prints an address in lower-case
    hexadecimal with a leading minus sign when negative. *)
Definition fmt_d (n : N) : string := pretty n.

Definition fmt_x (z : Z) : string := NilZero.string_of_int (Z.to_hex_int z).

(** ["%s_%x_%d" % (self.id, addr+i, var_mem_counter.next())] *)
Definition mem_byte_name (id : string) (addr : Z) (n : N) : string :=
  id +:+ "_" +:+ fmt_x addr +:+ "_" +:+ fmt_d n.

(** ["%s_addr_%s" % (self.id, addr_mem_counter.next())] *)
Definition addr_name (id : string) (n : N) : string :=
  id +:+ "_addr_" +:+ fmt_d n.

(** ["%s_unconstrain_0x%x_%s" % (self.id, addr, addr_mem_counter.next())] *)
Definition unconstrain_name (id : string) (addr : Z) (n : N) : string :=
  id +:+ "_unconstrain_0x" +:+ fmt_x addr +:+ "_" +:+ fmt_d n.

(** ["%s_merge_0x%x_%s" % (self.id, addr, merge_mem_counter.next())] *)
Definition merge_name (id : string) (addr : Z) (n : N) : string :=
  id +:+ "_merge_0x" +:+ fmt_x addr +:+ "_" +:+ fmt_d n.

(** ** The solver's view of an address ([simuvex.SimValue])

    Modelled from the spec: the class of value objects is not under
    src/. An address that is not a plain integer is a value object
    whose methods ask the solver. The object is a record of the answers
    ([expr] is its attribute of that name); the world logs which methods
    were called. *)
Module SimValue.

Record t : Type := mk {
  expr : bv;
  is_symbolic : bool;
  satisfiable : bool;
  is_unique : bool;
  any : Z;
  any_n : Z -> list Z;
  min : Z;
  max : Z
}.

End SimValue.

(** The methods of a value object. *)
Inductive query : Type :=
| QIsSymbolic | QSatisfiable | QIsUnique | QAny | QAnyN (n : Z) | QMin | QMax.

(** What a caller passes as [dst]: [type(dst) in (int, long)] or a value
    object. *)
Inductive pyaddr : Type :=
| PyInt (z : Z)
| PyValue (v : SimValue.t).

(** ** The copy-on-write byte store ([cooldict.BranchingDict]) *)
Module cooldict.

(** Modelled from the spec: the [cooldict] package ([BranchingDict] with
    [branch], [common_ancestor], [changes_since], [keys], item lookup and
    assignment) is not under src/. The spec describes a lineage of nodes,
    each holding a delta (written and deleted keys) relative to its
    parent, shared by the stores branched from it and never mutated once
    shared. A node is a [Layer]; [ident] is its identity in the lineage;
    [finalized] says it has been shared by a [branch]. *)
Record Layer : Type := mkLayer {
  ident : nat;
  storage : gmap Z bv;
  deleted : gset Z;
  finalized : bool
}.

(** Modelled from the spec: a store refers to its current node, whose
    ancestors follow, nearest first. *)
Record BranchingDict : Type := mkDict {
  cowdict : Layer;
  parents : list Layer
}.

(** Modelled from the spec: the lineage of a store, current node first. *)
Definition ancestry_line (d : BranchingDict) : list Layer :=
  cowdict d :: parents d.

(** Modelled from the spec: lookup through the lineage; the nearest node
    that wrote or deleted the key decides. *)
Fixpoint line_lookup (k : Z) (ls : list Layer) : option bv :=
  match ls with
  | [] => None
  | l :: ls =>
      if decide (k ∈ deleted l) then None
      else match storage l !! k with
           | Some v => Some v
           | None => line_lookup k ls
           end
  end.

(** Modelled from the spec: [d[k]]; [None] is Python's [KeyError]. *)
Definition getitem (d : BranchingDict) (k : Z) : option bv :=
  line_lookup k (ancestry_line d).

(** Modelled from the spec: [d[k] = v], with [new_ident] the identity a
    new node would get. A node that has been shared is left alone and the
    store moves to a child node holding the write; a node of its own is
    written in place. *)
Definition setitem (new_ident : nat) (k : Z) (v : bv) (d : BranchingDict)
  : BranchingDict :=
  if finalized (cowdict d) then
    mkDict (mkLayer new_ident {[ k := v ]} ∅ false) (ancestry_line d)
  else
    mkDict (mkLayer (ident (cowdict d)) (<[ k := v ]> (storage (cowdict d)))
                    (deleted (cowdict d) ∖ {[ k ]}) false)
           (parents d).

(** Modelled from the spec: a node is marked shared. *)
Definition finalize (l : Layer) : Layer :=
  mkLayer (ident l) (storage l) (deleted l) true.

(** Modelled from the spec: [d.branch()]; the current node becomes
    shared, and the result is the content of both the store and its new
    sibling. *)
Definition branch (d : BranchingDict) : BranchingDict :=
  mkDict (finalize (cowdict d)) (parents d).

(** Modelled from the spec: [d.keys()], the addresses that hold a value. *)
Fixpoint line_keys (ls : list Layer) : gset Z :=
  match ls with
  | [] => ∅
  | l :: ls => (dom (storage l) ∪ line_keys ls) ∖ deleted l
  end.

(** Modelled from the spec: [d.keys()]. *)
Definition keys (d : BranchingDict) : gset Z := line_keys (ancestry_line d).

(** Modelled from the spec: [d.common_ancestor(other)], the nearest node
    of [other]'s lineage that is also in [d]'s; [None] when the lineages
    are disjoint. *)
Definition common_ancestor (d other : BranchingDict) : option nat :=
  let ours := ident <$> ancestry_line d in
  head (filter (fun i => i ∈ ours) (ident <$> ancestry_line other)).

(** Modelled from the spec: [d.changes_since(ancestor)], the keys written
    and the keys deleted in the nodes between the current one and
    [ancestor], which is excluded. *)
Fixpoint line_changes (ancestor : nat) (ls : list Layer) : gset Z * gset Z :=
  match ls with
  | [] => (∅, ∅)
  | l :: ls =>
      if decide (ident l = ancestor) then (∅, ∅)
      else let '(c, r) := line_changes ancestor ls in
           (dom (storage l) ∪ c, deleted l ∪ r)
  end.

(** Modelled from the spec: [d.changes_since(ancestor)]. *)
Definition changes_since (d : BranchingDict) (ancestor : nat)
  : gset Z * gset Z :=
  line_changes ancestor (ancestry_line d).

End cooldict.

(** ** The world: module state and the heap of stores

    [heap] holds the [BranchingDict] objects, by handle; [next_ident] is
    the identity the next node of a lineage gets; then come the three
    counters of [s_memory.py] and the log of the questions asked of value
    objects. A handle of a view always names a store of the heap; the
    functions below leave the world alone when it does not. *)

Record World : Type := mkWorld {
  heap : gmap nat cooldict.BranchingDict;
  next_ident : nat;
  addr_mem_counter : N;
  var_mem_counter : N;
  merge_mem_counter : N;
  solver_log : list (bv * query)
}.

Definition set_heap (f : gmap nat cooldict.BranchingDict ->
                         gmap nat cooldict.BranchingDict) (w : World) : World :=
  mkWorld (f (heap w)) (next_ident w) (addr_mem_counter w)
          (var_mem_counter w) (merge_mem_counter w) (solver_log w).

Definition empty_world : World := mkWorld ∅ 0 0 0 0 [].

(** A new [BranchingDict] object holding [d]; the result is its handle. *)
Definition alloc (d : cooldict.BranchingDict) (w : World) : nat * World :=
  let h := fresh (dom (heap w)) in (h, set_heap <[ h := d ]> w).

(** [BranchingDict()] and [BranchingDict(backer)] for a plain [dict]. *)
Definition new_dict (content : gmap Z bv) (w : World) : nat * World :=
  let l := cooldict.mkLayer (next_ident w) content ∅ false in
  alloc (cooldict.mkDict l [])
        (mkWorld (heap w) (S (next_ident w)) (addr_mem_counter w)
                 (var_mem_counter w) (merge_mem_counter w) (solver_log w)).

(** [self.mem[k]] for the store at handle [h]. *)
Definition mem_get (h : nat) (k : Z) (w : World) : option bv :=
  d ← heap w !! h; cooldict.getitem d k.

(** [self.mem[k] = v] *)
Definition mem_set (h : nat) (k : Z) (v : bv) (w : World) : World :=
  match heap w !! h with
  | None => w
  | Some d =>
      mkWorld (<[ h := cooldict.setitem (next_ident w) k v d ]> (heap w))
              (if cooldict.finalized (cooldict.cowdict d)
               then S (next_ident w) else next_ident w)
              (addr_mem_counter w) (var_mem_counter w)
              (merge_mem_counter w) (solver_log w)
  end.

(** [self.mem.branch()]: the store at [h] is marked shared in place and
    a new store object with the same lineage is returned. *)
Definition mem_branch (h : nat) (w : World) : nat * World :=
  match heap w !! h with
  | None => (h, w)
  | Some d =>
      alloc (cooldict.branch d) (set_heap <[ h := cooldict.branch d ]> w)
  end.

(** ** Exceptions and the monad of methods that can raise *)

(** The exceptions that can leave a method of [SimMemory]. *)
Inductive exn : Type :=
| SimMemoryError (msg : string)
| AttributeError (msg : string)
| IndexError (msg : string).

Inductive result (A : Type) : Type :=
| Ok (a : A)
| Raise (e : exn).
Arguments Ok {A} a.
Arguments Raise {A} e.

Definition M (A : Type) : Type := World -> result A * World.

#[export] Instance M_ret : MRet M := fun A a w => (Ok a, w).

#[export] Instance M_bind : MBind M := fun A B f m w =>
  match m w with
  | (Ok a, w') => f a w'
  | (Raise e, w') => (Raise e, w')
  end.

(** [raise e] *)
Definition raise {A} (e : exn) : M A := fun w => (Raise e, w).

(** A step that cannot raise. *)
Definition lift {A} (f : World -> A * World) : M A :=
  fun w => let '(a, w') := f w in (Ok a, w').

(** [try: body except SimMemoryError: handler] *)
Definition catch_SimMemoryError {A} (body : M A) (handler : M A) : M A :=
  fun w => match body w with
           | (Raise (SimMemoryError _), w') => handler w'
           | r => r
           end.

(** A method call on a value object: logged, answered by the record. *)
Definition log_query (v : SimValue.t) (q : query) (w : World) : World :=
  mkWorld (heap w) (next_ident w) (addr_mem_counter w)
          (var_mem_counter w) (merge_mem_counter w)
          (solver_log w ++ [(SimValue.expr v, q)]).

Definition ask {A} (v : SimValue.t) (q : query) (answer : A) : M A :=
  fun w => (Ok answer, log_query v q w).

(** [counter.next()] for the three module-level counters. *)
Definition next_addr_mem (w : World) : N * World :=
  (addr_mem_counter w,
   mkWorld (heap w) (next_ident w) (addr_mem_counter w + 1)
           (var_mem_counter w) (merge_mem_counter w) (solver_log w)).

Definition next_var_mem (w : World) : N * World :=
  (var_mem_counter w,
   mkWorld (heap w) (next_ident w) (addr_mem_counter w)
           (var_mem_counter w + 1) (merge_mem_counter w) (solver_log w)).

Definition next_merge_mem (w : World) : N * World :=
  (merge_mem_counter w,
   mkWorld (heap w) (next_ident w) (addr_mem_counter w)
           (var_mem_counter w) (merge_mem_counter w + 1) (solver_log w)).

(** The loop [for x in l: ...] collecting one result per element, and
    the list comprehension [[ f(x) for x in l ]]. *)
Fixpoint for_list {A B} (f : A -> M B) (l : list A) : M (list B) :=
  match l with
  | [] => mret []
  | a :: l => b ← f a; bs ← for_list f l; mret (b :: bs)
  end.

(** [l[0]] *)
Definition index0 {A} (l : list A) : M A :=
  match l with
  | a :: _ => mret a
  | [] => raise (IndexError "list index out of range")
  end.

(** [range(start, stop, step)] for a positive [step]. *)
Definition py_range (start stop step : Z) : list Z :=
  (fun k => start + k * step) <$> seqZ 0 ((stop - start + step - 1) / step).

(** ** [class SimMemory] *)

(** The messages of the two [SimMemoryError]s of [concretize_addr]. *)
Definition unsat_msg : string := "Trying to concretize with unsat constraints.".

Definition no_strategy_msg : string :=
  "Unable to concretize address with the provided strategies.".

Module SimMemory.

(** The fields [__init__] sets; [mem] is the handle of the
    [BranchingDict]. *)
Record t : Type := mk {
  mem : nat;
  limit : Z;
  bits : Z;
  max_mem : Z;
  id : string
}.

(** The argument [backer]: [None], a plain [dict], or a
    [BranchingDict]. *)
Inductive backer : Type :=
| NoBacker
| DictBacker (content : gmap Z bv)
| BranchingBacker (h : nat).

(** [__init__(self, backer=None, bits=64, memory_id="mem")] *)
Definition init (b : backer) (bits : Z) (memory_id : string) (w : World)
  : t * World :=
  let '(h, w') :=
    match b with
    | NoBacker => new_dict ∅ w
    | DictBacker content => new_dict content w
    | BranchingBacker h => (h, w)
    end in
  (mk h 1024 bits (2 ^ bits) memory_id, w').

(** The body of the loop of [read_from] at address [a]: the entry, or on
    [KeyError] a new symbolic byte that is also written back. *)
Definition read_byte (self : t) (a : Z) (w : World) : bv * World :=
  match mem_get (mem self) a w with
  | Some b => (b, w)
  | None =>
      let '(n, w0) := next_var_mem w in
      let b := BitVec (mem_byte_name (id self) a n) 8 in
      (b, mem_set (mem self) a b w0)
  end.

(** The loop of [read_from] over the offsets [offs]. *)
Fixpoint read_bytes (self : t) (addr : Z) (offs : list Z) (w : World)
  : list bv * World :=
  match offs with
  | [] => ([], w)
  | i :: offs =>
      let '(b, w1) := read_byte self (addr + i) w in
      let '(buff, w2) := read_bytes self addr offs w1 in
      (b :: buff, w2)
  end.

(** [read_from(self, addr, num_bytes)] *)
Definition read_from (self : t) (addr : Z) (num_bytes : Z) (w : World)
  : bv * World :=
  let '(buff, w') := read_bytes self addr (py_range 0 num_bytes 1) w in
  (match buff with
   | [b] => b
   | _ => Concat buff
   end, w').

(** [write_to(self, addr, cnt)]; [off/8] is the integer division of
    Python 2. *)
Definition write_to (self : t) (addr : Z) (cnt : bv) (w : World) : World :=
  foldl (fun w off =>
           let target := addr + off / 8 in
           let new_content :=
             Extract (size cnt - off - 1) (size cnt - off - 8) cnt in
           mem_set (mem self) target new_content w)
        w (py_range 0 (size cnt) 8).

(** The loop of [concretize_addr] over the strategies. The tests for
    ["free"], ["allocated"], ["writeable"] and ["executable"] do nothing
    ([pass]). The tests on [s] are separate [if]s in the source: a
    ["symbolic"] that does not return falls through to the test for
    ["any"]. *)
Fixpoint try_strategies (self : t) (v : SimValue.t) (strategies : list string)
  : M (list Z) :=
  match strategies with
  | [] => raise (SimMemoryError no_strategy_msg)
  | s :: rest =>
      let test_any : M (list Z) :=
        if decide (s = "any") then a ← ask v QAny (SimValue.any v); mret [a]
        else try_strategies self v rest in
      if decide (s = "symbolic") then
        hi ← ask v QMax (SimValue.max v);
        lo ← ask v QMin (SimValue.min v);
        if decide (hi - lo < limit self)
        then ask v (QAnyN (limit self)) (SimValue.any_n v (limit self))
        else test_any
      else test_any
  end.

(** [concretize_addr(self, v, strategies)]. The first thing done with
    [v] is the call [v.is_symbolic()], which raises for an [int]. *)
Definition concretize_addr (self : t) (v : pyaddr) (strategies : list string)
  : M (list Z) :=
  match v with
  | PyInt _ =>
      raise (AttributeError "'int' object has no attribute 'is_symbolic'")
  | PyValue v =>
      sym ← ask v QIsSymbolic (SimValue.is_symbolic v);
      unsat ← (if sym : bool
               then sat ← ask v QSatisfiable (SimValue.satisfiable v);
                    mret (negb sat)
               else mret false);
      if unsat : bool
      then raise (SimMemoryError unsat_msg)
      else
        unique ← ask v QIsUnique (SimValue.is_unique v);
        if unique : bool
        then a ← ask v QAny (SimValue.any v); mret [a]
        else try_strategies self v strategies
  end.

(** [concretize_write_addr(self, dst)] *)
Definition concretize_write_addr (self : t) (dst : pyaddr) : M (list Z) :=
  concretize_addr self dst ["free"; "writeable"; "any"].

(** [concretize_read_addr(self, dst)] *)
Definition concretize_read_addr (self : t) (dst : pyaddr) : M (list Z) :=
  concretize_addr self dst ["symbolic"; "any"].

(** [__contains__(self, dst)]; [None] stands for the [return False] of
    the handler. *)
Definition contains (self : t) (dst : pyaddr) : M bool :=
  addr ← match dst with
         | PyInt z => mret (Some z)
         | PyValue v =>
             sym ← ask v QIsSymbolic (SimValue.is_symbolic v);
             if sym : bool
             then catch_SimMemoryError
                    (addrs ← concretize_addr self dst ["allocated"];
                     a ← index0 addrs; mret (Some a))
                    (mret None)
             else a ← ask v QAny (SimValue.any v); mret (Some a)
         end;
  match addr with
  | None => mret false
  | Some addr =>
      lift (fun w => (bool_decide (is_Some (mem_get (mem self) addr w)), w))
  end.

(** [store(self, dst, cnt)] *)
Definition store (self : t) (dst : pyaddr) (cnt : bv) : M (list bexp) :=
  '(addr, constraint) ←
    match dst with
    | PyInt z => mret (z, [])
    | PyValue v =>
        unique ← ask v QIsUnique (SimValue.is_unique v);
        if unique : bool
        then a ← ask v QAny (SimValue.any v); mret (a, [])
        else addrs ← concretize_write_addr self dst;
             addr ← index0 addrs;
             mret (addr, [Eq (SimValue.expr v) (OInt addr)])
    end;
  lift (fun w => (constraint, write_to self addr cnt w)).

(** [load(self, dst, size)]; the symbol [m] is made before the list
    comprehension reads the candidates. *)
Definition load (self : t) (dst : pyaddr) (size : Z) : M (bv * list bexp) :=
  match dst with
  | PyInt z => r ← lift (read_from self z size); mret (r, [])
  | PyValue v =>
      unique ← ask v QIsUnique (SimValue.is_unique v);
      if unique : bool
      then a ← ask v QAny (SimValue.any v);
           r ← lift (read_from self a size); mret (r, [])
      else
        addrs ← concretize_read_addr self dst;
        match addrs with
        | [a] =>
            r ← lift (read_from self a size);
            mret (r, [Eq (SimValue.expr v) (OInt a)])
        | _ =>
            n ← lift next_addr_mem;
            let m := BitVec (addr_name (id self) n) (size * 8) in
            cs ← for_list (fun addr =>
                             r ← lift (read_from self addr size);
                             mret (And [Eq m (OExpr r);
                                        Eq (SimValue.expr v) (OInt addr)]))
                          addrs;
            mret (m, [Or cs])
        end
  end.

(** [copy(self)]; [__init__] gives the copy the default [limit]. *)
Definition copy (self : t) (w : World) : t * World :=
  let '(h, w') := mem_branch (mem self) w in
  init (BranchingBacker h) (bits self) (id self) w'.

(** [changed_bytes(self, other)] *)
Definition changed_bytes (self other : t) (w : World) : gset Z :=
  match heap w !! mem self, heap w !! mem other with
  | Some ours, Some theirs =>
      match cooldict.common_ancestor ours theirs with
      | None =>
          let '(our_changes, our_deletions) := (cooldict.keys ours, ∅) in
          let '(their_changes, their_deletions) := (cooldict.keys theirs, ∅) in
          our_changes ∪ our_deletions ∪ their_changes ∪ their_deletions
      | Some common_ancestor =>
          let '(our_changes, our_deletions) :=
            cooldict.changes_since ours common_ancestor in
          let '(their_changes, their_deletions) :=
            cooldict.changes_since theirs common_ancestor in
          our_changes ∪ our_deletions ∪ their_changes ∪ their_deletions
      end
  | _, _ => ∅
  end.

(** [unconstrain_byte(self, addr)] *)
Definition unconstrain_byte (self : t) (addr : Z) : M unit :=
  n ← lift next_addr_mem;
  let unconstrained_byte := BitVec (unconstrain_name (id self) addr n) 8 in
  _ ← store self (PyInt addr) unconstrained_byte;
  mret tt.

Section set_iteration.

(** The order in which Python iterates over a [set] is not fixed by the
    language: any enumeration of the elements without repetition. *)
Variable set_iter : gset Z -> list Z.

(** [unconstrain_differences(self, other)] *)
Definition unconstrain_differences (self other : t) : M unit :=
  fun w =>
    let changed_bytes := changed_bytes self other w in
    (_ ← for_list (unconstrain_byte self) (set_iter changed_bytes); mret tt) w.

(** The body of the loop of [merge] for one address. *)
Definition merge_byte (self : t) (others : list t) (flag : bv)
    (flag_values : list operand) (addr : Z) : M bexp :=
  a0 ← load self (PyInt addr) 1;
  rest ← for_list (fun o => a ← load o (PyInt addr) 1; mret a.1) others;
  let alternatives := a0.1 :: rest in
  n ← lift next_merge_mem;
  let merged_val := BitVec (merge_name (id self) addr n) 8 in
  let and_constraints :=
    zip_with (fun a fv => And [Eq flag fv; Eq merged_val (OExpr a)])
             alternatives flag_values in
  _ ← store self (PyInt addr) merged_val;
  mret (Or and_constraints).

(** [merge(self, others, flag, flag_values)]: the changed bytes are
    collected first, then the loop runs over them. *)
Definition merge (self : t) (others : list t) (flag : bv)
    (flag_values : list operand) : M (list bexp) :=
  fun w =>
    let changed_bytes :=
      foldl (fun acc o => acc ∪ changed_bytes self o w) ∅ others in
    for_list (merge_byte self others flag flag_values)
             (set_iter changed_bytes) w.

End set_iteration.

End SimMemory.

(** ** [class Vectorizer] ([simuvex/s_memory.py])

    A [cooldict.CachedDict] whose [default_cacher] turns the entries of
    the backer into bit-vector terms. Of the base class only the two
    attributes the method uses are kept, [backer] and [cache]. *)
Module Vectorizer.

(** What the backer holds at a key: an [int] or a [str], or anything
    else, which the method passes through and which is taken to be a
    term. *)
Inductive scalar : Type :=
| SInt (z : Z)
| SStr (s : string).

Inductive pyval : Type :=
| Scalar (x : scalar)
| Expr (e : bv).

Inductive exn : Type :=
| KeyError (k : Z)
| TypeError (msg : string).

Inductive result (A : Type) : Type :=
| Ok (a : A)
| Raise (e : exn).
Arguments Ok {A} a.
Arguments Raise {A} e.

Record t : Type := mk {
  backer : gmap Z pyval;
  cache : gmap Z bv
}.

(** The builtin [ord] of Python 2: the code of a string of length one,
    a [TypeError] for any other string and for an [int]. *)
Definition ord (x : scalar) : result Z :=
  match x with
  | SStr (String c EmptyString) => Ok (Z.of_nat (nat_of_ascii c))
  | SStr s =>
      Raise (TypeError ("ord() expected a character, but string of length "
                        +:+ pretty (String.length s) +:+ " found"))
  | SInt _ => Raise (TypeError "ord() expected string of length 1, but int found")
  end.

(** [default_cacher(self, k)] *)
Definition default_cacher (self : t) (k : Z) : result bv * t :=
  match backer self !! k with
  | None => (Raise (KeyError k), self)
  | Some b =>
      let vectorized : result bv :=
        match b with
        | Scalar x =>
            match ord x with
            | Ok n => Ok (BitVecVal n 8)
            | Raise e => Raise e
            end
        | Expr e => Ok e
        end in
      match vectorized with
      | Ok b => (Ok b, mk (backer self) (<[ k := b ]> (cache self)))
      | Raise e => (Raise e, self)
      end
  end.

End Vectorizer.

(** ** [class Cacher] ([angr/exploration_techniques/cacher.py])

    The methods that dump a stash: [step] and [_dump_stash]. States are
    objects that several stashes can list, so they live in a store and a
    stash is a list of handles. [pickle.dump], [pickle.load],
    [simgr.step], the [%]-formatting of the cache file name and [hex]
    are taken as given; opening a file for writing creates it empty, and
    closing it has no effect here. [setup] is not embedded: it is made
    of calls to [hashlib], [os.path] and [open]. *)
Module Cacher.

(** The exceptions, by what [except RuntimeError] makes of them:
    [RuntimeError] is an instance of that class or of one of its
    subclasses, with its [message]; [KeyError] and [OtherError] are
    instances of classes that do not derive from it. *)
Inductive exn : Type :=
| RuntimeError (message : string)
| KeyError (key : string)
| OtherError (name : string).

Inductive result (A : Type) : Type :=
| Ok (a : A)
| Raise (e : exn).
Arguments Ok {A} a.
Arguments Raise {A} e.

Inductive level : Type := WARNING | ERROR.

(** What [pickle.dump] does with a stash: it writes it, or it raises
    [e] after having written [partial]; when the maximum recursion depth
    is reached, [e] is a [RuntimeError]. *)
Inductive pickle_outcome : Type :=
| Dumped (data : string)
| DumpRaised (e : exn) (partial : string).

Section cacher.

(** The project, the history of a state and [history.trim()] belong to
    the rest of angr. *)
Context {Project History : Type}.
Variable trim : History -> History.

Record SimState : Type := mkState {
  addr : Z;
  project : option Project;
  history : History
}.

(** States are objects: a stash lists handles into [states]. *)
Record World : Type := mkWorld {
  states : gmap nat SimState;
  files : gmap string string;
  log : list (level * string)
}.

Record SimulationManager : Type := mkSimgr {
  _project : Project;
  stashes : gmap string (list nat)
}.

(** [pickle.dump(stash, f, pickle.HIGHEST_PROTOCOL)], [simgr.step],
    [str % {'addr': ...}] and [hex(addr)[:-1]] are given. *)
Variable pickle_dump : list SimState -> pickle_outcome.
Variable simgr_step :
  SimulationManager -> string -> World -> result SimulationManager * World.
Variable subst_addr : string -> string -> string.
Variable hex_addr : Z -> string.

Definition M (A : Type) : Type := World -> result A * World.

Record t : Type := mk {
  _dump_cond : SimState -> bool;
  _dump_cache : bool;
  _load_cache : bool;
  _cache_file : string;
  _dump_func : string -> SimulationManager -> string -> M unit
}.

Definition set_cache_file (self : t) (name : string) : t :=
  mk (_dump_cond self) (_dump_cache self) (_load_cache self) name
     (_dump_func self).

Definition set_states (f : gmap nat SimState -> gmap nat SimState) (w : World)
  : World :=
  mkWorld (f (states w)) (files w) (log w).

Definition with_project (p : option Project) (s : SimState) : SimState :=
  mkState (addr s) p (history s).

Definition with_trimmed_history (s : SimState) : SimState :=
  mkState (addr s) (project s) (trim (history s)).

(** [s.project = None; s.history.trim()] *)
Definition detach (h : nat) (w : World) : World :=
  set_states (alter (fun s => with_trimmed_history (with_project None s)) h) w.

(** [s.project = simgr._project] *)
Definition attach (p : Project) (h : nat) (w : World) : World :=
  set_states (alter (with_project (Some p)) h) w.

Definition write (f : string) (data : string) (w : World) : World :=
  mkWorld (states w) (<[ f := data ]> (files w)) (log w).

(** [l.warning(...)] and [l.error(...)] *)
Definition emit (l : level) (msg : string) (w : World) : World :=
  mkWorld (states w) (files w) (log w ++ [(l, msg)]).

(** The objects of a stash as [pickle] sees them. *)
Definition contents (ss : list nat) (w : World) : list SimState :=
  omap (fun h => states w !! h) ss.

(** [_dump_stash(f, simgr, stash)]: the two loops over the stash, the
    [try] around [pickle.dump] with its [except RuntimeError], which
    catches every [RuntimeError] and lets every other exception pass,
    and its [finally]. *)
Definition _dump_stash (f : string) (simgr : SimulationManager)
    (stash : string) : M unit :=
  fun w =>
    match stashes simgr !! stash with
    | None => (Raise (KeyError stash), w)
    | Some ss =>
        let w1 := foldl (fun w s => detach s w) w ss in
        let '(r, w2) :=
          match pickle_dump (contents ss w1) with
          | Dumped data => (Ok tt, write f data w1)
          | DumpRaised (RuntimeError message) partial =>
              (Ok tt,
               emit ERROR ("Unable to cache, '" +:+ message
                           +:+ "' during pickling")
                    (write f partial w1))
          | DumpRaised e partial => (Raise e, write f partial w1)
          end in
        (r, foldl (fun w s => attach (_project simgr) s w) w2 ss)
    end.

(** The loop of [step] over the states of the stash. A handle of a stash
    always names a state; the other case is there to make the function
    total. An exception of the dump function leaves the loop and [step]. *)
Fixpoint step_loop (self : t) (simgr : SimulationManager) (stash : string)
    (ss : list nat) (w : World) : t * result unit * World :=
  match ss with
  | [] => (self, Ok tt, w)
  | h :: ss =>
      match states w !! h with
      | None => step_loop self simgr stash ss w
      | Some s =>
          if _dump_cache self && _dump_cond self s then
            let self1 :=
              set_cache_file self (subst_addr (_cache_file self)
                                              (hex_addr (addr s))) in
            if bool_decide (is_Some (files w !! _cache_file self1)) then
              step_loop self1 simgr stash ss w
            else
              let w1 := emit WARNING ("Caching to " +:+ _cache_file self1
                                      +:+ "...") w in
              let w2 := write (_cache_file self1) EmptyString w1 in
              match _dump_func self1 (_cache_file self1) simgr stash w2 with
              | (Ok _, w3) => step_loop self1 simgr stash ss w3
              | (Raise e, w3) => (self1, Raise e, w3)
              end
          else step_loop self simgr stash ss w
      end
  end.

(** [step(self, simgr, stash)] *)
Definition step (self : t) (simgr : SimulationManager) (stash : string)
    (w : World) : t * result SimulationManager * World :=
  match stashes simgr !! stash with
  | None => (self, Raise (KeyError stash), w)
  | Some ss =>
      match step_loop self simgr stash ss w with
      | (self', Ok _, w') =>
          let '(r, w'') := simgr_step simgr stash w' in (self', r, w'')
      | (self', Raise e, w') => (self', Raise e, w')
      end
  end.

(** Every state of the list that is there has [p] as its project. *)
Definition attached (p : Project) (ss : list nat) (w : World) : Prop :=
  forall h s, h ∈ ss -> states w !! h = Some s -> project s = Some p.

(** What [pickle.load] makes of the content of a file: the state objects
    it creates and the list it returns, whose items refer to the objects
    by position so that an object can be listed twice; or an exception. *)
Inductive unpickle_outcome : Type :=
| Loaded (objects : list SimState) (items : list nat)
| LoadError (e : exn).

Variable pickle_load : string -> unpickle_outcome.

(** New objects: each gets a handle that names no state yet. *)
Fixpoint new_states (objects : list SimState) (w : World) : list nat * World :=
  match objects with
  | [] => ([], w)
  | s :: objects =>
      let h := fresh (dom (states w)) in
      let '(hs, w') := new_states objects (set_states <[ h := s ]> w) in
      (h :: hs, w')
  end.

(** [simgr.stashes[name] = ss] *)
Definition set_stash (simgr : SimulationManager) (name : string)
    (ss : list nat) : SimulationManager :=
  mkSimgr (_project simgr) (<[ name := ss ]> (stashes simgr)).

(** [_load_stash(f, simgr)]: [f] is a file open for reading, so it names
    a file; the result is the simulation manager after the assignment to
    its stash. *)
Definition _load_stash (f : string) (simgr : SimulationManager)
  : World -> result SimulationManager * World :=
  fun w =>
    match pickle_load (default EmptyString (files w !! f)) with
    | LoadError e => (Raise e, w)
    | Loaded objects items =>
        let '(hs, w1) := new_states objects w in
        let stash := omap (fun i => hs !! i) items in
        let w2 := foldl (fun w s => attach (_project simgr) s w) w1 stash in
        (Ok (set_stash simgr "active" stash), w2)
    end.

(** A state after [k] rounds of [s.project = None; s.history.trim()]. *)
Definition detached (k : nat) (s : SimState) : SimState :=
  match k with
  | O => s
  | S _ => mkState (addr s) None (Nat.iter k trim (history s))
  end.

(** How often [h] is listed in [ss]. *)
Definition times_listed (h : nat) (ss : list nat) : nat :=
  length (filter (fun x => x = h) ss).

(** The world [pickle.dump] runs in: every state of the stash has been
    detached. *)
Definition pickling_world (ss : list nat) (w : World) : World :=
  foldl (fun w s => detach s w) w ss.

End cacher.

(** A run in which pickling always hits the recursion limit. *)
Definition recursion_limit (l : list (@SimState unit unit)) : pickle_outcome :=
  DumpRaised (RuntimeError "maximum recursion depth exceeded") EmptyString.

Definition demo_simgr : @SimulationManager unit :=
  mkSimgr tt {[ "active" := [0%nat] ]}.

Definition demo_world : @World unit unit :=
  mkWorld {[ 0%nat := mkState 4096 (Some tt) tt ]} ∅ [].

Definition demo_cacher : @t unit unit :=
  mk (fun _ => true) true true "/tmp/demo.cache"
     (_dump_stash id recursion_limit).

End Cacher.

(** * Definitions used in the statements *)

(** The handle [h] names a store of the world. *)
Definition live (h : nat) (w : World) : Prop := is_Some (heap w !! h).

#[export] Instance live_dec h w : Decision (live h w) :=
  decide (is_Some (heap w !! h)).

(** [self.mem.keys()] for the store at handle [h]. *)
Definition mem_keys (h : nat) (w : World) : gset Z :=
  default ∅ (cooldict.keys <$> heap w !! h).

(** [w'] keeps every entry of [w] and the same live stores. *)
Definition extends (w w' : World) : Prop :=
  (forall h k b, mem_get h k w = Some b -> mem_get h k w' = Some b)
  /\ (forall h, live h w <-> live h w').

(** What the world keeps besides the heap. *)
Definition same_counters (w w' : World) : Prop :=
  addr_mem_counter w' = addr_mem_counter w
  /\ merge_mem_counter w' = merge_mem_counter w
  /\ solver_log w' = solver_log w
  /\ (var_mem_counter w <= var_mem_counter w')%N.

(** A view made by [SimMemory()] in the empty world. *)
Definition demo_view : SimMemory.t * World :=
  SimMemory.init SimMemory.NoBacker 64 "mem" empty_world.

(** The [k]-th byte of [cnt], counted from the most significant one: the
    term [write_to] stores at offset [k]. *)
Definition byte_of (cnt : bv) (k : Z) : bv :=
  Extract (size cnt - 8 * k - 1) (size cnt - 8 * k - 8) cnt.

(** The address [load] and [store] use without concretization: a plain
    integer, or the value of an object that says it is unique. *)
Definition concrete_addr (dst : pyaddr) : option Z :=
  match dst with
  | PyInt z => Some z
  | PyValue v => if SimValue.is_unique v then Some (SimValue.any v) else None
  end.

(** The world after the two questions asked of a unique value object. *)
Definition asked (dst : pyaddr) (w : World) : World :=
  match dst with
  | PyInt _ => w
  | PyValue v => log_query v QAny (log_query v QIsUnique w)
  end.

(** What one strategy yields for a value object, in the words of the
    specification: ["symbolic"] enumerates up to [limit] values when the
    range is below [limit], ["any"] gives one value, the other names give
    nothing. *)
Definition strategy_yield (self : SimMemory.t) (v : SimValue.t) (s : string)
  : option (list Z) :=
  if decide (s = "symbolic") then
    if decide (SimValue.max v - SimValue.min v < SimMemory.limit self)
    then Some (SimValue.any_n v (SimMemory.limit self))
    else None
  else if decide (s = "any") then Some [SimValue.any v]
  else None.

(** The first result in the order of the list. *)
Fixpoint first_yield (self : SimMemory.t) (v : SimValue.t)
    (strategies : list string) : option (list Z) :=
  match strategies with
  | [] => None
  | s :: rest =>
      match strategy_yield self v s with
      | Some r => Some r
      | None => first_yield self v rest
      end
  end.

(** The world after a sequence of questions. *)
Definition log_queries (v : SimValue.t) (qs : list query) (w : World) : World :=
  foldl (fun w q => log_query v q w) w qs.

(** A value object [sel] that may be [4096] or [4100]. *)
Definition two_way : SimValue.t :=
  SimValue.mk (BitVec "sel" 64) true true false 4096
    (fun n => take (Z.to_nat n) [4096; 4100]) 4096 4100.

(** The questions [concretize_addr] asks of a unique value object. *)
Definition fast_path_queries (v : SimValue.t) : list query :=
  [QIsSymbolic]
  ++ (if SimValue.is_symbolic v then [QSatisfiable] else [])
  ++ [QIsUnique; QAny].

(** A value object for the concrete address [4096]. *)
Definition unique_value : SimValue.t :=
  SimValue.mk (BitVecVal 4096 64) false true true 4096 (fun _ => [4096])
    4096 4096.

(** [concretize_addr] only adds to the log of questions. *)
Definition same_memory (w w' : World) : Prop :=
  heap w' = heap w
  /\ next_ident w' = next_ident w
  /\ addr_mem_counter w' = addr_mem_counter w
  /\ var_mem_counter w' = var_mem_counter w
  /\ merge_mem_counter w' = merge_mem_counter w.

(** What the store of [self] holds at the [n] addresses from [c] on: the
    entry itself for one address, and otherwise [Concat] of the entries,
    lowest address first; nothing when one of the addresses has no
    entry. *)
Definition value_at (self : SimMemory.t) (c n : Z) (w : World) : option bv :=
  bytes ← mapM (fun i => mem_get (SimMemory.mem self) (c + i) w) (seqZ 0 n);
  Some (match bytes with [b] => b | _ => Concat bytes end).

(** The constraint built for one candidate address of an ambiguous read. *)
Definition candidate_constraint (m : bv) (e : bv) (c : Z) (val : bv) : bexp :=
  And [Eq m (OExpr val); Eq e (OInt c)].

(** Two worlds in which the store at [h] has the same entries and the
    next symbolic byte gets the same name. *)
Definition agree (h : nat) (w w' : World) : Prop :=
  (forall k, mem_get h k w = mem_get h k w')
  /\ var_mem_counter w = var_mem_counter w'
  /\ (live h w <-> live h w').

(** The constraint [merge] builds for one address: [Or] over the states,
    in order, of [And(flag == flag_value, merged == alternative)]; [zip]
    stops at the shorter of the two lists. *)
Definition merge_constraint (flag merged : bv) (alternatives : list bv)
    (flag_values : list operand) : bexp :=
  Or (zip_with (fun a fv => And [Eq flag fv; Eq merged (OExpr a)])
               alternatives flag_values).

(** The symbol [merge] creates for [addr] when the merge counter is [n]. *)
Definition merged_symbol (self : SimMemory.t) (addr : Z) (n : N) : bv :=
  BitVec (merge_name (SimMemory.id self) addr n) 8.

(** How the alternative [a] read from state [s] at [addr] relates to the
    world [w] before and the world [w'] after: it is the entry [s] had,
    when it had one, and a symbolic byte otherwise; and it is still the
    entry of [s] afterwards when [s] does not share the store of [self]. *)
Definition alternative_of (self : SimMemory.t) (addr : Z) (w w' : World)
    (s : SimMemory.t) (a : bv) : Prop :=
  (forall b, mem_get (SimMemory.mem s) addr w = Some b -> a = b)
  /\ (mem_get (SimMemory.mem s) addr w = None -> exists name, a = BitVec name 8)
  /\ (SimMemory.mem s ≠ SimMemory.mem self ->
      mem_get (SimMemory.mem s) addr w' = Some a).

(** Every entry of [w'] was in [w] or is a symbolic byte made since. *)
Definition materialized (w w' : World) : Prop :=
  forall h k a, mem_get h k w' = Some a ->
    mem_get h k w = Some a \/ exists name, a = BitVec name 8.

(** Everything but the entries at address [addr] is as before. *)
Definition only_at (addr : Z) (w w' : World) : Prop :=
  (forall h k, k ≠ addr -> mem_get h k w' = mem_get h k w)
  /\ (forall h, live h w' <-> live h w)
  /\ addr_mem_counter w' = addr_mem_counter w
  /\ solver_log w' = solver_log w.

(** The addresses [merge] works on: those changed between [self] and
    some other state. *)
Definition merge_addresses (self : SimMemory.t) (others : list SimMemory.t)
    (w : World) : gset Z :=
  foldl (fun acc o => acc ∪ SimMemory.changed_bytes self o w) ∅ others.

(** Two views that diverged at address [4096]: [v0] holds [0x59] there,
    [v1] holds [0x58]. *)
Definition diverged : SimMemory.t * SimMemory.t * World :=
  let v0 := demo_view.1 in
  let '(v1, w1) := SimMemory.copy v0 demo_view.2 in
  let w2 := (SimMemory.store v0 (PyInt 4096) (BitVecVal 0x59 8) w1).2 in
  let w3 := (SimMemory.store v1 (PyInt 4096) (BitVecVal 0x58 8) w2).2 in
  (v0, v1, w3).

(** The string has no underscore. *)
Fixpoint no_underscore (s : string) : bool :=
  match s with
  | EmptyString => true
  | String c r => negb (bool_decide (c = "_"%char)) && no_underscore r
  end.

(** The part of a string after its last underscore. *)
Fixpoint last_segment (s : string) : string :=
  match s with
  | EmptyString => EmptyString
  | String c r =>
      if no_underscore r
      then (if bool_decide (c = "_"%char) then r else String c r)
      else last_segment r
  end.

(** ** Definitions for the further properties *)

(** The computation [m] relates every world to the world it leaves. *)
Definition keeps {A} (R : World -> World -> Prop) (m : M A) : Prop :=
  forall w, R w (m w).2.

(** What no method of [SimMemory] undoes: stores stay, the counters do
    not go back and the log only grows. *)
Definition grows (w w' : World) : Prop :=
  (forall h, live h w -> live h w')
  /\ (addr_mem_counter w <= addr_mem_counter w')%N
  /\ (var_mem_counter w <= var_mem_counter w')%N
  /\ (merge_mem_counter w <= merge_mem_counter w')%N
  /\ solver_log w `prefix_of` solver_log w'.

(** Entries of the stores outside [hs] are as before. *)
Definition untouched_outside (hs : list nat) (w w' : World) : Prop :=
  forall h k, h ∉ hs -> mem_get h k w' = mem_get h k w.

(** No entry is removed or replaced. *)
Definition keeps_entries (w w' : World) : Prop :=
  forall h k b, mem_get h k w = Some b -> mem_get h k w' = Some b.

(** The one kind of address for which [load] and [store] raise: a value
    object that is not unique, is symbolic and is not satisfiable. *)
Definition unsatisfiable_address (dst : pyaddr) : bool :=
  match dst with
  | PyInt _ => false
  | PyValue v =>
      negb (SimValue.is_unique v) && SimValue.is_symbolic v
      && negb (SimValue.satisfiable v)
  end.

(** The computation [m] returns normally from every world. *)
Definition returns {A} (m : M A) : Prop :=
  forall w, exists a w', m w = (Ok a, w').

(** The store of [self] holds the [n] bytes of [X] from address [a] on,
    most significant first. *)
Definition stored_at (self : SimMemory.t) (a : Z) (X : bv) (n : Z) (w : World)
  : Prop :=
  forall k, 0 <= k < n ->
    mem_get (SimMemory.mem self) (a + k) w = Some (byte_of X k).

(** The address [__contains__] looks up, if any: a plain integer; for a
    value object that is not symbolic its [any()], asked without any
    other question; for a symbolic one its [any()] when it is
    satisfiable and unique, and none otherwise. *)
Definition lookup_address (dst : pyaddr) : option Z :=
  match dst with
  | PyInt z => Some z
  | PyValue v =>
      if SimValue.is_symbolic v
      then if SimValue.satisfiable v && SimValue.is_unique v
           then Some (SimValue.any v) else None
      else Some (SimValue.any v)
  end.

(** A value object whose range is 2000 wide. *)
Definition wide_range : SimValue.t :=
  SimValue.mk (BitVec "p" 64) true true false 4096
    (fun n => take (Z.to_nat n) [4096; 5000; 6096]) 4096 6096.

(** The part of a string before its last underscore. *)
Fixpoint before_last_segment (s : string) : string :=
  match s with
  | EmptyString => EmptyString
  | String c r =>
      if no_underscore r then EmptyString
      else String c (before_last_segment r)
  end.

(** The string is made of the characters [%x] prints. *)
Fixpoint hex_chars (s : string) : bool :=
  match s with
  | EmptyString => true
  | String c r =>
      bool_decide (c ∈ String.list_ascii_of_string "0123456789abcdef-")
      && hex_chars r
  end.

(** The segment before the counter. *)
Definition kind_segment (s : string) : string :=
  last_segment (before_last_segment s).

(** The word before the address of a name of [unconstrain_byte] or
    [merge]. *)
Definition word_segment (s : string) : string :=
  last_segment (before_last_segment (before_last_segment s)).

(** The entry [unconstrain_byte] writes at [addr] when the counter of
    address symbols is [k]. *)
Definition unconstrained_entry (self : SimMemory.t) (addr : Z) (k : N) : bv :=
  Extract 7 0 (BitVec (unconstrain_name (SimMemory.id self) addr k) 8).

(** Entries of the stores other than [h0] are kept. *)
Definition keeps_entries_outside (h0 : nat) (w w' : World) : Prop :=
  forall h k b, h ≠ h0 -> mem_get h k w = Some b -> mem_get h k w' = Some b.

(** The identities of the lineage of the store at [h] are older than the
    identity the next node gets. *)
Definition fresh_idents (h : nat) (w : World) : Prop :=
  forall d, heap w !! h = Some d ->
    Forall (fun l => (cooldict.ident l < next_ident w)%nat)
           (cooldict.ancestry_line d).

(** * Properties *)

(** ** Names of symbols made from different counter values differ *)

Lemma no_underscore_app s t :
  no_underscore (s +:+ t) = no_underscore s && no_underscore t.
Proof.
  induction s as [|c s IH]; simpl; [done|]. rewrite IH.
  by rewrite andb_assoc.
Qed.

Lemma last_segment_app s t :
  no_underscore t = false -> last_segment (s +:+ t) = last_segment t.
Proof.
  intros Ht. induction s as [|c s IH]; simpl; [done|].
  rewrite no_underscore_app, Ht, andb_false_r. exact IH.
Qed.

Lemma last_segment_counter s d :
  no_underscore d = true -> last_segment (s +:+ "_" +:+ d) = d.
Proof.
  intros Hd. rewrite last_segment_app; [|done].
  change (last_segment (String "_" d) = d). simpl. by rewrite Hd.
Qed.

Lemma pretty_N_go_no_underscore x s :
  no_underscore s = true -> no_underscore (pretty_N_go x s) = true.
Proof.
  revert s. induction (N.lt_wf_0 x) as [x _ IH]; intros s Hs.
  destruct (decide (0 < x)%N) as [Hx|Hx].
  - rewrite pretty_N_go_step by done. apply IH.
    + apply N.div_lt; lia.
    + simpl. rewrite Hs, andb_true_r. unfold pretty_N_char.
      by repeat case_match.
  - replace x with 0%N by lia. done.
Qed.

Lemma fmt_d_no_underscore n : no_underscore (fmt_d n) = true.
Proof.
  unfold fmt_d, pretty, pretty_N. case_decide; [done|].
  by apply pretty_N_go_no_underscore.
Qed.

Lemma last_segment_two p q d :
  no_underscore d = true -> last_segment (p +:+ "_" +:+ q +:+ "_" +:+ d) = d.
Proof.
  intros Hd. rewrite (last_segment_app p); [|reflexivity].
  change (last_segment (String "_" (q +:+ "_" +:+ d)) = d).
  cbn [last_segment]. rewrite no_underscore_app.
  change (no_underscore ("_" +:+ d)) with false. rewrite andb_false_r.
  by apply last_segment_counter.
Qed.

(** The names [s_memory.py] makes end with an underscore and the decimal
    counter: two names made from different values of a counter are
    different, whatever the memory id and the address. *)
Lemma mem_byte_name_fresh id a n id' a' n' :
  n ≠ n' -> mem_byte_name id a n ≠ mem_byte_name id' a' n'.
Proof.
  intros Hne Heq. apply Hne. apply (f_equal last_segment) in Heq.
  unfold mem_byte_name in Heq.
  rewrite !last_segment_two in Heq by apply fmt_d_no_underscore.
  by apply (inj pretty) in Heq.
Qed.

Lemma addr_name_fresh id n id' n' :
  n ≠ n' -> addr_name id n ≠ addr_name id' n'.
Proof.
  intros Hne Heq. apply Hne. apply (f_equal last_segment) in Heq.
  change (last_segment (id +:+ "_" +:+ "addr" +:+ "_" +:+ fmt_d n)
          = last_segment (id' +:+ "_" +:+ "addr" +:+ "_" +:+ fmt_d n')) in Heq.
  rewrite !last_segment_two in Heq by apply fmt_d_no_underscore.
  by apply (inj pretty) in Heq.
Qed.

Lemma merge_name_fresh id a n id' a' n' :
  n ≠ n' -> merge_name id a n ≠ merge_name id' a' n'.
Proof.
  intros Hne Heq. apply Hne. apply (f_equal last_segment) in Heq.
  change (last_segment (id +:+ "_" +:+ ("merge_0x" +:+ fmt_x a) +:+ "_"
                           +:+ fmt_d n)
          = last_segment (id' +:+ "_" +:+ ("merge_0x" +:+ fmt_x a') +:+ "_"
                              +:+ fmt_d n')) in Heq.
  rewrite !last_segment_two in Heq by apply fmt_d_no_underscore.
  by apply (inj pretty) in Heq.
Qed.

(** ** The byte store *)

Lemma getitem_setitem i k v d k' :
  cooldict.getitem (cooldict.setitem i k v d) k'
  = if decide (k = k') then Some v else cooldict.getitem d k'.
Proof.
  unfold cooldict.getitem, cooldict.setitem, cooldict.ancestry_line.
  destruct (cooldict.finalized (cooldict.cowdict d)); simpl.
  - rewrite decide_False by apply not_elem_of_empty.
    destruct (decide (k = k')) as [->|Hne].
    + by rewrite lookup_singleton_eq.
    + by rewrite lookup_singleton_ne.
  - destruct (decide (k = k')) as [->|Hne].
    + rewrite decide_False; [by rewrite lookup_insert_eq|].
      rewrite elem_of_difference, elem_of_singleton. tauto.
    + rewrite lookup_insert_ne by done.
      destruct (decide (k' ∈ cooldict.deleted (cooldict.cowdict d))) as [Hd|Hd].
      * rewrite decide_True; [done|]. apply elem_of_difference. split; [done|].
        rewrite elem_of_singleton. congruence.
      * rewrite decide_False; [done|]. rewrite elem_of_difference. tauto.
Qed.

Lemma mem_get_set h k v w h' k' :
  live h w ->
  mem_get h' k' (mem_set h k v w)
  = if decide (h = h' /\ k = k') then Some v else mem_get h' k' w.
Proof.
  intros [d Hd]. unfold mem_get, mem_set. rewrite Hd. simpl.
  destruct (decide (h = h')) as [->|Hh].
  - rewrite lookup_insert_eq. simpl. rewrite getitem_setitem, Hd. simpl.
    destruct (decide (k = k')) as [->|Hk].
    + by rewrite decide_True.
    + rewrite decide_False; [done | tauto].
  - rewrite lookup_insert_ne by done.
    rewrite decide_False; [done | tauto].
Qed.

Lemma mem_get_set_eq h k v w :
  live h w -> mem_get h k (mem_set h k v w) = Some v.
Proof. intros H. rewrite mem_get_set by done. by rewrite decide_True. Qed.

Lemma mem_get_set_ne h k v w h' k' :
  h ≠ h' \/ k ≠ k' -> mem_get h' k' (mem_set h k v w) = mem_get h' k' w.
Proof.
  intros Hne. destruct (decide (live h w)) as [Hl|Hl].
  - rewrite mem_get_set by done. rewrite decide_False; [done | tauto].
  - unfold mem_set. unfold live in Hl.
    destruct (heap w !! h) eqn:E; [|done]. exfalso. apply Hl. eauto.
Qed.

Lemma live_mem_set h k v w h' : live h' (mem_set h k v w) <-> live h' w.
Proof.
  unfold live, mem_set. destruct (heap w !! h) eqn:E; [|done]. simpl.
  destruct (decide (h = h')) as [->|Hne].
  - rewrite lookup_insert_eq, E. split; eauto.
  - by rewrite lookup_insert_ne.
Qed.

Lemma counters_mem_set h k v w :
  addr_mem_counter (mem_set h k v w) = addr_mem_counter w
  /\ var_mem_counter (mem_set h k v w) = var_mem_counter w
  /\ merge_mem_counter (mem_set h k v w) = merge_mem_counter w
  /\ solver_log (mem_set h k v w) = solver_log w.
Proof. unfold mem_set. by destruct (heap w !! h). Qed.

Lemma line_keys_spec k ls :
  k ∈ cooldict.line_keys ls <-> is_Some (cooldict.line_lookup k ls).
Proof.
  induction ls as [|l ls IH]; simpl.
  - split; [set_solver | by intros [? ?]].
  - rewrite elem_of_difference, elem_of_union, elem_of_dom, IH.
    destruct (decide (k ∈ cooldict.deleted l)) as [Hd|Hd].
    + split; [tauto | by intros [? ?]].
    + destruct (cooldict.storage l !! k) eqn:E.
      * split; eauto.
      * split; [intros [[[? ?]|?] _]; [done|done] | tauto].
Qed.

Lemma mem_keys_spec h k w : k ∈ mem_keys h w <-> is_Some (mem_get h k w).
Proof.
  unfold mem_keys, mem_get. destruct (heap w !! h) as [d|]; simpl.
  - apply line_keys_spec.
  - split; [set_solver | by intros [? ?]].
Qed.

(** ** Reading *)

Lemma extends_refl w : extends w w.
Proof. split; [auto | tauto]. Qed.

Lemma extends_trans w1 w2 w3 : extends w1 w2 -> extends w2 w3 -> extends w1 w3.
Proof.
  intros [H1 L1] [H2 L2]. split; [auto|].
  intros h. rewrite L1. apply L2.
Qed.

Lemma extends_set_fresh h k v w :
  mem_get h k w = None -> extends w (mem_set h k v w).
Proof.
  intros Hn. split.
  - intros h' k' b Hb. rewrite mem_get_set_ne; [done|].
    destruct (decide (h = h')) as [->|]; [|tauto].
    right. intros ->. congruence.
  - intros h'. by rewrite live_mem_set.
Qed.

Lemma next_var_mem_get h k w : mem_get h k (next_var_mem w).2 = mem_get h k w.
Proof. done. Qed.

Lemma same_counters_refl w : same_counters w w.
Proof. unfold same_counters. repeat split; lia. Qed.

Lemma same_counters_trans w1 w2 w3 :
  same_counters w1 w2 -> same_counters w2 w3 -> same_counters w1 w3.
Proof.
  unfold same_counters. intros (A1 & M1 & S1 & V1) (A2 & M2 & S2 & V2).
  repeat split; try congruence. lia.
Qed.

(** The body of the loop of [read_from], when the entry is there. *)
Lemma read_byte_present self a w b :
  mem_get (SimMemory.mem self) a w = Some b ->
  SimMemory.read_byte self a w = (b, w).
Proof. unfold SimMemory.read_byte. by intros ->. Qed.

(** The body of the loop of [read_from], in general. *)
Lemma read_byte_spec self a w :
  let '(b, w') := SimMemory.read_byte self a w in
  extends w w'
  /\ (forall h k, h ≠ SimMemory.mem self \/ k ≠ a ->
        mem_get h k w' = mem_get h k w)
  /\ (live (SimMemory.mem self) w -> mem_get (SimMemory.mem self) a w' = Some b)
  /\ same_counters w w'.
Proof.
  unfold SimMemory.read_byte.
  destruct (mem_get (SimMemory.mem self) a w) as [b|] eqn:Hget.
  - repeat split; auto using extends_refl, same_counters_refl;
      apply extends_refl.
  - simpl.
    set (b := BitVec (mem_byte_name (SimMemory.id self) a (var_mem_counter w)) 8).
    set (w0 := mkWorld _ _ _ _ _ _).
    destruct (counters_mem_set (SimMemory.mem self) a b w0)
      as (Ha & Hv & Hm & Hs).
    assert (He : extends w (mem_set (SimMemory.mem self) a b w0)).
    { apply (extends_trans _ w0); [by split|].
      apply extends_set_fresh. done. }
    split; [done|]. split; [|split].
    + intros h k Hk. rewrite mem_get_set_ne; [done|].
      destruct Hk; [left|right]; congruence.
    + intros Hl. apply mem_get_set_eq. done.
    + unfold same_counters. rewrite Ha, Hv, Hm, Hs. simpl.
      repeat split. lia.
Qed.

(** What one pass of the loop of [read_from] does. *)
Lemma read_bytes_spec self addr offs w :
  let '(buff, w') := SimMemory.read_bytes self addr offs w in
  extends w w'
  /\ length buff = length offs
  /\ (forall h k, h ≠ SimMemory.mem self \/ k ∉ ((fun i => addr + i) <$> offs) ->
        mem_get h k w' = mem_get h k w)
  /\ (live (SimMemory.mem self) w ->
      Forall2 (fun i b => mem_get (SimMemory.mem self) (addr + i) w' = Some b)
              offs buff)
  /\ same_counters w w'.
Proof.
  revert w. induction offs as [|i offs IH]; intros w; simpl.
  { repeat split; auto using extends_refl, same_counters_refl;
      apply extends_refl. }
  pose proof (read_byte_spec self (addr + i) w) as H1.
  destruct (SimMemory.read_byte self (addr + i) w) as [b w1].
  destruct H1 as (He1 & Hfr1 & Hget1 & Hc1).
  specialize (IH w1).
  destruct (SimMemory.read_bytes self addr offs w1) as [buff w2].
  destruct IH as (He & Hlen & Hfr & Hall & Hc).
  split; [by apply (extends_trans _ w1)|].
  split; [simpl; lia|]. split; [|split].
  - intros h k Hk. rewrite elem_of_cons in Hk. rewrite Hfr, Hfr1; [done| |]; tauto.
  - intros Hl. constructor.
    + apply He. auto.
    + apply Hall. apply He1. done.
  - by apply (same_counters_trans _ w1).
Qed.

(** Reading entries that are all there returns them and changes nothing. *)
Lemma read_bytes_present self addr offs w buff :
  Forall2 (fun i b => mem_get (SimMemory.mem self) (addr + i) w = Some b)
          offs buff ->
  SimMemory.read_bytes self addr offs w = (buff, w).
Proof.
  induction 1 as [|i b offs buff Hb _ IH]; simpl; [done|].
  rewrite (read_byte_present _ _ _ b) by done. by rewrite IH.
Qed.

(** Entries read once are read again, unchanged, in any later world. *)
Lemma read_from_stable self addr n w r w1 w2 :
  live (SimMemory.mem self) w ->
  SimMemory.read_from self addr n w = (r, w1) ->
  extends w1 w2 ->
  SimMemory.read_from self addr n w2 = (r, w2).
Proof.
  unfold SimMemory.read_from. intros Hl Hr He.
  pose proof (read_bytes_spec self addr (py_range 0 n 1) w) as Hs.
  destruct (SimMemory.read_bytes self addr (py_range 0 n 1) w) as [buff w'].
  destruct Hs as (_ & _ & _ & Hall & _).
  injection Hr as <- <-.
  rewrite (read_bytes_present _ _ _ _ buff); [done|].
  eapply Forall2_impl; [by apply Hall|]. intros i b Hb. by apply He.
Qed.

Lemma py_range_unit n : py_range 0 n 1 = seqZ 0 n.
Proof.
  unfold py_range. replace (n - 0 + 1 - 1) with n by lia. rewrite Z.div_1_r.
  rewrite <- (list_fmap_id (seqZ 0 n)) at 2.
  apply list_fmap_ext. intros _ k _. simpl. lia.
Qed.

(** [load] of one byte at a plain integer address is the loop body. *)
Lemma load_one_byte self a w :
  SimMemory.load self (PyInt a) 1 w
  = let '(b, w') := SimMemory.read_byte self a w in (Ok (b, []), w').
Proof.
  unfold SimMemory.load, SimMemory.read_from, lift, mbind, mret, M_bind, M_ret.
  simpl. rewrite Z.add_0_r.
  destruct (SimMemory.read_byte self a w) as [b w']. done.
Qed.

(** C10. A load of one byte at a concrete address that holds no entry
    returns a new 8-bit symbol named after the counter of symbolic bytes
    (so different from every byte symbol named at another value of the
    counter), and writes it back: the address joins the key set of the
    store, the counter moves on, and the same load done again returns the
    same symbol and leaves the world as it is. *)
Theorem lazy_byte_persists self a w :
  live (SimMemory.mem self) w ->
  mem_get (SimMemory.mem self) a w = None ->
  let b := BitVec (mem_byte_name (SimMemory.id self) a (var_mem_counter w)) 8 in
  exists w',
    SimMemory.load self (PyInt a) 1 w = (Ok (b, []), w')
    /\ (a ∉ mem_keys (SimMemory.mem self) w)
    /\ (a ∈ mem_keys (SimMemory.mem self) w')
    /\ mem_get (SimMemory.mem self) a w' = Some b
    /\ var_mem_counter w' = (var_mem_counter w + 1)%N
    /\ (forall id' a' n', n' ≠ var_mem_counter w ->
          b ≠ BitVec (mem_byte_name id' a' n') 8)
    /\ SimMemory.load self (PyInt a) 1 w' = (Ok (b, []), w').
Proof.
  intros Hl Hn b.
  assert (Hrb : exists w', SimMemory.read_byte self a w = (b, w')
            /\ mem_get (SimMemory.mem self) a w' = Some b
            /\ var_mem_counter w' = (var_mem_counter w + 1)%N).
  { unfold SimMemory.read_byte. rewrite Hn. simpl. eexists. split; [done|].
    split; [by apply mem_get_set_eq|].
    apply (counters_mem_set (SimMemory.mem self) a b). }
  destruct Hrb as (w' & Hrb & Hget & Hv).
  exists w'. rewrite !load_one_byte, Hrb.
  rewrite (read_byte_present _ _ _ b) by done.
  rewrite !mem_keys_spec, Hn, Hget.
  repeat split; eauto.
  intros id' a' n' Hne [= Heq]. by apply mem_byte_name_fresh in Heq.
Qed.

Lemma lazy_byte_persists_witness :
  exists w',
    SimMemory.load demo_view.1 (PyInt 4096) 1 demo_view.2
    = (Ok (BitVec "mem_1000_0" 8, []), w')
    /\ SimMemory.load demo_view.1 (PyInt 4096) 1 w'
       = (Ok (BitVec "mem_1000_0" 8, []), w').
Proof.
  destruct (lazy_byte_persists demo_view.1 4096 demo_view.2)
    as (w' & H1 & _ & _ & _ & _ & _ & H2).
  - vm_compute. eauto.
  - reflexivity.
  - exists w'. split; [exact H1 | exact H2].
Defined.

(** ** Meaning of terms *)

(** Induction on terms, with the hypothesis for every argument of a
    [Concat]. *)
Lemma bv_ind_nested (P : bv -> Prop) :
  (forall name n, P (BitVec name n)) ->
  (forall v n, P (BitVecVal v n)) ->
  (forall args, Forall P args -> P (Concat args)) ->
  (forall high low e, P e -> P (Extract high low e)) ->
  forall e, P e.
Proof.
  intros Hsym Hval Hcat Hext.
  fix IH 1. intros [name n|v n|args|high low e].
  - apply Hsym.
  - apply Hval.
  - apply Hcat. induction args as [|a args IHargs]; constructor.
    + apply IH.
    + apply IHargs.
  - apply Hext, IH.
Qed.

Lemma size_concat_cons a args :
  size (Concat (a :: args)) = size a + size (Concat args).
Proof. done. Qed.

Lemma concat_range rho args acc s :
  Forall (fun a => 0 < size a /\ 0 <= eval rho a < 2 ^ size a) args ->
  0 <= s -> 0 <= acc < 2 ^ s ->
  0 <= size (Concat args)
  /\ 0 <= foldl (fun acc a => acc * 2 ^ size a + eval rho a) acc args
     < 2 ^ (s + size (Concat args)).
Proof.
  intros Hall. revert acc s.
  induction Hall as [|a args [Hpos Ha] _ IH]; intros acc s Hs Hacc.
  - simpl. rewrite Z.add_0_r. lia.
  - rewrite size_concat_cons. cbn [foldl].
    destruct (IH (acc * 2 ^ size a + eval rho a) (s + size a)) as [Ht Hr].
    + lia.
    + rewrite Z.pow_add_r by lia. nia.
    + split; [lia|]. rewrite Z.add_assoc. done.
Qed.

(** A well-formed term has a positive width and a value below two to
    that width. *)
Lemma eval_range rho e :
  wf e = true -> 0 < size e /\ 0 <= eval rho e < 2 ^ size e.
Proof.
  induction e as [name n|v n|args IH|high low e IH] using bv_ind_nested;
    intros Hwf.
  - simpl in *. apply bool_decide_eq_true in Hwf. split; [done|].
    apply Z.mod_pos_bound. lia.
  - simpl in *. apply bool_decide_eq_true in Hwf. split; [done|].
    apply Z.mod_pos_bound. lia.
  - cbn [wf] in Hwf. apply andb_true_iff in Hwf as [Hne Hwf].
    apply negb_true_iff, bool_decide_eq_false in Hne.
    rewrite forallb_forall in Hwf.
    assert (Hall : Forall (fun a => 0 < size a /\ 0 <= eval rho a < 2 ^ size a)
                          args).
    { rewrite Forall_forall in IH |- *. intros a Ha.
      apply IH; [done|]. apply Hwf. by apply list_elem_of_In. }
    destruct (concat_range rho args 0 0 Hall) as [Ht Hr]; [lia|simpl; lia|].
    rewrite Z.add_0_l in Hr. split; [|exact Hr].
    destruct args as [|a args]; [done|]. rewrite size_concat_cons.
    apply Forall_cons in Hall as [[Ha _] Hall].
    destruct (concat_range rho args 0 0 Hall) as [Ht' _]; [lia|simpl; lia|].
    lia.
  - simpl in *.
    repeat (apply andb_true_iff in Hwf as [Hwf ?]).
    repeat match goal with H : bool_decide _ = true |- _ =>
      apply bool_decide_eq_true in H end.
    split; [lia|]. apply Z.mod_pos_bound. apply Z.pow_pos_nonneg; lia.
Qed.

Lemma eval_byte_of rho cnt k :
  eval rho (byte_of cnt k) = (eval rho cnt / 2 ^ (size cnt - 8 * k - 8)) mod 256.
Proof. simpl. f_equal. replace (_ - _ + 1) with 8 by lia. done. Qed.

(** The bytes of a value, concatenated most significant first, give the
    value back. *)
Lemma eval_concat_bytes rho cnt n :
  size cnt = 8 * Z.of_nat n ->
  0 <= eval rho cnt < 2 ^ size cnt ->
  eval rho (Concat (byte_of cnt <$> seqZ 0 (Z.of_nat n))) = eval rho cnt.
Proof.
  intros Hsz Hr.
  assert (Hgen : forall j : nat, (j <= n)%nat ->
    eval rho (Concat (byte_of cnt <$> seqZ 0 (Z.of_nat j)))
    = eval rho cnt / 2 ^ (8 * (Z.of_nat n - Z.of_nat j))).
  { induction j as [|j IH]; intros Hj.
    - simpl. rewrite Z.sub_0_r, <- Hsz. symmetry. by apply Z.div_small.
    - rewrite seqZ_S, fmap_app. cbn [eval] in IH |- *.
      rewrite foldl_app. cbn [foldl fmap list_fmap].
      rewrite IH by lia. rewrite eval_byte_of.
      replace (size (byte_of cnt (0 + Z.of_nat j))) with 8 by (simpl; lia).
      rewrite Hsz.
      replace (8 * Z.of_nat n - 8 * (0 + Z.of_nat j) - 8)
        with (8 * (Z.of_nat n - Z.of_nat (S j))) by lia.
      replace (8 * (Z.of_nat n - Z.of_nat j))
        with (8 * (Z.of_nat n - Z.of_nat (S j)) + 8) by lia.
      rewrite Z.pow_add_r by lia.
      rewrite <- Z.div_div by lia.
      change (2 ^ 8) with 256.
      set (q := eval rho cnt / 2 ^ (8 * (Z.of_nat n - Z.of_nat (S j)))).
      pose proof (Z.div_mod q 256). lia. }
  rewrite Hgen by lia. rewrite Z.sub_diag. simpl. apply Z.div_1_r.
Qed.

(** ** Writing *)

Lemma py_range_bytes n :
  0 <= n -> py_range 0 (8 * n) 8 = (fun k => k * 8) <$> seqZ 0 n.
Proof.
  intros Hn. unfold py_range.
  replace ((8 * n - 0 + 8 - 1) / 8) with n.
  - apply list_fmap_ext. intros _ k _. lia.
  - replace (8 * n - 0 + 8 - 1) with (n * 8 + 7) by lia.
    rewrite Z.div_add_l by lia. change (7 / 8) with 0. lia.
Qed.

Lemma foldl_ext_eq {A B} (f g : A -> B -> A) (l : list B) (a : A) :
  (forall a b, f a b = g a b) -> foldl f a l = foldl g a l.
Proof.
  intros Hfg. revert a. induction l as [|b l IH]; intros a; simpl; [done|].
  by rewrite Hfg, IH.
Qed.

(** [write_to] stores the bytes of [cnt] at consecutive addresses. *)
Lemma write_to_bytes self addr cnt n w :
  0 <= n -> size cnt = 8 * n ->
  SimMemory.write_to self addr cnt w
  = foldl (fun w k => mem_set (SimMemory.mem self) (addr + k) (byte_of cnt k) w)
          w (seqZ 0 n).
Proof.
  intros Hn Hsz. unfold SimMemory.write_to. rewrite Hsz, py_range_bytes by done.
  rewrite foldl_fmap. apply foldl_ext_eq. intros w' k. unfold byte_of.
  rewrite Z.div_mul by lia. rewrite Hsz. do 2 f_equal; lia.
Qed.

Lemma write_to_spec self addr cnt n w :
  size cnt = 8 * Z.of_nat n ->
  let w' := SimMemory.write_to self addr cnt w in
  (live (SimMemory.mem self) w ->
   forall k, 0 <= k < Z.of_nat n ->
     mem_get (SimMemory.mem self) (addr + k) w' = Some (byte_of cnt k))
  /\ (forall h a, h ≠ SimMemory.mem self \/ ~ (addr <= a < addr + Z.of_nat n) ->
        mem_get h a w' = mem_get h a w)
  /\ (forall h, live h w' <-> live h w)
  /\ addr_mem_counter w' = addr_mem_counter w
  /\ var_mem_counter w' = var_mem_counter w
  /\ merge_mem_counter w' = merge_mem_counter w
  /\ solver_log w' = solver_log w.
Proof.
  intros Hsz. rewrite (write_to_bytes _ _ _ (Z.of_nat n)) by lia.
  clear Hsz. induction n as [|n IH].
  - simpl. repeat split; auto; try tauto. lia.
  - rewrite seqZ_S, foldl_snoc. simpl in IH.
    set (w1 := foldl _ w (seqZ 0 (Z.of_nat n))) in *.
    destruct IH as (Hw & Hfr & Hl & Hc).
    destruct (counters_mem_set (SimMemory.mem self) (addr + (0 + Z.of_nat n))
                (byte_of cnt (0 + Z.of_nat n)) w1) as (Ha & Hv & Hm & Hs).
    cbv zeta. split; [|split; [|split]].
    + intros Hlive k Hk. rewrite mem_get_set by (by apply Hl).
      case_decide as Hd.
      * destruct Hd as [_ Hd]. by replace k with (0 + Z.of_nat n) by lia.
      * apply Hw; [done|]. destruct (decide (k = Z.of_nat n)) as [->|]; [|lia].
        exfalso. apply Hd. split; [done|]. lia.
    + intros h a Hne. rewrite mem_get_set_ne; [apply Hfr|]; lia.
    + intros h. rewrite live_mem_set. apply Hl.
    + rewrite Ha, Hv, Hm, Hs. exact Hc.
Qed.

(** ** Concrete addresses *)

Lemma store_concrete self dst a cnt w :
  concrete_addr dst = Some a ->
  SimMemory.store self dst cnt w
  = (Ok [], SimMemory.write_to self a cnt (asked dst w)).
Proof.
  destruct dst as [z|v]; simpl.
  - by intros [= ->].
  - unfold SimMemory.store, mbind, M_bind, ask. simpl.
    destruct (SimValue.is_unique v); [|done]. by intros [= ->].
Qed.

Lemma load_concrete self dst a n w :
  concrete_addr dst = Some a ->
  SimMemory.load self dst n w
  = let '(r, w') := SimMemory.read_from self a n (asked dst w) in
    (Ok (r, []), w').
Proof.
  destruct dst as [z|v]; simpl.
  - intros [= ->]. unfold mbind, M_bind, lift.
    by destruct (SimMemory.read_from self a n w).
  - unfold mbind, M_bind, ask, lift. simpl.
    destruct (SimValue.is_unique v); [|done]. intros [= ->]. simpl.
    by destruct (SimMemory.read_from self _ n _).
Qed.

Lemma asked_mem_get dst h k w : mem_get h k (asked dst w) = mem_get h k w.
Proof. by destruct dst. Qed.

Lemma asked_live dst h w : live h (asked dst w) <-> live h w.
Proof. by destruct dst. Qed.

Lemma asked_var_counter dst w :
  var_mem_counter (asked dst w) = var_mem_counter w.
Proof. by destruct dst. Qed.

(** After [write_to], reading the same range finds the bytes of the
    value and creates nothing. *)
Lemma read_after_write self a cnt n dst w :
  live (SimMemory.mem self) w ->
  size cnt = 8 * Z.of_nat n ->
  let w1 := asked dst (SimMemory.write_to self a cnt w) in
  SimMemory.read_bytes self a (seqZ 0 (Z.of_nat n)) w1
  = (byte_of cnt <$> seqZ 0 (Z.of_nat n), w1).
Proof.
  intros Hl Hsz w1. apply read_bytes_present.
  apply Forall2_fmap_r, Forall_Forall2_diag, Forall_seqZ.
  intros k Hk. unfold w1. rewrite asked_mem_get.
  apply (write_to_spec self a cnt n w Hsz); [done|lia].
Qed.

Lemma size_concat_bytes cnt (l : list Z) :
  size (Concat (byte_of cnt <$> l)) = 8 * Z.of_nat (length l).
Proof.
  induction l as [|k l IH]; [done|].
  rewrite fmap_cons, size_concat_cons, IH. simpl. lia.
Qed.

(** C7. Round trip: a store of a well-formed value [X] of [n] bytes at a
    concrete address (a plain integer or a unique value object), followed
    by a load of [n] bytes at the same address, returns no constraint
    from either call and a term of the width of [X] that has the value of
    [X] in every model; no new symbol is created on the way. *)
Theorem store_load_round_trip self dst a X n w :
  live (SimMemory.mem self) w ->
  concrete_addr dst = Some a ->
  wf X = true ->
  size X = 8 * n ->
  exists w1 r w2,
    SimMemory.store self dst X w = (Ok [], w1)
    /\ SimMemory.load self dst n w1 = (Ok (r, []), w2)
    /\ size r = size X
    /\ (forall rho, eval rho r = eval rho X)
    /\ var_mem_counter w2 = var_mem_counter w.
Proof.
  intros Hl Hdst Hwf Hsz.
  assert (Hpos : 0 < size X) by (apply (eval_range (fun _ _ => 0)); done).
  destruct (Z_of_nat_complete n) as [m ->]; [lia|].
  pose proof (read_after_write self a X m dst (asked dst w)) as Hr.
  rewrite asked_live in Hr. specialize (Hr Hl Hsz). cbv zeta in Hr.
  destruct (write_to_spec self a X m (asked dst w) Hsz)
    as (_ & _ & _ & _ & Hv & _).
  eexists _, _, _. split; [by apply store_concrete|].
  rewrite (load_concrete _ _ a) by done.
  unfold SimMemory.read_from. rewrite py_range_unit, Hr.
  split; [reflexivity|].
  destruct m as [|[|m]].
  - lia.
  - simpl. split; [lia|]. split; [|by rewrite !asked_var_counter, Hv, asked_var_counter].
    intros rho. destruct (eval_range rho X Hwf) as [_ Hrange].
    rewrite Hsz in *. change (8 * Z.of_nat 1) with 8 in *.
    change (Z.of_nat 0 + 0) with 0. simpl.
    rewrite Z.div_1_r. by apply Z.mod_small.
  - assert (Hcat : forall l : list bv, (2 <= length l)%nat ->
              match l with [b] => b | _ => Concat l end = Concat l).
    { intros [|? [|? ?]]; simpl; intros; try lia; done. }
    rewrite Hcat by (rewrite length_fmap, length_seqZ; lia).
    split; [by rewrite size_concat_bytes, length_seqZ, Hsz, Z2Nat.id by lia|].
    split; [|by rewrite !asked_var_counter, Hv, asked_var_counter].
    intros rho. apply eval_concat_bytes; [done|].
    by apply eval_range.
Qed.

Lemma store_load_round_trip_witness :
  exists w1 r w2,
    SimMemory.store demo_view.1 (PyInt 4096) (BitVecVal 4660 16) demo_view.2
    = (Ok [], w1)
    /\ SimMemory.load demo_view.1 (PyInt 4096) 2 w1 = (Ok (r, []), w2)
    /\ size r = 16
    /\ (forall rho, eval rho r = 4660).
Proof.
  destruct (store_load_round_trip demo_view.1 (PyInt 4096) 4096
              (BitVecVal 4660 16) 2 demo_view.2)
    as (w1 & r & w2 & H1 & H2 & H3 & H4 & _).
  - vm_compute. eauto.
  - reflexivity.
  - reflexivity.
  - reflexivity.
  - exists w1, r, w2. repeat split; [exact H1 | exact H2 | exact H3 |].
    intros rho. rewrite H4. reflexivity.
Defined.

(** After a store of [n] bytes at [a], the entry at [a + k] is the
    [k]-th byte of the value, most significant first. *)
Lemma store_bytes self dst a X n w :
  live (SimMemory.mem self) w ->
  concrete_addr dst = Some a ->
  wf X = true ->
  size X = 8 * n ->
  exists w1,
    SimMemory.store self dst X w = (Ok [], w1)
    /\ forall k, 0 <= k < n ->
         SimMemory.load self (PyInt (a + k)) 1 w1 = (Ok (byte_of X k, []), w1)
         /\ forall rho,
              eval rho (byte_of X k) = (eval rho X / 2 ^ (8 * (n - 1 - k))) mod 256.
Proof.
  intros Hl Hdst Hwf Hsz.
  assert (Hpos : 0 < size X) by (apply (eval_range (fun _ _ => 0)); done).
  destruct (Z_of_nat_complete n) as [m ->]; [lia|].
  eexists. split; [by apply store_concrete|].
  intros k Hk. split.
  - rewrite load_one_byte, (read_byte_present _ _ _ (byte_of X k)); [done|].
    apply (write_to_spec self a X m (asked dst w) Hsz); [|done].
    by apply asked_live.
  - intros rho. rewrite eval_byte_of, Hsz. do 3 f_equal. lia.
Qed.

(** C8. Big-endian storage: after a store of a well-formed value [X] of
    [n] bytes at a concrete address [a], a one-byte load at [a + k]
    (for [k] from [0] to [n - 1]) returns, with no constraint, a term
    whose value is byte [n - 1 - k] of [X] counted from the least
    significant one; so [a] holds the most significant byte, the value of
    [X] divided by [2 ^ (8 * (n - 1))], and [a + n - 1] the least
    significant one, the value modulo [256]. In particular with
    [X = 0x1234] the load at [a] has value [0x12] and the load at [a + 1]
    has value [0x34]. *)
Theorem big_endian_layout self a w :
  live (SimMemory.mem self) w ->
  (forall dst X n,
     concrete_addr dst = Some a -> wf X = true -> size X = 8 * n ->
     exists w1,
       SimMemory.store self dst X w = (Ok [], w1)
       /\ (forall k, 0 <= k < n ->
             exists b,
               SimMemory.load self (PyInt (a + k)) 1 w1 = (Ok (b, []), w1)
               /\ forall rho,
                    eval rho b = (eval rho X / 2 ^ (8 * (n - 1 - k))) mod 256)
       /\ (exists b,
             SimMemory.load self (PyInt a) 1 w1 = (Ok (b, []), w1)
             /\ forall rho, eval rho b = eval rho X / 2 ^ (8 * (n - 1)))
       /\ (exists b,
             SimMemory.load self (PyInt (a + n - 1)) 1 w1 = (Ok (b, []), w1)
             /\ forall rho, eval rho b = eval rho X mod 256))
  /\ (exists w1 hi lo,
        SimMemory.store self (PyInt a) (BitVecVal 0x1234 16) w = (Ok [], w1)
        /\ SimMemory.load self (PyInt a) 1 w1 = (Ok (hi, []), w1)
        /\ SimMemory.load self (PyInt (a + 1)) 1 w1 = (Ok (lo, []), w1)
        /\ (forall rho, eval rho hi = 0x12)
        /\ (forall rho, eval rho lo = 0x34)).
Proof.
  intros Hl. split.
  - intros dst X n Hdst Hwf Hsz.
    assert (Hpos : 0 < size X) by (apply (eval_range (fun _ _ => 0)); done).
    destruct (store_bytes self dst a X n w Hl Hdst Hwf Hsz) as (w1 & Hst & Hld).
    exists w1. split; [done|]. split; [|split].
    + intros k Hk. exists (byte_of X k). by apply Hld.
    + exists (byte_of X 0). destruct (Hld 0) as [H0 He]; [lia|].
      rewrite Z.add_0_r in H0. split; [done|].
      intros rho. rewrite He, Z.sub_0_r.
      destruct (eval_range rho X Hwf) as [_ Hr]. rewrite Hsz in Hr.
      apply Z.mod_small. split.
      * apply Z.div_pos; [lia|]. apply Z.pow_pos_nonneg; lia.
      * assert (0 < 2 ^ (8 * (n - 1))) by (apply Z.pow_pos_nonneg; lia).
        apply Z.div_lt_upper_bound; [done|].
        replace 256 with (2 ^ 8) by done. rewrite <- Z.pow_add_r by lia.
        replace (8 * (n - 1) + 8) with (8 * n) by lia. apply Hr.
    + exists (byte_of X (n - 1)). destruct (Hld (n - 1)) as [H0 He]; [lia|].
      replace (a + (n - 1)) with (a + n - 1) in H0 by lia. split; [done|].
      intros rho. rewrite He. replace (8 * (n - 1 - (n - 1))) with 0 by lia.
      by rewrite Z.div_1_r.
  - destruct (store_bytes self (PyInt a) a (BitVecVal 0x1234 16) 2 w)
      as (w1 & Hst & Hld); [done..|].
    exists w1, (byte_of (BitVecVal 0x1234 16) 0), (byte_of (BitVecVal 0x1234 16) 1).
    destruct (Hld 0) as [H0 _]; [lia|]. destruct (Hld 1) as [H1 _]; [lia|].
    rewrite Z.add_0_r in H0. done.
Qed.

Lemma big_endian_layout_witness :
  exists w1 hi lo,
    SimMemory.store demo_view.1 (PyInt 4096) (BitVecVal 0x1234 16) demo_view.2
    = (Ok [], w1)
    /\ SimMemory.load demo_view.1 (PyInt 4096) 1 w1 = (Ok (hi, []), w1)
    /\ SimMemory.load demo_view.1 (PyInt (4096 + 1)) 1 w1 = (Ok (lo, []), w1)
    /\ (forall rho, eval rho hi = 0x12)
    /\ (forall rho, eval rho lo = 0x34).
Proof.
  apply (big_endian_layout demo_view.1 4096 demo_view.2).
  vm_compute. eauto.
Defined.

(** ** Address concretization *)

(** The loop over the strategies returns the first result, and fails
    when there is none. *)
Lemma try_strategies_first self v strategies w :
  (SimMemory.try_strategies self v strategies w).1
  = match first_yield self v strategies with
    | Some r => Ok r
    | None => Raise (SimMemoryError no_strategy_msg)
    end.
Proof.
  revert w. induction strategies as [|s rest IH]; intros w; [done|].
  cbn [SimMemory.try_strategies first_yield]. unfold strategy_yield.
  destruct (decide (s = "symbolic")) as [->|Hsym].
  - unfold mbind, M_bind, ask.
    destruct (decide (SimValue.max v - SimValue.min v < SimMemory.limit self));
      [done|].
    rewrite decide_False by done. apply IH.
  - destruct (decide (s = "any")); [done|]. apply IH.
Qed.

Lemma first_yield_none self v strategies :
  first_yield self v strategies = None
  <-> Forall (fun s => strategy_yield self v s = None) strategies.
Proof.
  induction strategies as [|s rest IH]; simpl.
  - split; [constructor|done].
  - rewrite Forall_cons. destruct (strategy_yield self v s); [|tauto].
    split; [done|]. by intros [? _].
Qed.

(** For a satisfiable value object that is not unique, [concretize_addr]
    is the loop over the strategies. *)
Lemma concretize_addr_ambiguous self v strategies w :
  (SimValue.is_symbolic v = true -> SimValue.satisfiable v = true) ->
  SimValue.is_unique v = false ->
  (SimMemory.concretize_addr self (PyValue v) strategies w).1
  = match first_yield self v strategies with
    | Some r => Ok r
    | None => Raise (SimMemoryError no_strategy_msg)
    end.
Proof.
  intros Hsat Hu. unfold SimMemory.concretize_addr, mbind, M_bind, ask, mret, M_ret.
  destruct (SimValue.is_symbolic v).
  - rewrite Hsat by done. simpl. rewrite Hu. apply try_strategies_first.
  - simpl. rewrite Hu. apply try_strategies_first.
Qed.

(** C6. For a symbolic, satisfiable value object that is not unique, the
    read order [["symbolic"; "any"]] gives [any_n(limit)] when
    [max() - min()] is below the limit of the view and [[any()]]
    otherwise; and for any list of strategies, [concretize_addr] returns
    the result of the first strategy that yields one, and raises the
    error "Unable to concretize address with the provided strategies."
    exactly when no strategy of the list yields a result. *)
Theorem read_strategy_order self v w :
  SimValue.is_symbolic v = true ->
  SimValue.satisfiable v = true ->
  SimValue.is_unique v = false ->
  (SimValue.max v - SimValue.min v < SimMemory.limit self ->
   (SimMemory.concretize_read_addr self (PyValue v) w).1
   = Ok (SimValue.any_n v (SimMemory.limit self)))
  /\ (~ SimValue.max v - SimValue.min v < SimMemory.limit self ->
      (SimMemory.concretize_read_addr self (PyValue v) w).1
      = Ok [SimValue.any v])
  /\ (forall strategies,
        (forall r, first_yield self v strategies = Some r ->
           (SimMemory.concretize_addr self (PyValue v) strategies w).1 = Ok r)
        /\ ((exists msg,
               (SimMemory.concretize_addr self (PyValue v) strategies w).1
               = Raise (SimMemoryError msg))
            <-> Forall (fun s => strategy_yield self v s = None) strategies)
        /\ (Forall (fun s => strategy_yield self v s = None) strategies ->
            (SimMemory.concretize_addr self (PyValue v) strategies w).1
            = Raise (SimMemoryError no_strategy_msg))).
Proof.
  intros Hsym Hsat Hu.
  assert (H : forall strategies,
    (SimMemory.concretize_addr self (PyValue v) strategies w).1
    = match first_yield self v strategies with
      | Some r => Ok r
      | None => Raise (SimMemoryError no_strategy_msg)
      end) by (intros; by apply concretize_addr_ambiguous).
  unfold SimMemory.concretize_read_addr. split; [|split].
  - intros Hlt. rewrite H. simpl. unfold strategy_yield. simpl.
    by rewrite decide_True.
  - intros Hge. rewrite H. simpl. unfold strategy_yield. simpl.
    by rewrite decide_False.
  - intros strategies. rewrite H, <- first_yield_none.
    destruct (first_yield self v strategies) as [r|].
    + split; [by intros ? [= ->]|]. split; [|done].
      split; [by intros [? ?]|done].
    + split; [done|]. split; [|done]. split; [done|]. by exists no_strategy_msg.
Qed.

Lemma read_strategy_order_witness :
  (SimMemory.concretize_read_addr demo_view.1 (PyValue two_way) demo_view.2).1
  = Ok [4096; 4100].
Proof.
  apply (read_strategy_order demo_view.1 two_way demo_view.2);
    reflexivity.
Defined.

Lemma concretize_addr_unique self v strategies w :
  SimValue.is_unique v = true ->
  (SimValue.is_symbolic v = true -> SimValue.satisfiable v = true) ->
  SimMemory.concretize_addr self (PyValue v) strategies w
  = (Ok [SimValue.any v], log_queries v (fast_path_queries v) w).
Proof.
  intros Hu Hsat.
  unfold SimMemory.concretize_addr, fast_path_queries, log_queries,
    mbind, M_bind, ask, mret, M_ret.
  destruct (SimValue.is_symbolic v).
  - rewrite Hsat by done. simpl. by rewrite Hu.
  - simpl. by rewrite Hu.
Qed.

(** C5, as stated, fails for a plain integer: [concretize_addr] calls
    [v.is_symbolic()] first, which an [int] does not have. *)
Lemma concretize_plain_integer_raises :
  SimMemory.concretize_addr demo_view.1 (PyInt 4096) ["any"] demo_view.2
  = (Raise (AttributeError "'int' object has no attribute 'is_symbolic'"),
     demo_view.2)
  /\ (SimMemory.concretize_addr demo_view.1 (PyInt 4096) ["any"] demo_view.2).1
     ≠ Ok [4096].
Proof. split; [reflexivity | discriminate]. Qed.

(** C5, amended. For every list of strategies and every value object
    that is unique (and, when symbolic, satisfiable), [concretize_addr]
    returns the one value [any()], whatever the strategies are; it calls
    [is_symbolic], [satisfiable] when symbolic, [is_unique] and [any], and
    nothing else: no [min], [max] or [any_n], and the world is otherwise
    as before. A plain integer does not go through [concretize_addr]:
    [load] and [store] use it as the address directly, [__contains__]
    looks it up directly, and none of them asks the solver anything. *)
Theorem concretize_fast_path self v w :
  SimValue.is_unique v = true ->
  (SimValue.is_symbolic v = true -> SimValue.satisfiable v = true) ->
  (forall strategies,
     SimMemory.concretize_addr self (PyValue v) strategies w
     = (Ok [SimValue.any v], log_queries v (fast_path_queries v) w))
  /\ (forall q, q ∈ fast_path_queries v ->
        q = QIsSymbolic \/ q = QSatisfiable \/ q = QIsUnique \/ q = QAny)
  /\ (forall z n,
        SimMemory.load self (PyInt z) n w
        = (Ok ((SimMemory.read_from self z n w).1, []),
           (SimMemory.read_from self z n w).2)
        /\ solver_log (SimMemory.load self (PyInt z) n w).2 = solver_log w)
  /\ (forall z cnt,
        SimMemory.store self (PyInt z) cnt w
        = (Ok [], SimMemory.write_to self z cnt w)
        /\ solver_log (SimMemory.store self (PyInt z) cnt w).2 = solver_log w)
  /\ (forall z,
        SimMemory.contains self (PyInt z) w
        = (Ok (bool_decide (is_Some (mem_get (SimMemory.mem self) z w))), w)).
Proof.
  intros Hu Hsat. split; [|split; [|split; [|split]]].
  - intros strategies. by apply concretize_addr_unique.
  - unfold fast_path_queries. intros q Hq.
    destruct (SimValue.is_symbolic v); simpl in Hq;
      repeat (apply elem_of_cons in Hq as [->|Hq]; [tauto|]);
      by apply elem_of_nil in Hq.
  - intros z n. rewrite (load_concrete self (PyInt z) z) by done. simpl.
    pose proof (read_bytes_spec self z (py_range 0 n 1) w) as Hs.
    unfold SimMemory.read_from.
    destruct (SimMemory.read_bytes self z (py_range 0 n 1) w) as [buff w'].
    simpl. split; [done|]. apply Hs.
  - intros z cnt. rewrite (store_concrete self (PyInt z) z) by done. simpl.
    split; [done|]. unfold SimMemory.write_to.
    generalize (py_range 0 (size cnt) 8). intros l. revert w.
    induction l as [|off l IH]; intros w; [done|]. simpl. rewrite IH.
    apply counters_mem_set.
  - intros z. reflexivity.
Qed.

Lemma concretize_fast_path_witness :
  SimMemory.concretize_addr demo_view.1 (PyValue unique_value) [] demo_view.2
  = (Ok [4096],
     log_queries unique_value [QIsSymbolic; QIsUnique; QAny] demo_view.2).
Proof.
  apply (concretize_fast_path demo_view.1 unique_value demo_view.2).
  - reflexivity.
  - discriminate.
Defined.

(** ** Ambiguous reads *)

Lemma same_memory_refl w : same_memory w w.
Proof. by repeat split. Qed.

Lemma same_memory_trans w1 w2 w3 :
  same_memory w1 w2 -> same_memory w2 w3 -> same_memory w1 w3.
Proof.
  unfold same_memory. intros (?&?&?&?&?) (?&?&?&?&?).
  repeat split; congruence.
Qed.

Lemma same_memory_log v q w : same_memory w (log_query v q w).
Proof. by repeat split. Qed.

Lemma try_strategies_memory self v strategies w :
  same_memory w (SimMemory.try_strategies self v strategies w).2.
Proof.
  revert w. induction strategies as [|s rest IH]; intros w.
  - apply same_memory_refl.
  - cbn [SimMemory.try_strategies]. unfold mbind, M_bind, ask, mret, M_ret.
    repeat case_decide; simpl; try apply IH;
      repeat (eapply same_memory_trans; [|apply same_memory_log]);
      try apply same_memory_refl.
    all: eapply same_memory_trans; [|apply IH];
      repeat (eapply same_memory_trans; [|apply same_memory_log]);
      apply same_memory_refl.
Qed.

Lemma concretize_addr_memory self dst strategies w :
  same_memory w (SimMemory.concretize_addr self dst strategies w).2.
Proof.
  destruct dst as [z|v]; [apply same_memory_refl|].
  unfold SimMemory.concretize_addr, mbind, M_bind, ask, mret, M_ret, raise.
  destruct (SimValue.is_symbolic v), (SimValue.satisfiable v),
    (SimValue.is_unique v); simpl;
    try (eapply same_memory_trans; [|apply try_strategies_memory]);
    repeat (eapply same_memory_trans; [|apply same_memory_log]);
    apply same_memory_refl.
Qed.

Lemma try_strategies_result self v strategies w w0 :
  (SimMemory.try_strategies self v strategies w).1
  = (SimMemory.try_strategies self v strategies w0).1.
Proof. by rewrite !try_strategies_first. Qed.

(** The answer of [concretize_addr] does not depend on the world. *)
Lemma concretize_addr_result self dst strategies w w0 :
  (SimMemory.concretize_addr self dst strategies w).1
  = (SimMemory.concretize_addr self dst strategies w0).1.
Proof.
  destruct dst as [z|v]; [done|].
  unfold SimMemory.concretize_addr, mbind, M_bind, ask, mret, M_ret, raise.
  destruct (SimValue.is_symbolic v), (SimValue.satisfiable v),
    (SimValue.is_unique v); simpl; try done; apply try_strategies_result.
Qed.

Lemma same_memory_live w w' h : same_memory w w' -> live h w' <-> live h w.
Proof. intros [Hh _]. unfold live. by rewrite Hh. Qed.

Lemma read_from_spec self a n w :
  let '(r, w') := SimMemory.read_from self a n w in
  extends w w' /\ same_counters w w'.
Proof.
  unfold SimMemory.read_from.
  pose proof (read_bytes_spec self a (py_range 0 n 1) w) as Hs.
  destruct (SimMemory.read_bytes self a (py_range 0 n 1) w) as [buff w'].
  tauto.
Qed.

(** A read that changes nothing returns what the store holds. *)
Lemma read_from_value_at self c n w r :
  live (SimMemory.mem self) w ->
  SimMemory.read_from self c n w = (r, w) ->
  value_at self c n w = Some r.
Proof.
  unfold SimMemory.read_from, value_at. intros Hl Hr.
  pose proof (read_bytes_spec self c (py_range 0 n 1) w) as Hs.
  destruct (SimMemory.read_bytes self c (py_range 0 n 1) w) as [buff w'].
  destruct Hs as (_ & _ & _ & Hall & _).
  injection Hr as <- ->. rewrite py_range_unit in Hall.
  apply Hall, mapM_Some in Hl. by rewrite Hl.
Qed.

Lemma same_memory_extends w w' : same_memory w w' -> extends w w'.
Proof.
  intros (Hh & _). unfold extends, mem_get, live. rewrite Hh. by split.
Qed.

(** The list comprehension of [load]: one read per candidate, in order;
    every value read is still what the memory holds at the end. *)
Lemma load_candidates self m e n addrs w :
  live (SimMemory.mem self) w ->
  exists vals w',
    for_list (fun addr =>
                r ← lift (SimMemory.read_from self addr n);
                mret (And [Eq m (OExpr r); Eq e (OInt addr)])) addrs w
    = (Ok (zip_with (candidate_constraint m e) addrs vals), w')
    /\ length vals = length addrs
    /\ Forall2 (fun c val => SimMemory.read_from self c n w' = (val, w'))
               addrs vals
    /\ extends w w' /\ same_counters w w'.
Proof.
  revert w. induction addrs as [|c addrs IH]; intros w Hl.
  - exists [], w. repeat split; auto using extends_refl, same_counters_refl;
      apply extends_refl.
  - cbn [for_list]. unfold mbind, M_bind, lift, mret, M_ret.
    pose proof (read_from_spec self c n w) as Hs.
    destruct (SimMemory.read_from self c n w) as [val w1] eqn:Hr.
    destruct Hs as [He1 Hc1].
    destruct (IH w1) as (vals & w' & Hfor & Hlen & Hall & He & Hc).
    { by apply He1. }
    unfold mbind, M_bind, lift, mret, M_ret in Hfor. rewrite Hfor.
    exists (val :: vals), w'. split; [done|]. split; [simpl; lia|].
    split; [|split].
    + constructor; [|done]. by apply (read_from_stable self c n w val w1 w').
    + by apply (extends_trans _ w1).
    + by apply (same_counters_trans _ w1).
Qed.

(** C3. A load through a value object that is not unique, for which the
    read concretization gives the candidates [addrs] (the view being
    live): with exactly one candidate [c], the result is the bytes read
    at [c] and the single constraint [address_expr == c]; with more than
    one, the result is the symbol [m] named after the counter of address
    symbols (so different from every address symbol named at another
    value of the counter), of width [size * 8], and exactly one
    constraint, the [Or]
    over the candidates [c], in order, of
    [And(m == value read at c, address_expr == c)]; the counter moves on
    by one. In both cases the value read at [c] is what the store holds
    at the [size] addresses from [c] on in the resulting memory, the
    entry itself for one byte and the [Concat] of the entries otherwise,
    which is also what a read of [size] bytes at [c] returns there; and
    the resulting memory has every entry the memory had before the
    load. *)
Theorem load_ambiguous self v n w addrs :
  live (SimMemory.mem self) w ->
  SimValue.is_unique v = false ->
  (SimMemory.concretize_read_addr self (PyValue v) w).1 = Ok addrs ->
  (forall c, addrs = [c] ->
     exists r w',
       SimMemory.load self (PyValue v) n w
       = (Ok (r, [Eq (SimValue.expr v) (OInt c)]), w')
       /\ SimMemory.read_from self c n w' = (r, w')
       /\ value_at self c n w' = Some r
       /\ extends w w')
  /\ ((1 < length addrs)%nat ->
      let m := BitVec (addr_name (SimMemory.id self) (addr_mem_counter w))
                      (n * 8) in
      exists vals w',
        SimMemory.load self (PyValue v) n w
        = (Ok (m, [Or (zip_with (candidate_constraint m (SimValue.expr v))
                                addrs vals)]), w')
        /\ size m = n * 8
        /\ length vals = length addrs
        /\ Forall2 (fun c val => SimMemory.read_from self c n w' = (val, w'))
                   addrs vals
        /\ addr_mem_counter w' = (addr_mem_counter w + 1)%N
        /\ (forall id' k, k ≠ addr_mem_counter w ->
              addr_name id' k
              ≠ addr_name (SimMemory.id self) (addr_mem_counter w))
        /\ Forall2 (fun c val => value_at self c n w' = Some val) addrs vals
        /\ extends w w').
Proof.
  intros Hl Hu Hconc.
  set (wq := log_query v QIsUnique w).
  pose proof (concretize_addr_memory self (PyValue v) ["symbolic"; "any"] wq)
    as Hmem.
  pose proof (concretize_addr_result self (PyValue v) ["symbolic"; "any"] wq w)
    as Hres.
  unfold SimMemory.concretize_read_addr in Hconc. rewrite Hconc in Hres.
  assert (Hload : SimMemory.load self (PyValue v) n w
    = match SimMemory.concretize_addr self (PyValue v) ["symbolic"; "any"] wq
      with
      | (Ok addrs, w1) =>
          match addrs with
          | [a] =>
              (r ← lift (SimMemory.read_from self a n);
               mret (r, [Eq (SimValue.expr v) (OInt a)])) w1
          | _ =>
              (k ← lift next_addr_mem;
               let m := BitVec (addr_name (SimMemory.id self) k) (n * 8) in
               cs ← for_list (fun addr =>
                                r ← lift (SimMemory.read_from self addr n);
                                mret (And [Eq m (OExpr r);
                                           Eq (SimValue.expr v) (OInt addr)]))
                             addrs;
               mret (m, [Or cs])) w1
          end
      | (Raise e, w1) => (Raise e, w1)
      end).
  { unfold SimMemory.load, SimMemory.concretize_read_addr.
    unfold mbind at 1. unfold M_bind at 1. unfold ask at 1. rewrite Hu.
    unfold mbind at 1. unfold M_bind at 1. fold wq.
    destruct (SimMemory.concretize_addr self (PyValue v) _ wq) as [[l|e] w1];
      [|done]. by destruct l as [|? [|? ?]]. }
  destruct (SimMemory.concretize_addr self (PyValue v) _ wq) as [res w1].
  simpl in Hres, Hmem. subst res.
  assert (Hl1 : live (SimMemory.mem self) w1).
  { apply (same_memory_live wq w1); [done|]. done. }
  assert (Hw1 : extends w w1).
  { apply same_memory_extends. eapply same_memory_trans; [|exact Hmem].
    apply same_memory_log. }
  split.
  - intros c ->. rewrite Hload. unfold mbind, M_bind, lift, mret, M_ret.
    pose proof (read_from_spec self c n w1) as Hs.
    destruct (SimMemory.read_from self c n w1) as [r w'] eqn:Hr.
    destruct Hs as [He _].
    assert (Hst : SimMemory.read_from self c n w' = (r, w'))
      by (apply (read_from_stable self c n w1 r w' w');
          auto using extends_refl).
    exists r, w'. split; [done|]. split; [done|].
    split; [|by apply (extends_trans _ w1)].
    apply read_from_value_at; [by apply He|done].
  - intros Hlen m. rewrite Hload.
    destruct addrs as [|c1 [|c2 rest]]; simpl in Hlen; try lia.
    set (addrs := c1 :: c2 :: rest) in *.
    unfold mbind at 1. unfold M_bind at 1.
    unfold lift at 1. unfold next_addr_mem at 1.
    set (w2 := mkWorld _ _ _ _ _ _).
    assert (Hk : addr_mem_counter w1 = addr_mem_counter w) by apply Hmem.
    rewrite Hk. fold m.
    destruct (load_candidates self m (SimValue.expr v) n addrs w2)
      as (vals & w' & Hfor & Hlv & Hall & He & Hc); [done|].
    exists vals, w'. unfold mbind at 1. unfold M_bind at 1. rewrite Hfor.
    assert (Hw2 : extends w1 w2) by (by split).
    split; [done|]. split; [done|]. split; [done|]. split; [done|].
    split; [destruct Hc as [Ha _]; rewrite Ha; unfold w2; simpl;
            by rewrite Hk|].
    split; [intros id' k Hne; by apply addr_name_fresh|].
    split; [|by apply (extends_trans _ w1), (extends_trans _ w2)].
    eapply Forall2_impl; [exact Hall|]. intros c val Hr.
    apply read_from_value_at; [|done]. by apply He.
Qed.

(** A two-candidate read: [sel] may be [4096] or [4100]. *)
Lemma load_ambiguous_witness :
  exists vals w',
    SimMemory.load demo_view.1 (PyValue two_way) 1 demo_view.2
    = (Ok (BitVec "mem_addr_0" 8,
           [Or (zip_with (candidate_constraint (BitVec "mem_addr_0" 8)
                                               (BitVec "sel" 64))
                         [4096; 4100] vals)]), w')
    /\ length vals = 2%nat
    /\ Forall2 (fun c val => value_at demo_view.1 c 1 w' = Some val)
               [4096; 4100] vals.
Proof.
  destruct (load_ambiguous demo_view.1 two_way 1 demo_view.2 [4096; 4100])
    as [_ H].
  - vm_compute. eauto.
  - reflexivity.
  - reflexivity.
  - destruct H as (vals & w' & H1 & _ & H2 & _ & _ & _ & H3 & _);
      [simpl; lia|].
    exists vals, w'. split; [exact H1|]. split; [exact H2 | exact H3].
Defined.

(** ** Branching *)

Lemma read_byte_agree self a w w' :
  agree (SimMemory.mem self) w w' ->
  (SimMemory.read_byte self a w).1 = (SimMemory.read_byte self a w').1
  /\ agree (SimMemory.mem self) (SimMemory.read_byte self a w).2
           (SimMemory.read_byte self a w').2.
Proof.
  intros (Hget & Hv & Hl). unfold SimMemory.read_byte.
  rewrite <- Hget. destruct (mem_get (SimMemory.mem self) a w); simpl.
  - split; [done|]. by split.
  - rewrite Hv. split; [done|].
    set (b := BitVec _ 8).
    split; [|split].
    + intros k. destruct (decide (live (SimMemory.mem self) w)) as [Hlive|Hdead].
      * rewrite !mem_get_set by (done || by apply Hl). simpl.
        case_decide; [done|]. apply Hget.
      * unfold mem_set. simpl. unfold live in Hl, Hdead.
        destruct (heap w !! SimMemory.mem self) eqn:E1; [exfalso; eauto|].
        destruct (heap w' !! SimMemory.mem self) eqn:E2;
          [exfalso; apply Hdead, Hl; eauto|].
        apply Hget.
    + rewrite !(proj1 (proj2 (counters_mem_set _ _ _ _))). done.
    + rewrite !live_mem_set. exact Hl.
Qed.

Lemma read_bytes_agree self a offs w w' :
  agree (SimMemory.mem self) w w' ->
  (SimMemory.read_bytes self a offs w).1 = (SimMemory.read_bytes self a offs w').1
  /\ agree (SimMemory.mem self) (SimMemory.read_bytes self a offs w).2
           (SimMemory.read_bytes self a offs w').2.
Proof.
  revert w w'. induction offs as [|i offs IH]; intros w w' Hag; [done|].
  cbn [SimMemory.read_bytes].
  destruct (read_byte_agree self (a + i) w w' Hag) as [Hb Hag1].
  destruct (SimMemory.read_byte self (a + i) w) as [b w1].
  destruct (SimMemory.read_byte self (a + i) w') as [b' w1'].
  simpl in Hb, Hag1. subst b'.
  destruct (IH w1 w1' Hag1) as [Hbuff Hag2].
  destruct (SimMemory.read_bytes self a offs w1) as [buff w2].
  destruct (SimMemory.read_bytes self a offs w1') as [buff' w2'].
  simpl in *. by subst.
Qed.

(** The result of a load at a plain integer address depends on the world
    only through the entries of the view's own store. *)
Lemma load_agree self a n w w' :
  agree (SimMemory.mem self) w w' ->
  (SimMemory.load self (PyInt a) n w).1 = (SimMemory.load self (PyInt a) n w').1.
Proof.
  intros Hag. rewrite !(load_concrete self (PyInt a) a) by done. simpl.
  unfold SimMemory.read_from.
  destruct (read_bytes_agree self a (py_range 0 n 1) w w' Hag) as [Hb _].
  destruct (SimMemory.read_bytes self a _ w) as [buff w1].
  destruct (SimMemory.read_bytes self a _ w') as [buff' w1'].
  simpl in *. by subst.
Qed.

(** [write_to] leaves the other stores, the counters and the log alone. *)
Lemma write_to_frame self a cnt w :
  let w' := SimMemory.write_to self a cnt w in
  (forall h k, h ≠ SimMemory.mem self -> mem_get h k w' = mem_get h k w)
  /\ (forall h, live h w' <-> live h w)
  /\ addr_mem_counter w' = addr_mem_counter w
  /\ var_mem_counter w' = var_mem_counter w
  /\ merge_mem_counter w' = merge_mem_counter w
  /\ solver_log w' = solver_log w.
Proof.
  unfold SimMemory.write_to. generalize (py_range 0 (size cnt) 8). intros l.
  revert w. induction l as [|off l IH]; intros w; [done|].
  simpl. destruct (IH (mem_set (SimMemory.mem self) (a + off / 8)
    (Extract (size cnt - off - 1) (size cnt - off - 8) cnt) w))
    as (Hfr & Hl & Hc).
  cbv zeta. split; [|split].
  - intros h k Hne. rewrite Hfr by done. apply mem_get_set_ne. auto.
  - intros h. rewrite Hl. apply live_mem_set.
  - rewrite !(proj1 Hc), !(proj1 (proj2 Hc)), !(proj1 (proj2 (proj2 Hc))),
      !(proj2 (proj2 (proj2 Hc))).
    apply counters_mem_set.
Qed.

(** [store] through a value object that is not unique. *)
Lemma store_ambiguous self v cnt w :
  SimValue.is_unique v = false ->
  SimMemory.store self (PyValue v) cnt w
  = match SimMemory.concretize_write_addr self (PyValue v)
            (log_query v QIsUnique w) with
    | (Ok (a :: _), w1) =>
        (Ok [Eq (SimValue.expr v) (OInt a)], SimMemory.write_to self a cnt w1)
    | (Ok [], w1) => (Raise (IndexError "list index out of range"), w1)
    | (Raise e, w1) => (Raise e, w1)
    end.
Proof.
  intros Hu. unfold SimMemory.store, mbind, M_bind, ask, lift, mret, M_ret.
  rewrite Hu.
  destruct (SimMemory.concretize_write_addr self (PyValue v) _) as [[l|e] w1];
    [|done]. by destruct l.
Qed.

(** [store], whatever the address and whether or not it raises, writes
    only through the store of its own view. *)
Lemma store_world self dst cnt w :
  exists w0, same_memory w w0
    /\ ((SimMemory.store self dst cnt w).2 = w0
        \/ exists a, (SimMemory.store self dst cnt w).2
                     = SimMemory.write_to self a cnt w0).
Proof.
  destruct (concrete_addr dst) as [a|] eqn:Hc.
  - rewrite (store_concrete self dst a) by done. exists (asked dst w).
    split; [|right; by exists a].
    destruct dst; [apply same_memory_refl|].
    eapply same_memory_trans; apply same_memory_log.
  - destruct dst as [z|v]; [done|]. simpl in Hc.
    destruct (SimValue.is_unique v) eqn:Hu; [done|].
    rewrite store_ambiguous by done.
    pose proof (concretize_addr_memory self (PyValue v)
                  ["free"; "writeable"; "any"] (log_query v QIsUnique w)) as Hm.
    unfold SimMemory.concretize_write_addr.
    destruct (SimMemory.concretize_addr self (PyValue v) _ _) as [[l|e] w1].
    + exists w1. split; [eapply same_memory_trans; [apply same_memory_log|done]|].
      destruct l as [|a l]; [by left|]. right. by exists a.
    + exists w1. split; [eapply same_memory_trans; [apply same_memory_log|done]|].
      by left.
Qed.

Lemma same_memory_mem_get w w' h k :
  same_memory w w' -> mem_get h k w' = mem_get h k w.
Proof. intros [Hh _]. unfold mem_get. by rewrite Hh. Qed.

Lemma store_frame self dst cnt w h :
  h ≠ SimMemory.mem self ->
  agree h w (SimMemory.store self dst cnt w).2.
Proof.
  intros Hne. destruct (store_world self dst cnt w) as (w0 & Hm & [->| [a ->]]).
  - split; [|split].
    + intros k. by rewrite (same_memory_mem_get w w0).
    + symmetry. apply Hm.
    + by rewrite (same_memory_live w w0).
  - destruct (write_to_frame self a cnt w0) as (Hfr & Hl & _ & Hv & _).
    split; [|split].
    + intros k. by rewrite Hfr, (same_memory_mem_get w w0).
    + rewrite Hv. symmetry. apply Hm.
    + by rewrite Hl, (same_memory_live w w0).
Qed.

Lemma getitem_branch d k :
  cooldict.getitem (cooldict.branch d) k = cooldict.getitem d k.
Proof. done. Qed.

(** [copy]: the new view has a store of its own, at a handle that was not
    in use, with the entries of the original; no entry of a store that
    was there changes. *)
Lemma copy_spec self w :
  live (SimMemory.mem self) w ->
  let v2 := (SimMemory.copy self w).1 in
  let w1 := (SimMemory.copy self w).2 in
  ~ live (SimMemory.mem v2) w
  /\ live (SimMemory.mem v2) w1
  /\ (forall h, live h w -> live h w1)
  /\ (forall h k, live h w -> mem_get h k w1 = mem_get h k w)
  /\ (forall k, mem_get (SimMemory.mem v2) k w1 = mem_get (SimMemory.mem self) k w)
  /\ var_mem_counter w1 = var_mem_counter w
  /\ SimMemory.bits v2 = SimMemory.bits self
  /\ SimMemory.id v2 = SimMemory.id self.
Proof.
  intros [d Hd].
  assert (Hb : mem_branch (SimMemory.mem self) w
    = alloc (cooldict.branch d)
        (set_heap <[SimMemory.mem self := cooldict.branch d]> w)).
  { unfold mem_branch. by rewrite Hd. }
  unfold SimMemory.copy. rewrite Hb. unfold alloc. simpl.
  set (m1 := <[SimMemory.mem self := cooldict.branch d]> (heap w)).
  set (h' := fresh (dom m1)).
  assert (Hfresh : h' ∉ dom m1) by apply is_fresh.
  assert (Hne : h' ≠ SimMemory.mem self).
  { intros Heq. apply Hfresh. rewrite Heq. unfold m1.
    rewrite dom_insert. set_solver. }
  assert (Hnew : heap w !! h' = None).
  { apply not_elem_of_dom. intros Hin. apply Hfresh. unfold m1.
    rewrite dom_insert. set_solver. }
  split; [|split; [|split; [|split; [|split]]]].
  - unfold live. rewrite Hnew. by intros [? ?].
  - unfold live. simpl. rewrite lookup_insert_eq. eauto.
  - intros h [d' Hd']. unfold live. simpl.
    rewrite lookup_insert_ne by congruence. unfold m1.
    destruct (decide (h = SimMemory.mem self)) as [->|Hh].
    + rewrite lookup_insert_eq. eauto.
    + rewrite lookup_insert_ne by done. eauto.
  - intros h k [d' Hd']. unfold mem_get. simpl.
    rewrite lookup_insert_ne by congruence. unfold m1.
    destruct (decide (h = SimMemory.mem self)) as [->|Hh].
    + rewrite lookup_insert_eq, Hd. done.
    + by rewrite lookup_insert_ne.
  - intros k. unfold mem_get. simpl. rewrite lookup_insert_eq, Hd. done.
  - done.
Qed.



(** ** Merging *)

Lemma materialized_refl w : materialized w w.
Proof. intros h k a Ha. by left. Qed.

Lemma materialized_trans w1 w2 w3 :
  materialized w1 w2 -> materialized w2 w3 -> materialized w1 w3.
Proof.
  intros H12 H23 h k a Ha. destruct (H23 h k a Ha) as [H2|?]; [|by right].
  by apply H12.
Qed.

Lemma read_byte_materialized self addr w :
  materialized w (SimMemory.read_byte self addr w).2.
Proof.
  unfold SimMemory.read_byte.
  destruct (mem_get (SimMemory.mem self) addr w) as [b|] eqn:Hget;
    [apply materialized_refl|].
  intros h k a. simpl.
  destruct (decide (SimMemory.mem self = h /\ addr = k)) as [[<- <-]|Hne].
  - destruct (decide (live (SimMemory.mem self) w)) as [Hl|Hl].
    + rewrite mem_get_set_eq by done. intros [= <-]. right. eauto.
    + unfold mem_set. simpl. unfold live in Hl.
      destruct (heap w !! SimMemory.mem self) eqn:E; [exfalso; eauto|].
      intros Ha. by left.
  - rewrite mem_get_set_ne.
    + intros Ha. by left.
    + destruct (decide (SimMemory.mem self = h)); [right|left]; intuition.
Qed.

Lemma read_byte_only_at self addr w :
  let '(b, w') := SimMemory.read_byte self addr w in
  extends w w' /\ only_at addr w w'
  /\ merge_mem_counter w' = merge_mem_counter w
  /\ (live (SimMemory.mem self) w -> mem_get (SimMemory.mem self) addr w' = Some b)
  /\ materialized w w'.
Proof.
  pose proof (read_byte_spec self addr w) as Hs.
  pose proof (read_byte_materialized self addr w) as Hmat.
  destruct (SimMemory.read_byte self addr w) as [b w'].
  destruct Hs as (He & Hfr & Hget & Ha & Hm & Hlog & _).
  split; [done|]. split; [|by split].
  split; [|split; [|by split]].
  - intros h k Hk. apply Hfr. by right.
  - intros h. symmetry. apply He.
Qed.

(** The loop of [merge] that reads the byte from every other state. *)
Lemma read_others addr others w :
  Forall (fun o => live (SimMemory.mem o) w) others ->
  exists rest w',
    for_list (fun o => a ← SimMemory.load o (PyInt addr) 1; mret a.1) others w
    = (Ok rest, w')
    /\ Forall2 (fun o a => mem_get (SimMemory.mem o) addr w' = Some a) others rest
    /\ extends w w' /\ only_at addr w w'
    /\ merge_mem_counter w' = merge_mem_counter w
    /\ materialized w w'.
Proof.
  revert w. induction others as [|o others IH]; intros w Hlive.
  - exists [], w. split; [done|]. split; [constructor|].
    split; [apply extends_refl|]. split; [by repeat split|].
    split; [done|]. apply materialized_refl.
  - apply Forall_cons in Hlive as [Hl Hlive].
    cbn [for_list]. unfold mbind at 1. unfold M_bind at 1.
    unfold mbind at 1. unfold M_bind at 1. rewrite load_one_byte.
    pose proof (read_byte_only_at o addr w) as Hs.
    destruct (SimMemory.read_byte o addr w) as [b w1].
    destruct Hs as (He1 & Ho1 & Hm1 & Hget1 & Hmat1).
    destruct (IH w1) as (rest & w' & Hfor & Hall & He & Ho & Hm & Hmat).
    { eapply Forall_impl; [exact Hlive|]. intros s Hs. by apply He1. }
    exists (b :: rest), w'. cbn [mret M_ret fst].
    unfold mbind, M_bind in Hfor |- *. rewrite Hfor.
    split; [done|]. split; [|split; [|split; [|split]]].
    + constructor; [|done]. apply He. auto.
    + by apply (extends_trans _ w1).
    + destruct Ho1 as (F1 & L1 & A1 & S1), Ho as (F2 & L2 & A2 & S2).
      split; [|split; [|split]].
      * intros h k Hk. by rewrite F2, F1.
      * intros h. by rewrite L2, L1.
      * congruence.
      * congruence.
    + congruence.
    + by apply (materialized_trans _ w1).
Qed.

(** A store of an 8-bit value at a plain integer address writes one
    entry. *)
Lemma store_one_byte self addr b w :
  size b = 8 ->
  SimMemory.store self (PyInt addr) b w
  = (Ok [], mem_set (SimMemory.mem self) addr (Extract 7 0 b) w).
Proof.
  intros Hsz. rewrite (store_concrete self (PyInt addr) addr) by done.
  unfold SimMemory.write_to. rewrite Hsz. simpl. by rewrite Z.add_0_r.
Qed.

(** One turn of the loop of [merge]. *)
Lemma merge_byte_spec self others flag flag_values addr w :
  Forall (fun s => live (SimMemory.mem s) w) (self :: others) ->
  let merged := merged_symbol self addr (merge_mem_counter w) in
  exists alternatives w',
    SimMemory.merge_byte self others flag flag_values addr w
    = (Ok (merge_constraint flag merged alternatives flag_values), w')
    /\ Forall2 (alternative_of self addr w w') (self :: others) alternatives
    /\ mem_get (SimMemory.mem self) addr w' = Some (Extract 7 0 merged)
    /\ only_at addr w w'
    /\ merge_mem_counter w' = (merge_mem_counter w + 1)%N.
Proof.
  intros Hlive merged. apply Forall_cons in Hlive as [Hl Hlive].
  unfold SimMemory.merge_byte.
  unfold mbind at 1. unfold M_bind at 1. rewrite load_one_byte.
  pose proof (read_byte_only_at self addr w) as Hs.
  destruct (SimMemory.read_byte self addr w) as [a0 w0].
  destruct Hs as (He0 & Ho0 & Hm0 & Hget0 & Hmat0).
  destruct (read_others addr others w0)
    as (rest & wr & Hfor & Hall & Her & Hor & Hmr & Hmatr).
  { eapply Forall_impl; [exact Hlive|]. intros s Hs. by apply He0. }
  assert (Hmat : materialized w wr) by (by apply (materialized_trans _ w0)).
  unfold mbind at 1. unfold M_bind at 1. rewrite Hfor.
  unfold mbind at 1. unfold M_bind at 1. unfold lift at 1.
  unfold next_merge_mem at 1. cbn [fst].
  unfold mbind at 1. unfold M_bind at 1.
  rewrite store_one_byte by done. cbn [mret M_ret].
  rewrite Hmr, Hm0. fold (merged_symbol self addr (merge_mem_counter w)).
  fold merged. unfold merge_constraint.
  set (wc := mkWorld _ _ _ _ _ _).
  assert (Hwc : forall h k, mem_get h k wc = mem_get h k wr) by done.
  assert (Hlc : live (SimMemory.mem self) wc).
  { apply (proj2 Her), (proj2 He0), Hl. }
  eexists (a0 :: rest), _. split; [reflexivity|].
  split; [|split; [|split]].
  - constructor.
    + split; [|split; [|done]].
      * intros b Hb. apply He0 in Hb. rewrite Hget0 in Hb by done. congruence.
      * intros Hnone. destruct (Hmat0 _ _ _ (Hget0 Hl)) as [Hold|?]; [|done].
        congruence.
    + eapply Forall2_impl; [exact Hall|]. intros o a Ha. split; [|split].
      * intros b Hb. apply He0, Her in Hb. congruence.
      * intros Hnone. destruct (Hmat _ _ _ Ha) as [Hold|?]; [|done].
        congruence.
      * intros Hne. rewrite mem_get_set_ne by auto. by rewrite Hwc.
  - by apply mem_get_set_eq.
  - destruct Ho0 as (F1 & L1 & A1 & S1), Hor as (F2 & L2 & A2 & S2).
    split; [|split; [|split]].
    + intros h k Hk. rewrite mem_get_set_ne by auto. by rewrite Hwc, F2, F1.
    + intros h. rewrite live_mem_set. change (live h wc) with (live h wr).
      by rewrite L2, L1.
    + rewrite (proj1 (counters_mem_set _ _ _ _)). simpl. congruence.
    + rewrite (proj2 (proj2 (proj2 (counters_mem_set _ _ _ _)))). simpl.
      congruence.
  - rewrite (proj1 (proj2 (proj2 (counters_mem_set _ _ _ _)))). done.
Qed.

(** The loop of [merge] over addresses that are all different. *)
Lemma merge_loop_spec self others flag flag_values addrs w :
  NoDup addrs ->
  Forall (fun s => live (SimMemory.mem s) w) (self :: others) ->
  exists cs w',
    for_list (SimMemory.merge_byte self others flag flag_values) addrs w
    = (Ok cs, w')
    /\ length cs = length addrs
    /\ (forall h k, k ∉ addrs -> mem_get h k w' = mem_get h k w)
    /\ (forall h, live h w' <-> live h w)
    /\ merge_mem_counter w' = (merge_mem_counter w + N.of_nat (length addrs))%N
    /\ forall (j : nat) addr, addrs !! j = Some addr ->
         let merged :=
           merged_symbol self addr (merge_mem_counter w + N.of_nat j) in
         exists alternatives,
           cs !! j = Some (merge_constraint flag merged alternatives flag_values)
           /\ Forall2 (alternative_of self addr w w') (self :: others) alternatives
           /\ mem_get (SimMemory.mem self) addr w' = Some (Extract 7 0 merged).
Proof.
  intros Hnd. revert w. induction Hnd as [|a addrs Hnotin Hnd IH]; intros w Hlive.
  - exists [], w. split; [done|]. split; [done|]. split; [done|].
    split; [done|]. split; [simpl; lia|]. intros j addr Hj. done.
  - destruct (merge_byte_spec self others flag flag_values a w Hlive)
      as (alts & w1 & Hstep & Halts & Hget & Honly & Hcount).
    destruct Honly as (Hfr1 & Hl1 & _).
    destruct (IH w1) as (cs & w' & Hfor & Hlen & Hfr & Hl & Hc & Hall).
    { eapply Forall_impl; [exact Hlive|]. intros s Hs. by apply Hl1. }
    exists (merge_constraint flag (merged_symbol self a (merge_mem_counter w))
              alts flag_values :: cs), w'.
    split; [|split; [|split; [|split; [|split]]]].
    + cbn [for_list]. unfold mbind, M_bind. rewrite Hstep.
      unfold mbind, M_bind in Hfor. by rewrite Hfor.
    + simpl. lia.
    + intros h k Hk. rewrite not_elem_of_cons in Hk.
      rewrite Hfr, Hfr1; tauto.
    + intros h. by rewrite Hl, Hl1.
    + rewrite Hc, Hcount. simpl length. lia.
    + intros [|j] addr Hj merged.
      * simpl in Hj. injection Hj as <-. exists alts.
        unfold merged. rewrite N.add_0_r. split; [done|]. split.
        -- eapply Forall2_impl; [exact Halts|]. intros s alt (Hb & Hn & Ha).
           split; [done|]. split; [done|].
           intros Hne. rewrite Hfr by done. auto.
        -- by rewrite Hfr.
      * simpl in Hj. destruct (Hall j addr Hj) as (alts' & Hcs & Halts' & Hget').
        assert (Hne : addr ≠ a).
        { intros ->. apply Hnotin. by eapply list_elem_of_lookup_2. }
        assert (Hn : (merge_mem_counter w1 + N.of_nat j
                      = merge_mem_counter w + N.of_nat (S j))%N) by lia.
        rewrite Hn in Hcs, Hget'.
        exists alts'. split; [done|]. split; [|done].
        eapply Forall2_impl; [exact Halts'|]. intros s alt (Hb & Hnew & Ha).
        split; [|split; [|done]].
        ++ intros b Hb'. apply Hb. by rewrite Hfr1.
        ++ intros Hnone. apply Hnew. by rewrite Hfr1.
Qed.

(** What the disjunction means: in a model where the constraint holds
    and the flag equals the [i]-th flag value and no other, the merged
    byte has the value of the [i]-th alternative. *)
Lemma merge_constraint_selects rho flag merged alternatives flag_values i fv a :
  holds rho (merge_constraint flag merged alternatives flag_values) = true ->
  flag_values !! i = Some fv ->
  alternatives !! i = Some a ->
  (forall j fv', j ≠ i -> flag_values !! j = Some fv' ->
                 holds rho (Eq flag fv') = false) ->
  eval rho merged = eval rho a.
Proof.
  intros Hor Hfv Ha Hothers. unfold merge_constraint in Hor. cbn [holds] in Hor.
  apply existsb_exists in Hor as (c & Hin & Hc).
  apply list_elem_of_In, list_elem_of_lookup in Hin as [j Hj].
  apply lookup_zip_with_Some in Hj as (a' & fv' & -> & Ha' & Hfv').
  change (holds rho (Eq flag fv')
          && (holds rho (Eq merged (OExpr a')) && true) = true) in Hc.
  apply andb_true_iff in Hc as [Hflag Hc].
  apply andb_true_iff in Hc as [Hm _].
  destruct (decide (j = i)) as [->|Hne].
  - rewrite Ha in Ha'. injection Ha' as <-.
    by apply bool_decide_eq_true in Hm.
  - rewrite (Hothers j fv' Hne Hfv') in Hflag. done.
Qed.

(** The entry written for a merged byte has the value of the symbol. *)
Lemma eval_merged_entry rho self addr n :
  eval rho (Extract 7 0 (merged_symbol self addr n))
  = eval rho (merged_symbol self addr n).
Proof.
  simpl. rewrite Z.div_1_r. apply Z.mod_small. by apply Z.mod_pos_bound.
Qed.

Lemma merge_addresses_spec self others w addr :
  addr ∈ merge_addresses self others w
  <-> exists o, o ∈ others /\ addr ∈ SimMemory.changed_bytes self o w.
Proof.
  unfold merge_addresses.
  assert (Hgen : forall acc,
    addr ∈ foldl (fun acc o => acc ∪ SimMemory.changed_bytes self o w) acc others
    <-> addr ∈ acc \/ exists o, o ∈ others /\ addr ∈ SimMemory.changed_bytes self o w).
  { induction others as [|o others IH]; intros acc; simpl.
    - split; [auto|]. intros [?|(o & Ho & _)]; [done|]. by apply elem_of_nil in Ho.
    - rewrite IH, elem_of_union. split.
      + intros [[?|?]|(o' & Ho' & ?)]; [auto| |].
        * right. exists o. split; [left|done].
        * right. exists o'. split; [by right|done].
      + intros [?|(o' & Ho' & ?)]; [auto|].
        apply elem_of_cons in Ho' as [->|Ho']; [auto|].
        right. by exists o'. }
  rewrite Hgen. split; [|auto]. intros [H|H]; [|done]. by apply elem_of_empty in H.
Qed.

(** [merge] as a whole, for any iteration order of the set of changed
    addresses and any list of flag values. *)
Lemma merge_spec (set_iter : gset Z -> list Z) self others flag flag_values w :
  (forall s, set_iter s ≡ₚ elements s) ->
  Forall (fun s => live (SimMemory.mem s) w) (self :: others) ->
  let addrs := set_iter (merge_addresses self others w) in
  exists cs w',
    SimMemory.merge set_iter self others flag flag_values w = (Ok cs, w')
    /\ length cs = length addrs
    /\ NoDup addrs
    /\ (forall addr, addr ∈ addrs
          <-> exists o, o ∈ others /\ addr ∈ SimMemory.changed_bytes self o w)
    /\ forall (j : nat) addr, addrs !! j = Some addr ->
         let merged :=
           merged_symbol self addr (merge_mem_counter w + N.of_nat j) in
         exists alternatives,
           cs !! j = Some (merge_constraint flag merged alternatives flag_values)
           /\ length alternatives = S (length others)
           /\ Forall2 (alternative_of self addr w w') (self :: others) alternatives
           /\ mem_get (SimMemory.mem self) addr w' = Some (Extract 7 0 merged).
Proof.
  intros Hperm Hlive addrs.
  assert (Hnd : NoDup addrs).
  { unfold addrs. rewrite Hperm. apply NoDup_elements. }
  destruct (merge_loop_spec self others flag flag_values addrs w Hnd Hlive)
    as (cs & w' & Hfor & Hlen & _ & _ & _ & Hall).
  exists cs, w'. split; [exact Hfor|]. split; [done|]. split; [done|]. split.
  - intros addr. unfold addrs. rewrite Hperm, elem_of_elements.
    apply merge_addresses_spec.
  - intros j addr Hj merged.
    destruct (Hall j addr Hj) as (alts & Hcs & Halts & Hget).
    exists alts. split; [done|]. split; [|by split].
    apply Forall2_length in Halts. simpl in Halts. lia.
Qed.

(** C1, as stated, fails when a flag value is repeated: fixing the flag
    to the value of state 1 then does not select state 1's byte. The two
    views hold [0x59] and [0x58] at [4096]. With the flag values [0; 0],
    and likewise with [0; 256] for a flag of 8 bits, where both values
    are the same modulo the width of the flag, there is a model in which
    the returned constraint holds and the flag equals the value given for
    state 1, while the byte [self] holds has the value [0x59] of state 0
    and not the [0x58] state 1 holds. *)
Lemma merge_repeated_flag_value :
  let '(v0, v1, w) := diverged in
  let flag := BitVec "flag" 8 in
  let merged := BitVec "mem_merge_0x1000_0" 8 in
  let rho : model :=
    fun name _ => if bool_decide (name = "mem_merge_0x1000_0") then 0x59
                  else 0 in
  let selects_state_0 (second : Z) :=
    let r := SimMemory.merge elements v0 [v1] flag [OInt 0; OInt second] w in
    let c := Or [And [Eq flag (OInt 0);
                      Eq merged (OExpr (Extract 7 0 (BitVecVal 0x59 8)))];
                 And [Eq flag (OInt second);
                      Eq merged (OExpr (Extract 7 0 (BitVecVal 0x58 8)))]] in
    r.1 = Ok [c]
    /\ holds rho c = true
    /\ holds rho (Eq flag (OInt second)) = true
    /\ eval rho <$> mem_get (SimMemory.mem v0) 4096 r.2 = Some 0x59
    /\ eval rho <$> mem_get (SimMemory.mem v1) 4096 r.2 = Some 0x58 in
  selects_state_0 0 /\ selects_state_0 256.
Proof. vm_compute. repeat split. Qed.

(** C1, amended. Precise merge, for flag values that differ. For a call
    [self.merge(others, flag, flag_values)]
    on live views with one flag value per state ([self] first), whatever
    the order in which the set of changed addresses is iterated: the call
    returns normally one constraint per address of the union of the
    changed bytes between [self] and each other state. For the [j]-th
    such address [addr] there are alternatives, one per state in the order
    of [flag_values], each the entry that state had at [addr], or a
    symbolic byte when it had none (and still the entry of that state
    afterwards if it does not share the store of [self]); the
    constraint is the [Or] over [i] of
    [And(flag == flag_values[i], merged == alternatives[i])] for the
    symbol [merged] named after the merge counter (so different from
    every merge symbol named at another value of the counter); [self]
    holds [Extract(7, 0, merged)] at [addr] afterwards, whose value is
    that of [merged]; and in every model where the constraint holds,
    [flag] equals [flag_values[i]] and the other flag values differ from
    it modulo the width of the flag, the byte [self] holds at [addr] has
    the value of state [i]'s alternative. *)
Theorem merge_precise (set_iter : gset Z -> list Z) self others flag
    flag_values w :
  (forall s, set_iter s ≡ₚ elements s) ->
  Forall (fun s => live (SimMemory.mem s) w) (self :: others) ->
  length flag_values = S (length others) ->
  let addrs := set_iter (merge_addresses self others w) in
  exists cs w',
    SimMemory.merge set_iter self others flag flag_values w = (Ok cs, w')
    /\ length cs = length addrs
    /\ NoDup addrs
    /\ (forall addr, addr ∈ addrs
          <-> exists o, o ∈ others /\ addr ∈ SimMemory.changed_bytes self o w)
    /\ forall (j : nat) addr, addrs !! j = Some addr ->
         let merged :=
           merged_symbol self addr (merge_mem_counter w + N.of_nat j) in
         exists alternatives,
           cs !! j = Some (merge_constraint flag merged alternatives flag_values)
           /\ length alternatives = length flag_values
           /\ Forall2 (alternative_of self addr w w') (self :: others) alternatives
           /\ mem_get (SimMemory.mem self) addr w' = Some (Extract 7 0 merged)
           /\ (forall id' a' k, k ≠ (merge_mem_counter w + N.of_nat j)%N ->
                 merged_symbol self addr (merge_mem_counter w + N.of_nat j)
                 ≠ BitVec (merge_name id' a' k) 8)
           /\ forall rho (i : nat) fv a,
                flag_values !! i = Some fv ->
                alternatives !! i = Some a ->
                holds rho (merge_constraint flag merged alternatives flag_values)
                = true ->
                holds rho (Eq flag fv) = true ->
                (forall (i' : nat) fv', i' ≠ i -> flag_values !! i' = Some fv' ->
                   eval_operand rho (size flag) fv'
                   ≠ eval_operand rho (size flag) fv) ->
                eval rho (Extract 7 0 merged) = eval rho a.
Proof.
  intros Hperm Hlive Harity addrs.
  destruct (merge_spec set_iter self others flag flag_values w Hperm Hlive)
    as (cs & w' & Hmerge & Hlen & Hnd & Hin & Hall).
  exists cs, w'. split; [done|]. split; [done|]. split; [done|]. split; [done|].
  intros j addr Hj merged.
  destruct (Hall j addr Hj) as (alts & Hcs & Hla & Halts & Hget).
  exists alts. split; [done|]. split; [lia|]. split; [done|]. split; [done|].
  split.
  { intros id' a' k Hne [= Heq]. apply merge_name_fresh in Heq; [done|].
    congruence. }
  intros rho i fv a Hfv Ha Hc Hflag Hdistinct.
  unfold merged. rewrite eval_merged_entry.
  apply (merge_constraint_selects rho flag _ alts flag_values i fv a);
    [done..|].
  intros i' fv' Hne Hfv'. cbn [holds] in Hflag |- *.
  apply bool_decide_eq_true in Hflag. apply bool_decide_eq_false.
  rewrite Hflag. intros Heq. by apply (Hdistinct i' fv').
Qed.

Lemma merge_precise_witness :
  exists cs w',
    SimMemory.merge elements diverged.1.1 [diverged.1.2] (BitVec "flag" 8)
                    [OInt 0; OInt 1] diverged.2
    = (Ok cs, w')
    /\ length cs = 1%nat.
Proof.
  destruct (merge_precise elements diverged.1.1 [diverged.1.2] (BitVec "flag" 8)
              [OInt 0; OInt 1] diverged.2)
    as (cs & w' & H1 & H2 & _).
  - intros s. reflexivity.
  - repeat constructor; vm_compute; eauto.
  - reflexivity.
  - exists cs, w'. split; [exact H1|]. rewrite H2. reflexivity.
Defined.

(** C4, as stated, fails: with two states and one flag value the call
    returns normally, and the byte of [self] is replaced by the merged
    symbol. *)
Lemma merge_arity_mismatch_commits :
  let '(v0, v1, w) := diverged in
  let r := SimMemory.merge elements v0 [v1] (BitVec "flag" 8) [OInt 0] w in
  r.1 = Ok [Or [And [Eq (BitVec "flag" 8) (OInt 0);
                     Eq (BitVec "mem_merge_0x1000_0" 8)
                        (OExpr (Extract 7 0 (BitVecVal 0x59 8)))]]]
  /\ mem_get (SimMemory.mem v0) 4096 w = Some (Extract 7 0 (BitVecVal 0x59 8))
  /\ mem_get (SimMemory.mem v0) 4096 r.2
     = Some (Extract 7 0 (BitVec "mem_merge_0x1000_0" 8)).
Proof. vm_compute. repeat split. Qed.

(** C4, amended. [merge] checks no arity: for live views and any list of
    flag values, of whatever length, the call returns normally, with one
    constraint per changed address; the constraint for an address pairs
    the alternatives (one per state) with the flag values up to the
    shorter of the two lists, and [self] holds the merged byte at every
    changed address afterwards. *)
Theorem merge_no_arity_check (set_iter : gset Z -> list Z) self others flag
    flag_values w :
  (forall s, set_iter s ≡ₚ elements s) ->
  Forall (fun s => live (SimMemory.mem s) w) (self :: others) ->
  let addrs := set_iter (merge_addresses self others w) in
  exists cs w',
    SimMemory.merge set_iter self others flag flag_values w = (Ok cs, w')
    /\ length cs = length addrs
    /\ forall (j : nat) addr, addrs !! j = Some addr ->
         let merged :=
           merged_symbol self addr (merge_mem_counter w + N.of_nat j) in
         exists alternatives disjuncts,
           cs !! j = Some (Or disjuncts)
           /\ Or disjuncts
              = merge_constraint flag merged alternatives flag_values
           /\ length alternatives = S (length others)
           /\ length disjuncts
              = Nat.min (S (length others)) (length flag_values)
           /\ mem_get (SimMemory.mem self) addr w' = Some (Extract 7 0 merged).
Proof.
  intros Hperm Hlive addrs.
  destruct (merge_spec set_iter self others flag flag_values w Hperm Hlive)
    as (cs & w' & Hmerge & Hlen & _ & _ & Hall).
  exists cs, w'. split; [done|]. split; [done|].
  intros j addr Hj merged.
  destruct (Hall j addr Hj) as (alts & Hcs & Hla & _ & Hget).
  eexists alts, _. split; [exact Hcs|]. split; [reflexivity|].
  split; [done|]. split; [|done].
  by rewrite length_zip_with, Hla.
Qed.

Lemma merge_no_arity_check_witness :
  exists cs w',
    SimMemory.merge elements diverged.1.1 [diverged.1.2] (BitVec "flag" 8)
                    [OInt 0] diverged.2
    = (Ok cs, w')
    /\ length cs = 1%nat.
Proof.
  destruct (merge_no_arity_check elements diverged.1.1 [diverged.1.2]
              (BitVec "flag" 8) [OInt 0] diverged.2)
    as (cs & w' & H1 & H2 & _).
  - intros s. reflexivity.
  - repeat constructor; vm_compute; eauto.
  - exists cs, w'. split; [exact H1|]. rewrite H2. reflexivity.
Defined.

(** ** The cacher *)
Section cacher_facts.

Import Cacher.

Context {Project History : Type}.
Variable trim : History -> History.
Variable pickle_dump : list (@SimState Project History) -> pickle_outcome.
Variable simgr_step :
  @SimulationManager Project -> string -> @World Project History ->
  result (@SimulationManager Project) * @World Project History.
Variable subst_addr : string -> string -> string.
Variable hex_addr : Z -> string.

Lemma attach_all_states (p : Project) ss (w : @World Project History) h :
  states (foldl (fun w s => attach p s w) w ss) !! h
  = if decide (h ∈ ss) then with_project (Some p) <$> states w !! h
    else states w !! h.
Proof.
  revert w. induction ss as [|a ss IH]; intros w.
  - destruct (decide (h ∈ [])) as [Hin|]; [by apply elem_of_nil in Hin|done].
  - cbn [foldl]. rewrite IH. unfold attach at 1 2. cbn [states set_states].
    rewrite lookup_alter.
    destruct (decide (h ∈ a :: ss)) as [Hin'|Hnot'],
      (decide (h ∈ ss)) as [Hin|Hnot], (decide (a = h)) as [Heq|Hne];
      try done.
    + subst a. by destruct (states w !! h).
    + by subst a.
    + apply elem_of_cons in Hin' as [?|?]; by subst.
    + exfalso. apply Hnot'. apply elem_of_cons. by right.
    + exfalso. apply Hnot'. apply elem_of_cons. by right.
    + exfalso. apply Hnot'. apply elem_of_cons. by left.
Qed.

Lemma attach_all_rest (p : Project) ss (w : @World Project History) :
  log (foldl (fun w s => attach p s w) w ss) = log w
  /\ files (foldl (fun w s => attach p s w) w ss) = files w.
Proof.
  revert w. induction ss as [|h ss IH]; intros w; [done|].
  cbn [foldl]. destruct (IH (attach p h w)) as [-> ->]. done.
Qed.

Lemma detach_all_rest ss (w : @World Project History) :
  log (foldl (fun w s => detach trim s w) w ss) = log w
  /\ files (foldl (fun w s => detach trim s w) w ss) = files w.
Proof.
  revert w. induction ss as [|h ss IH]; intros w; [done|].
  cbn [foldl]. destruct (IH (detach trim h w)) as [-> ->]. done.
Qed.

Lemma attached_after (p : Project) ss (w : @World Project History) :
  attached p ss (foldl (fun w s => attach p s w) w ss).
Proof.
  intros h s Hin. rewrite attach_all_states, decide_True by done.
  destruct (states w !! h); simpl; [|done]. by intros [= <-].
Qed.

(** [_dump_stash] when pickling raises a [RuntimeError]. *)
Lemma dump_stash_runtime_error f simgr stash ss w message partial :
  stashes simgr !! stash = Some ss ->
  pickle_dump (contents ss (foldl (fun w s => detach trim s w) w ss))
  = DumpRaised (RuntimeError message) partial ->
  exists w',
    _dump_stash trim pickle_dump f simgr stash w = (Ok tt, w')
    /\ log w' = (log w ++ [(ERROR, "Unable to cache, '" +:+ message
                                   +:+ "' during pickling")])%list
    /\ attached (_project simgr) ss w'
    /\ files w' = <[ f := partial ]> (files w).
Proof.
  intros Hss Hp. unfold _dump_stash. rewrite Hss, Hp.
  eexists. split; [reflexivity|].
  split; [|split; [apply attached_after|]].
  - rewrite (proj1 (attach_all_rest _ _ _)). simpl.
    by rewrite (proj1 (detach_all_rest _ _)).
  - rewrite (proj2 (attach_all_rest _ _ _)). simpl.
    by rewrite (proj2 (detach_all_rest _ _)).
Qed.

(** [_dump_stash] when pickling raises nothing but [RuntimeError]s: the
    file it is given is written in every case. *)
Lemma dump_stash_returns f simgr stash ss w :
  stashes simgr !! stash = Some ss ->
  (forall l e partial, pickle_dump l = DumpRaised e partial ->
     exists message, e = RuntimeError message) ->
  exists w' content,
    _dump_stash trim pickle_dump f simgr stash w = (Ok tt, w')
    /\ attached (_project simgr) ss w'
    /\ files w' = <[ f := content ]> (files w).
Proof.
  intros Hss Hp. unfold _dump_stash. rewrite Hss.
  pose proof (proj2 (detach_all_rest ss w)) as Hf.
  destruct (pickle_dump _) as [data|e partial] eqn:E.
  - eexists _, data. split; [reflexivity|]. split; [apply attached_after|].
    rewrite (proj2 (attach_all_rest _ _ _)). simpl. by rewrite Hf.
  - destruct (Hp _ _ _ E) as [message ->].
    eexists _, partial. split; [reflexivity|]. split; [apply attached_after|].
    rewrite (proj2 (attach_all_rest _ _ _)). simpl. by rewrite Hf.
Qed.

(** The loop of [step] with the default [_dump_func]. *)
Lemma step_loop_returns self simgr stash ss rest w :
  _dump_func self = _dump_stash trim pickle_dump ->
  stashes simgr !! stash = Some ss ->
  (forall l e partial, pickle_dump l = DumpRaised e partial ->
     exists message, e = RuntimeError message) ->
  attached (_project simgr) ss w ->
  exists self' w',
    step_loop subst_addr hex_addr self simgr stash rest w = (self', Ok tt, w')
    /\ attached (_project simgr) ss w'
    /\ (forall g content, files w !! g = Some content ->
          files w' !! g = Some content)
    /\ ((self' = self /\ w' = w) \/ is_Some (files w' !! _cache_file self')).
Proof.
  intros Hdef Hss Hp. revert self w Hdef.
  induction rest as [|h rest IH]; intros self w Hdef Hw; cbn [step_loop].
  - exists self, w. split; [done|]. split; [done|]. split; [done|]. by left.
  - destruct (states w !! h) as [s|]; [|by apply IH].
    destruct (_dump_cache self && _dump_cond self s); [|by apply IH].
    set (self1 := set_cache_file self _).
    destruct (bool_decide _) eqn:Hex.
    + apply bool_decide_eq_true in Hex.
      destruct (IH self1 w Hdef Hw) as (self' & w' & -> & Hw' & Hkeep & Hend).
      exists self', w'. split; [done|]. split; [done|]. split; [done|].
      right. destruct Hend as [[-> ->]|Hend]; done.
    + apply bool_decide_eq_false in Hex.
      change (_dump_func self1) with (_dump_func self). rewrite Hdef.
      set (w2 := write _ _ _).
      destruct (dump_stash_returns (_cache_file self1) simgr stash ss w2 Hss Hp)
        as (w3 & content & -> & Hw3 & Hf3).
      destruct (IH self1 w3 Hdef Hw3) as (self' & w' & -> & Hw' & Hkeep & Hend).
      exists self', w'. split; [done|]. split; [done|]. split.
      * intros g c Hg. apply Hkeep. rewrite Hf3.
        assert (Hne : g ≠ _cache_file self1).
        { intros ->. apply Hex. by eexists. }
        unfold w2. simpl. by rewrite !lookup_insert_ne.
      * right. destruct Hend as [[-> ->]|Hend]; [|done].
        rewrite Hf3, lookup_insert_eq. by eexists.
Qed.



End cacher_facts.


(** * Further properties *)

(** ** What every method preserves *)

Section keeps.

Variable R : World -> World -> Prop.
Hypothesis R_refl : forall w, R w w.
Hypothesis R_trans : forall w1 w2 w3, R w1 w2 -> R w2 w3 -> R w1 w3.

Lemma keeps_ret {A} (a : A) : keeps R (mret a).
Proof. intros w. apply R_refl. Qed.

Lemma keeps_raise {A} e : keeps R (@raise A e).
Proof. intros w. apply R_refl. Qed.

Lemma keeps_bind {A B} (m : M A) (f : A -> M B) :
  keeps R m -> (forall a, keeps R (f a)) -> keeps R (m ≫= f).
Proof.
  intros Hm Hf w. unfold mbind, M_bind. specialize (Hm w).
  destruct (m w) as [[a|e] w1]; simpl in *; [|done].
  eapply R_trans; [exact Hm|]. apply Hf.
Qed.

Lemma keeps_lift {A} (f : World -> A * World) :
  (forall w, R w (f w).2) -> keeps R (lift f).
Proof. intros Hf w. unfold lift. specialize (Hf w). by destruct (f w). Qed.

Lemma keeps_for_list {A B} (f : A -> M B) l :
  (forall a, keeps R (f a)) -> keeps R (for_list f l).
Proof.
  intros Hf. induction l as [|a l IH]; simpl; [apply keeps_ret|].
  apply keeps_bind; [done|]. intros b.
  apply keeps_bind; [done|]. intros bs. apply keeps_ret.
Qed.

Lemma keeps_catch {A} (body handler : M A) :
  keeps R body -> keeps R handler -> keeps R (catch_SimMemoryError body handler).
Proof.
  intros Hb Hh w. unfold catch_SimMemoryError. specialize (Hb w).
  destruct (body w) as [[a|[msg|msg|msg]] w1]; simpl in *; try done.
  eapply R_trans; [exact Hb|]. apply Hh.
Qed.

Lemma keeps_index0 {A} (l : list A) : keeps R (index0 l).
Proof. destruct l; [apply keeps_raise | apply keeps_ret]. Qed.

(** The steps the methods are made of. *)
Variables Pr Pw : SimMemory.t -> Prop.
Hypothesis R_log : forall v q w, R w (log_query v q w).
Hypothesis R_read :
  forall self a w, Pr self -> R w (SimMemory.read_byte self a w).2.
Hypothesis R_write :
  forall self a b w, Pw self -> R w (mem_set (SimMemory.mem self) a b w).
Hypothesis R_next_addr : forall w, R w (next_addr_mem w).2.
Hypothesis R_next_merge : forall w, R w (next_merge_mem w).2.

Lemma keeps_ask {A} v q (a : A) : keeps R (ask v q a).
Proof. intros w. apply R_log. Qed.

Lemma keeps_try_strategies self v strategies :
  keeps R (SimMemory.try_strategies self v strategies).
Proof.
  induction strategies as [|s rest IH]; cbn [SimMemory.try_strategies].
  - apply keeps_raise.
  - assert (Hany : keeps R (if decide (s = "any")
                            then a ← ask v QAny (SimValue.any v); mret [a]
                            else SimMemory.try_strategies self v rest)).
    { destruct (decide (s = "any")); [|exact IH].
      apply keeps_bind; [apply keeps_ask|]. intros a. apply keeps_ret. }
    destruct (decide (s = "symbolic")); [|exact Hany].
    apply keeps_bind; [apply keeps_ask|]. intros hi.
    apply keeps_bind; [apply keeps_ask|]. intros lo.
    destruct (decide (hi - lo < SimMemory.limit self));
      [apply keeps_ask|exact Hany].
Qed.

Lemma keeps_concretize_addr self dst strategies :
  keeps R (SimMemory.concretize_addr self dst strategies).
Proof.
  destruct dst as [z|v]; [apply keeps_raise|]. unfold SimMemory.concretize_addr.
  apply keeps_bind; [apply keeps_ask|]. intros sym.
  apply keeps_bind.
  { destruct sym; [|apply keeps_ret]. apply keeps_bind; [apply keeps_ask|].
    intros sat. apply keeps_ret. }
  intros [|]; [apply keeps_raise|].
  apply keeps_bind; [apply keeps_ask|]. intros [|].
  - apply keeps_bind; [apply keeps_ask|]. intros a. apply keeps_ret.
  - apply keeps_try_strategies.
Qed.

Lemma keeps_contains self dst : keeps R (SimMemory.contains self dst).
Proof.
  unfold SimMemory.contains. apply keeps_bind.
  - destruct dst as [z|v]; [apply keeps_ret|].
    apply keeps_bind; [apply keeps_ask|]. intros [|].
    + apply keeps_catch; [|apply keeps_ret].
      apply keeps_bind; [apply keeps_concretize_addr|]. intros addrs.
      apply keeps_bind; [apply keeps_index0|]. intros a. apply keeps_ret.
    + apply keeps_bind; [apply keeps_ask|]. intros a. apply keeps_ret.
  - intros [addr|]; [|apply keeps_ret]. apply keeps_lift. intros w. apply R_refl.
Qed.

Lemma R_read_bytes self a offs w :
  Pr self -> R w (SimMemory.read_bytes self a offs w).2.
Proof.
  intros HP. revert w. induction offs as [|i offs IH]; intros w; [apply R_refl|].
  cbn [SimMemory.read_bytes]. pose proof (R_read self (a + i) w HP) as H1.
  destruct (SimMemory.read_byte self (a + i) w) as [b w1].
  specialize (IH w1). destruct (SimMemory.read_bytes self a offs w1) as [bs w2].
  simpl in *. by eapply R_trans.
Qed.

Lemma R_read_from self a n w :
  Pr self -> R w (SimMemory.read_from self a n w).2.
Proof.
  intros HP. unfold SimMemory.read_from.
  pose proof (R_read_bytes self a (py_range 0 n 1) w HP) as H.
  by destruct (SimMemory.read_bytes self a _ w).
Qed.

Lemma R_write_to self a cnt w :
  Pw self -> R w (SimMemory.write_to self a cnt w).
Proof.
  intros HP. unfold SimMemory.write_to. generalize (py_range 0 (size cnt) 8).
  intros l. revert w. induction l as [|off l IH]; intros w; [apply R_refl|].
  simpl. eapply R_trans; [|apply IH]. by apply R_write.
Qed.

Lemma keeps_load self dst n : Pr self -> keeps R (SimMemory.load self dst n).
Proof.
  intros HP. assert (Hr : forall a, keeps R (lift (SimMemory.read_from self a n))).
  { intros a. apply keeps_lift. intros w. by apply R_read_from. }
  destruct dst as [z|v]; unfold SimMemory.load.
  - apply keeps_bind; [done|]. intros r. apply keeps_ret.
  - apply keeps_bind; [apply keeps_ask|]. intros [|].
    + apply keeps_bind; [apply keeps_ask|]. intros a.
      apply keeps_bind; [done|]. intros r. apply keeps_ret.
    + apply keeps_bind; [apply keeps_concretize_addr|]. intros addrs.
      assert (Hmany : keeps R
        (k ← lift next_addr_mem;
         let m := BitVec (addr_name (SimMemory.id self) k) (n * 8) in
         cs ← for_list (fun addr =>
                          r ← lift (SimMemory.read_from self addr n);
                          mret (And [Eq m (OExpr r);
                                     Eq (SimValue.expr v) (OInt addr)]))
                       addrs;
         mret (m, [Or cs]))).
      { apply keeps_bind; [by apply keeps_lift|]. intros k.
        apply keeps_bind; [|intros; apply keeps_ret].
        apply keeps_for_list. intros addr.
        apply keeps_bind; [done|]. intros r. apply keeps_ret. }
      destruct addrs as [|a [|a' rest]]; [done| |done].
      apply keeps_bind; [done|]. intros r. apply keeps_ret.
Qed.

Lemma keeps_store self dst cnt :
  Pw self -> keeps R (SimMemory.store self dst cnt).
Proof.
  intros HP. unfold SimMemory.store. apply keeps_bind.
  - destruct dst as [z|v]; [apply keeps_ret|].
    apply keeps_bind; [apply keeps_ask|]. intros [|].
    + apply keeps_bind; [apply keeps_ask|]. intros a. apply keeps_ret.
    + apply keeps_bind; [apply keeps_concretize_addr|]. intros addrs.
      apply keeps_bind; [apply keeps_index0|]. intros a. apply keeps_ret.
  - intros [addr c]. apply keeps_lift. intros w. by apply R_write_to.
Qed.

Lemma keeps_unconstrain_byte self addr :
  Pw self -> keeps R (SimMemory.unconstrain_byte self addr).
Proof.
  intros HP. unfold SimMemory.unconstrain_byte.
  apply keeps_bind; [by apply keeps_lift|]. intros k.
  apply keeps_bind; [by apply keeps_store|]. intros _. apply keeps_ret.
Qed.

Lemma keeps_unconstrain_differences set_iter self other :
  Pw self -> keeps R (SimMemory.unconstrain_differences set_iter self other).
Proof.
  intros HP w. unfold SimMemory.unconstrain_differences.
  apply (keeps_bind (for_list _ _) (fun _ => mret tt)); [|intros; apply keeps_ret].
  apply keeps_for_list. intros a. by apply keeps_unconstrain_byte.
Qed.

Lemma keeps_merge_byte self others flag flag_values addr :
  Pr self -> Pw self -> Forall Pr others ->
  keeps R (SimMemory.merge_byte self others flag flag_values addr).
Proof.
  intros HP HPw HPs. unfold SimMemory.merge_byte.
  apply keeps_bind; [by apply keeps_load|]. intros a0.
  apply keeps_bind.
  { induction HPs as [|o others Ho _ IH]; cbn [for_list]; [apply keeps_ret|].
    apply keeps_bind.
    - apply keeps_bind; [by apply keeps_load|]. intros a. apply keeps_ret.
    - intros b. apply keeps_bind; [done|]. intros bs. apply keeps_ret. }
  intros rest. apply keeps_bind; [by apply keeps_lift|]. intros k.
  apply keeps_bind; [by apply keeps_store|]. intros _. apply keeps_ret.
Qed.

Lemma keeps_merge set_iter self others flag flag_values :
  Pr self -> Pw self -> Forall Pr others ->
  keeps R (SimMemory.merge set_iter self others flag flag_values).
Proof.
  intros HP HPw HPs w. unfold SimMemory.merge.
  apply keeps_for_list. intros a. by apply keeps_merge_byte.
Qed.

End keeps.

Lemma grows_refl w : grows w w.
Proof. unfold grows. repeat split; auto; lia. Qed.

Lemma grows_trans w1 w2 w3 : grows w1 w2 -> grows w2 w3 -> grows w1 w3.
Proof.
  intros (L1 & A1 & V1 & M1 & S1) (L2 & A2 & V2 & M2 & S2).
  repeat split; auto; try lia. by etrans.
Qed.

Lemma grows_log v q w : grows w (log_query v q w).
Proof.
  unfold grows. simpl. repeat split; auto; try lia. by apply prefix_app_r.
Qed.

Lemma grows_read self a w : grows w (SimMemory.read_byte self a w).2.
Proof.
  pose proof (read_byte_spec self a w) as Hs.
  destruct (SimMemory.read_byte self a w) as [b w'].
  destruct Hs as ([_ Hl] & _ & _ & Ha & Hm & Hlog & Hv). simpl.
  unfold grows. rewrite Ha, Hm, Hlog. repeat split; try lia; [|done].
  intros h. apply Hl.
Qed.

Lemma grows_write h a b w : grows w (mem_set h a b w).
Proof.
  destruct (counters_mem_set h a b w) as (Ha & Hv & Hm & Hs).
  unfold grows. rewrite Ha, Hv, Hm, Hs. repeat split; try lia; [|done].
  intros h'. by rewrite live_mem_set.
Qed.

Lemma grows_copy self w : grows w (SimMemory.copy self w).2.
Proof.
  destruct (decide (live (SimMemory.mem self) w)) as [Hl|Hl].
  - destruct (copy_spec self w Hl) as (_ & _ & Hlive & _).
    assert (Heq : addr_mem_counter (SimMemory.copy self w).2 = addr_mem_counter w
              /\ var_mem_counter (SimMemory.copy self w).2 = var_mem_counter w
              /\ merge_mem_counter (SimMemory.copy self w).2 = merge_mem_counter w
              /\ solver_log (SimMemory.copy self w).2 = solver_log w).
    { destruct Hl as [d Hd]. unfold SimMemory.copy, mem_branch. by rewrite Hd. }
    destruct Heq as (Ha & Hv & Hm & Hs).
    unfold grows. rewrite Ha, Hv, Hm, Hs. repeat split; try lia; done.
  - unfold SimMemory.copy, mem_branch, live in *.
    destruct (heap w !! SimMemory.mem self); [exfalso; eauto|]. apply grows_refl.
Qed.

(** X1. The world only grows. Whatever method of a memory view is
    called, with whatever arguments, and whether it returns or raises:
    every store that was there is still there, none of the three
    counters that name symbols goes back, and the log of the questions
    asked of value objects keeps what it had. *)
Theorem world_only_grows set_iter self others other dst n cnt addr flag
    flag_values w :
  grows w (SimMemory.load self dst n w).2
  /\ grows w (SimMemory.store self dst cnt w).2
  /\ grows w (SimMemory.contains self dst w).2
  /\ grows w (SimMemory.copy self w).2
  /\ grows w (SimMemory.unconstrain_byte self addr w).2
  /\ grows w (SimMemory.unconstrain_differences set_iter self other w).2
  /\ grows w (SimMemory.merge set_iter self others flag flag_values w).2.
Proof.
  pose proof grows_refl as Hr. pose proof grows_trans as Ht.
  pose proof grows_log as Hlog.
  assert (Hrd : forall (s : SimMemory.t) a w, True ->
            grows w (SimMemory.read_byte s a w).2)
    by (intros; apply grows_read).
  assert (Hwr : forall (s : SimMemory.t) a b w, True ->
            grows w (mem_set (SimMemory.mem s) a b w))
    by (intros; apply grows_write).
  assert (Hna : forall w, grows w (next_addr_mem w).2).
  { intros w0. unfold grows. simpl. repeat split; auto; lia. }
  assert (Hnm : forall w, grows w (next_merge_mem w).2).
  { intros w0. unfold grows. simpl. repeat split; auto; lia. }
  split; [|split; [|split; [|split; [|split; [|split]]]]].
  - by apply (keeps_load grows Hr Ht (fun _ => True)).
  - by apply (keeps_store grows Hr Ht (fun _ => True)).
  - by apply (keeps_contains grows Hr Ht).
  - apply grows_copy.
  - by apply (keeps_unconstrain_byte grows Hr Ht (fun _ => True)).
  - by apply (keeps_unconstrain_differences grows Hr Ht (fun _ => True)).
  - apply (keeps_merge grows Hr Ht (fun _ => True) (fun _ => True)); try done.
    by apply Forall_forall.
Qed.

Lemma untouched_refl hs w : untouched_outside hs w w.
Proof. by intros h k _. Qed.

Lemma untouched_trans hs w1 w2 w3 :
  untouched_outside hs w1 w2 -> untouched_outside hs w2 w3 ->
  untouched_outside hs w1 w3.
Proof. intros H1 H2 h k Hh. by rewrite H2, H1. Qed.

Lemma untouched_read hs self a w :
  SimMemory.mem self ∈ hs ->
  untouched_outside hs w (SimMemory.read_byte self a w).2.
Proof.
  intros Hin. pose proof (read_byte_spec self a w) as Hs.
  destruct (SimMemory.read_byte self a w) as [b w'].
  destruct Hs as (_ & Hfr & _). intros h k Hh. apply Hfr. left.
  intros Heq. by subst h.
Qed.

Lemma untouched_write hs self a b w :
  SimMemory.mem self ∈ hs ->
  untouched_outside hs w (mem_set (SimMemory.mem self) a b w).
Proof.
  intros Hin h k Hh. apply mem_get_set_ne. left. intros Heq.
  by rewrite Heq in Hin.
Qed.

Lemma keeps_entries_refl w : keeps_entries w w.
Proof. by intros h k b. Qed.

Lemma keeps_entries_trans w1 w2 w3 :
  keeps_entries w1 w2 -> keeps_entries w2 w3 -> keeps_entries w1 w3.
Proof. intros H1 H2 h k b Hb. by apply H2, H1. Qed.

Lemma keeps_entries_read self a w :
  keeps_entries w (SimMemory.read_byte self a w).2.
Proof.
  pose proof (read_byte_spec self a w) as Hs.
  destruct (SimMemory.read_byte self a w) as [b w'].
  destruct Hs as ([He _] & _). exact He.
Qed.

(** X2. Reading changes no entry. A load, through any kind of address,
    of any size, returning or raising, leaves every entry of every store
    as it is: it can only add entries, and only to the store of its own
    view. A membership test changes nothing in any store and moves no
    counter. *)
Theorem reads_keep_entries self dst n w :
  keeps_entries w (SimMemory.load self dst n w).2
  /\ untouched_outside [SimMemory.mem self] w (SimMemory.load self dst n w).2
  /\ same_memory w (SimMemory.contains self dst w).2.
Proof.
  split; [|split].
  - apply (keeps_load keeps_entries keeps_entries_refl keeps_entries_trans
             (fun _ => True)); [by intros v q w0 h k b| |by intros w0 h k b|done].
    intros s a w0 _. apply keeps_entries_read.
  - apply (keeps_load (untouched_outside [SimMemory.mem self])
             (untouched_refl _) (untouched_trans _)
             (fun s => SimMemory.mem s ∈ [SimMemory.mem self]));
      [by intros v q w0 h k| |by intros w0 h k|by apply list_elem_of_singleton].
    intros s a w0 Hs. by apply untouched_read.
  - apply (keeps_contains same_memory same_memory_refl same_memory_trans).
    apply same_memory_log.
Qed.

(** X3. Writing stays in the stores of the views involved. A store, an
    unconstraining of one byte or of the differences with another view
    touches no entry of a store other than that of [self]; a merge
    touches no entry of a store other than those of [self] and of the
    other states. This holds for any arguments and also when the call
    raises. *)
Theorem writes_touch_own_stores set_iter self others other dst cnt addr flag
    flag_values w :
  untouched_outside [SimMemory.mem self] w (SimMemory.store self dst cnt w).2
  /\ untouched_outside [SimMemory.mem self] w
       (SimMemory.unconstrain_byte self addr w).2
  /\ untouched_outside [SimMemory.mem self] w
       (SimMemory.unconstrain_differences set_iter self other w).2
  /\ untouched_outside (SimMemory.mem self :: (SimMemory.mem <$> others)) w
       (SimMemory.merge set_iter self others flag flag_values w).2.
Proof.
  assert (H : forall hs,
    (forall v q w, untouched_outside hs w (log_query v q w))
    /\ (forall w, untouched_outside hs w (next_addr_mem w).2)
    /\ (forall w, untouched_outside hs w (next_merge_mem w).2)).
  { intros hs. by repeat split. }
  assert (Hself : SimMemory.mem self ∈ [SimMemory.mem self])
    by (by apply list_elem_of_singleton).
  split; [|split; [|split]].
  - apply (keeps_store _ (untouched_refl _) (untouched_trans _)
             (fun s => SimMemory.mem s ∈ [SimMemory.mem self]));
      try apply H; try done.
    intros s a b w0 Hs. by apply untouched_write.
  - apply (keeps_unconstrain_byte _ (untouched_refl _) (untouched_trans _)
             (fun s => SimMemory.mem s ∈ [SimMemory.mem self]));
      try apply H; try done.
    intros s a b w0 Hs. by apply untouched_write.
  - apply (keeps_unconstrain_differences _ (untouched_refl _)
             (untouched_trans _)
             (fun s => SimMemory.mem s ∈ [SimMemory.mem self]));
      try apply H; try done.
    intros s a b w0 Hs. by apply untouched_write.
  - set (hs := SimMemory.mem self :: (SimMemory.mem <$> others)).
    apply (keeps_merge _ (untouched_refl _) (untouched_trans _)
             (fun s => SimMemory.mem s ∈ hs) (fun s => SimMemory.mem s ∈ hs));
      try apply H.
    + intros s a w0 Hs. by apply untouched_read.
    + intros s a b w0 Hs. by apply untouched_write.
    + apply elem_of_cons. by left.
    + apply elem_of_cons. by left.
    + apply Forall_forall. intros o Ho. apply elem_of_cons. right.
      by apply list_elem_of_fmap_2.
Qed.

(** ** Errors of [load] and [store] *)

Lemma returns_ret {A} (a : A) : returns (mret a).
Proof. intros w. by eexists _, _. Qed.

Lemma returns_lift {A} (f : World -> A * World) : returns (lift f).
Proof. intros w. unfold lift. destruct (f w). by eexists _, _. Qed.

Lemma bind_ok {A B} (m : M A) (f : A -> M B) w :
  (exists a w', m w = (Ok a, w')) -> (forall a, returns (f a)) ->
  exists b w', (m ≫= f) w = (Ok b, w').
Proof.
  intros (a & w' & Hm) Hf. unfold mbind, M_bind. rewrite Hm. apply Hf.
Qed.

Lemma returns_bind {A B} (m : M A) (f : A -> M B) :
  returns m -> (forall a, returns (f a)) -> returns (m ≫= f).
Proof. intros Hm Hf w. by apply bind_ok. Qed.

Lemma returns_for_list {A B} (f : A -> M B) l :
  (forall a, returns (f a)) -> returns (for_list f l).
Proof.
  intros Hf. induction l as [|a l IH]; [apply returns_ret|].
  cbn [for_list]. apply returns_bind; [apply Hf|]. intros b.
  apply returns_bind; [apply IH|]. intros bs. apply returns_ret.
Qed.

Lemma concretize_addr_unsat self v strategies w :
  SimValue.is_symbolic v = true -> SimValue.satisfiable v = false ->
  SimMemory.concretize_addr self (PyValue v) strategies w
  = (Raise (SimMemoryError unsat_msg),
     log_queries v [QIsSymbolic; QSatisfiable] w).
Proof.
  intros Hs Hn. unfold SimMemory.concretize_addr, mbind, M_bind, ask, raise.
  by rewrite Hs, Hn.
Qed.

(** For a value object that is not unique and not unsatisfiable, the
    read order and the write order both give a result: they end in
    ["any"]. *)
Lemma concretize_orders_ok self v w :
  SimValue.is_unique v = false ->
  (SimValue.is_symbolic v = true -> SimValue.satisfiable v = true) ->
  (exists addrs, (SimMemory.concretize_read_addr self (PyValue v) w).1 = Ok addrs)
  /\ (SimMemory.concretize_write_addr self (PyValue v) w).1
     = Ok [SimValue.any v].
Proof.
  intros Hu Hsat.
  unfold SimMemory.concretize_read_addr, SimMemory.concretize_write_addr.
  rewrite !concretize_addr_ambiguous by done. simpl. unfold strategy_yield.
  simpl. split; [|done]. case_decide; eauto.
Qed.

(** X4. The only error of [load] and [store]. Both raise exactly when
    the address is a value object that is not unique, is symbolic and is
    not satisfiable, and then the error is the [SimMemoryError] "Trying
    to concretize with unsat constraints." and nothing has been read,
    written or counted. For every other address, of any kind, a load of
    a positive number of bytes (for a value object, one whose
    enumeration [any_n] is not empty) and a store of a well-formed value
    of whole bytes return normally: the orders of strategies they use
    end in ["any"], so "Unable to concretize address with the provided
    strategies." and an index error on the first candidate cannot
    happen. *)
Theorem load_store_raise_only_unsat self dst n cnt w :
  (if unsatisfiable_address dst
   then (SimMemory.load self dst n w).1 = Raise (SimMemoryError unsat_msg)
        /\ (SimMemory.store self dst cnt w).1 = Raise (SimMemoryError unsat_msg)
        /\ same_memory w (SimMemory.load self dst n w).2
        /\ same_memory w (SimMemory.store self dst cnt w).2
   else (0 < n ->
         (forall v, dst = PyValue v ->
            SimValue.any_n v (SimMemory.limit self) ≠ []) ->
         exists r, (SimMemory.load self dst n w).1 = Ok r)
        /\ (wf cnt = true -> (exists m, size cnt = 8 * m) ->
            exists cs, (SimMemory.store self dst cnt w).1 = Ok cs)).
Proof.
  assert (Hmain : if unsatisfiable_address dst
   then (SimMemory.load self dst n w).1 = Raise (SimMemoryError unsat_msg)
        /\ (SimMemory.store self dst cnt w).1 = Raise (SimMemoryError unsat_msg)
        /\ same_memory w (SimMemory.load self dst n w).2
        /\ same_memory w (SimMemory.store self dst cnt w).2
   else (exists r, (SimMemory.load self dst n w).1 = Ok r)
        /\ (exists cs, (SimMemory.store self dst cnt w).1 = Ok cs));
    [|destruct (unsatisfiable_address dst); [done|]; destruct Hmain; by split].
  destruct (concrete_addr dst) as [a|] eqn:Hc.
  - assert (Hok : unsatisfiable_address dst = false).
    { destruct dst as [z|v]; [done|]. simpl in *.
      by destruct (SimValue.is_unique v). }
    rewrite Hok, (load_concrete _ _ a), (store_concrete _ _ a) by done.
    destruct (SimMemory.read_from self a n (asked dst w)). split; by eexists.
  - destruct dst as [z|v]; [done|]. simpl in Hc.
    destruct (SimValue.is_unique v) eqn:Hu; [done|]. clear Hc.
    set (wq := log_query v QIsUnique w).
    assert (Hload : SimMemory.load self (PyValue v) n w
      = (addrs ← SimMemory.concretize_read_addr self (PyValue v);
         match addrs with
         | [a] => r ← lift (SimMemory.read_from self a n);
                  mret (r, [Eq (SimValue.expr v) (OInt a)])
         | _ => k ← lift next_addr_mem;
                let m := BitVec (addr_name (SimMemory.id self) k) (n * 8) in
                cs ← for_list (fun addr =>
                                 r ← lift (SimMemory.read_from self addr n);
                                 mret (And [Eq m (OExpr r);
                                            Eq (SimValue.expr v) (OInt addr)]))
                              addrs;
                mret (m, [Or cs])
         end) wq).
    { unfold SimMemory.load. unfold mbind at 1. unfold M_bind at 1.
      unfold ask at 1. by rewrite Hu. }
    rewrite Hload, (store_ambiguous self v cnt w Hu). fold wq.
    unfold unsatisfiable_address. rewrite Hu.
    destruct (SimValue.is_symbolic v) eqn:Hsym,
      (SimValue.satisfiable v) eqn:Hsat; cbn [negb andb].
    2: { unfold SimMemory.concretize_read_addr, SimMemory.concretize_write_addr.
         unfold mbind, M_bind.
         rewrite !concretize_addr_unsat by done. cbn [fst snd].
         repeat split; done. }
    all: destruct (concretize_orders_ok self v wq Hu) as [[addrs Hr] Hw];
      [congruence|].
    all: split;
      [|destruct (SimMemory.concretize_write_addr self (PyValue v) wq)
          as [r2 w2]; simpl in Hw; subst r2; by eexists].
    all: assert (Hrd : forall a, returns
           (r ← lift (SimMemory.read_from self a n);
            mret (r, [Eq (SimValue.expr v) (OInt a)])))
      by (intros a; apply returns_bind; [apply returns_lift|];
          intros r; apply returns_ret).
    all: match goal with |- context [(?m ≫= ?f) ?w0] =>
        destruct (bind_ok m f w0) as (b & w' & ->) end; [| |by eexists].
    all: try (destruct (SimMemory.concretize_read_addr self (PyValue v) wq)
      as [r1 w1]; simpl in Hr; subst r1; by eexists _, _).
    all: intros [|a [|a' rest]]; [|apply Hrd|].
    all: apply returns_bind; [apply returns_lift|]; intros k; cbv zeta;
      (apply returns_bind; [|intros cs; apply returns_ret]);
      apply returns_for_list; intros a0;
      (apply returns_bind; [apply returns_lift|]); intros r;
      apply returns_ret.
Qed.

(** ** Parts of a stored value, disjoint stores *)

Lemma stored_at_write_to self a X n w :
  live (SimMemory.mem self) w -> size X = 8 * n ->
  stored_at self a X n (SimMemory.write_to self a X w).
Proof.
  intros Hl Hsz k Hk.
  destruct (Z_of_nat_complete n) as [m ->]; [lia|].
  by apply (write_to_spec self a X m w Hsz).
Qed.

(** The value of consecutive bytes of [X], concatenated. *)
Lemma eval_concat_sub rho X (n i : Z) (len : nat) acc :
  size X = 8 * n -> 0 <= i -> i + Z.of_nat len <= n ->
  foldl (fun acc a => acc * 2 ^ size a + eval rho a) acc
        (byte_of X <$> seqZ i (Z.of_nat len))
  = acc * 2 ^ (8 * Z.of_nat len)
    + (eval rho X / 2 ^ (8 * (n - i - Z.of_nat len))) mod 2 ^ (8 * Z.of_nat len).
Proof.
  intros Hsz. revert i acc. induction len as [|len IH]; intros i acc Hi Hn.
  - simpl. rewrite Z.mod_1_r. lia.
  - rewrite Nat2Z.inj_succ, seqZ_cons by lia. cbn [fmap list_fmap foldl].
    change (list_fmap Z bv (byte_of X)) with (fmap (M:=list) (byte_of X)).
    replace (Z.pred (Z.succ (Z.of_nat len))) with (Z.of_nat len) by lia.
    rewrite IH by lia. rewrite eval_byte_of, Hsz.
    replace (size (byte_of X i)) with 8 by (simpl; lia).
    replace (8 * n - 8 * i - 8)
      with (8 * (n - Z.succ i - Z.of_nat len) + 8 * Z.of_nat len) by lia.
    replace (8 * (n - i - Z.succ (Z.of_nat len)))
      with (8 * (n - Z.succ i - Z.of_nat len)) by lia.
    set (D := eval rho X / 2 ^ (8 * (n - Z.succ i - Z.of_nat len))).
    rewrite Z.pow_add_r by lia. rewrite <- Z.div_div by lia. fold D.
    replace (8 * Z.succ (Z.of_nat len)) with (8 * Z.of_nat len + 8) by lia.
    rewrite (Z.pow_add_r 2 (8 * Z.of_nat len) 8) by lia.
    change (2 ^ 8) with 256.
    rewrite (Z.rem_mul_r D) by lia. lia.
Qed.

(** Reading a part of a stored value: the bytes [i] to [i + len - 1]. *)
Lemma load_sub_range self a X n i len w :
  stored_at self a X n w -> size X = 8 * n ->
  0 <= i -> 0 < len -> i + len <= n ->
  exists r,
    SimMemory.load self (PyInt (a + i)) len w = (Ok (r, []), w)
    /\ size r = 8 * len
    /\ forall rho,
         eval rho r = (eval rho X / 2 ^ (8 * (n - i - len))) mod 2 ^ (8 * len).
Proof.
  intros Hst Hsz Hi Hlen Hn.
  destruct (Z_of_nat_complete len) as [m ->]; [lia|].
  assert (Hr : SimMemory.read_bytes self (a + i) (seqZ 0 (Z.of_nat m)) w
               = (byte_of X <$> seqZ i (Z.of_nat m), w)).
  { apply read_bytes_present.
    replace (seqZ i (Z.of_nat m)) with (Z.add i <$> seqZ 0 (Z.of_nat m))
      by (rewrite fmap_add_seqZ; f_equal; lia).
    rewrite <- list_fmap_compose.
    apply Forall2_fmap_r, Forall_Forall2_diag, Forall_seqZ.
    intros k Hk. simpl. rewrite <- Z.add_assoc. apply Hst. lia. }
  unfold SimMemory.load, mbind, M_bind, lift, SimMemory.read_from.
  rewrite py_range_unit, Hr.
  eexists. split; [reflexivity|].
  destruct m as [|[|m]]; [lia| |].
  - simpl. split; [lia|]. intros rho. rewrite Hsz. f_equal; [f_equal; f_equal; lia | f_equal; lia].
  - assert (Hcat : forall l : list bv, (2 <= length l)%nat ->
              match l with [b] => b | _ => Concat l end = Concat l).
    { intros [|? [|? ?]]; simpl; intros; try lia; done. }
    rewrite Hcat by (rewrite length_fmap, length_seqZ; lia).
    split; [by rewrite size_concat_bytes, length_seqZ, Z2Nat.id by lia|].
    intros rho. cbn [eval]. rewrite (eval_concat_sub rho X n) by lia. lia.
Qed.

(** What a store holds at every address after [write_to]. *)
Lemma write_to_get self a X n w h k :
  live (SimMemory.mem self) w -> size X = 8 * n ->
  mem_get h k (SimMemory.write_to self a X w)
  = if decide (h = SimMemory.mem self /\ a <= k < a + n)
    then Some (byte_of X (k - a)) else mem_get h k w.
Proof.
  intros Hl Hsz. destruct (decide (0 <= n)) as [Hn|Hn].
  - destruct (Z_of_nat_complete n) as [m ->]; [lia|].
    destruct (write_to_spec self a X m w Hsz) as (Hin & Hout & _).
    case_decide as Hd.
    + destruct Hd as [-> Hk]. replace k with (a + (k - a)) at 1 by lia.
      apply Hin; [done|lia].
    + apply Hout. destruct (decide (h = SimMemory.mem self)); [right|left]; tauto.
  - rewrite decide_False by lia. unfold SimMemory.write_to, py_range.
    rewrite Hsz. replace ((8 * n - 0 + 8 - 1) / 8) with n; [by rewrite seqZ_nil by lia|].
    replace (8 * n - 0 + 8 - 1) with (n * 8 + 7) by lia.
    rewrite Z.div_add_l by lia. change (7 / 8) with 0. lia.
Qed.

Lemma stored_at_asked self a X n dst w :
  stored_at self a X n w -> stored_at self a X n (asked dst w).
Proof. intros H k Hk. rewrite asked_mem_get. by apply H. Qed.

(** X5. Reading a part of a stored value. After a store of a value [X]
    of [n] bytes at a concrete address [a], a load of [len] bytes at
    [a + i], for any part [i .. i + len - 1] of the range, returns with
    no constraint and no change of the world a term of [8 * len] bits
    whose value is that part of [X]: bits [8 * (n - i - len)] and up.
    In particular, for a well-formed [X], the first [len] bytes and the
    remaining [n - len] bytes put together give the value of [X]. *)
Theorem load_part_of_stored_value self dst a X n w :
  live (SimMemory.mem self) w ->
  concrete_addr dst = Some a ->
  size X = 8 * n ->
  exists w1,
    SimMemory.store self dst X w = (Ok [], w1)
    /\ (forall i len, 0 <= i -> 0 < len -> i + len <= n ->
          exists r,
            SimMemory.load self (PyInt (a + i)) len w1 = (Ok (r, []), w1)
            /\ size r = 8 * len
            /\ forall rho,
                 eval rho r
                 = (eval rho X / 2 ^ (8 * (n - i - len))) mod 2 ^ (8 * len))
    /\ (wf X = true ->
        forall len, 0 < len < n ->
          exists hi lo,
            SimMemory.load self (PyInt a) len w1 = (Ok (hi, []), w1)
            /\ SimMemory.load self (PyInt (a + len)) (n - len) w1
               = (Ok (lo, []), w1)
            /\ forall rho,
                 eval rho X = eval rho hi * 2 ^ (8 * (n - len)) + eval rho lo).
Proof.
  intros Hl Hdst Hsz. eexists. split; [by apply store_concrete|].
  assert (Hst : stored_at self a X n
                  (SimMemory.write_to self a X (asked dst w))).
  { apply stored_at_write_to; [by apply asked_live|done]. }
  split.
  - intros i len Hi Hlen Hn. by apply (load_sub_range self a X n).
  - intros Hwf len Hlen.
    destruct (load_sub_range self a X n 0 len _ Hst Hsz) as (hi & Hhi & _ & Ehi);
      [lia..|].
    destruct (load_sub_range self a X n len (n - len) _ Hst Hsz)
      as (lo & Hlo & _ & Elo); [lia..|].
    rewrite Z.add_0_r in Hhi. exists hi, lo. split; [done|]. split; [done|].
    intros rho. rewrite Ehi, Elo.
    destruct (eval_range rho X Hwf) as [_ Hr]. rewrite Hsz in Hr.
    replace (8 * (n - len - (n - len))) with 0 by lia.
    replace (8 * (n - 0 - len)) with (8 * (n - len)) by lia.
    rewrite Z.div_1_r.
    assert (H2 : 0 < 2 ^ (8 * (n - len))) by (apply Z.pow_pos_nonneg; lia).
    assert (Hq : 0 <= eval rho X / 2 ^ (8 * (n - len)) < 2 ^ (8 * len)).
    { split; [apply Z.div_pos; lia|]. apply Z.div_lt_upper_bound; [lia|].
      rewrite <- Z.pow_add_r by lia.
      replace (8 * (n - len) + 8 * len) with (8 * n) by lia. lia. }
    rewrite (Z.mod_small _ _ Hq).
    pose proof (Z.div_mod (eval rho X) (2 ^ (8 * (n - len)))). lia.
Qed.

Lemma load_part_of_stored_value_witness :
  exists w1 r,
    SimMemory.store demo_view.1 (PyInt 4096) (BitVecVal 0x123456 24) demo_view.2
    = (Ok [], w1)
    /\ SimMemory.load demo_view.1 (PyInt (4096 + 1)) 2 w1 = (Ok (r, []), w1)
    /\ forall rho, eval rho r = 0x3456.
Proof.
  destruct (load_part_of_stored_value demo_view.1 (PyInt 4096) 4096
              (BitVecVal 0x123456 24) 3 demo_view.2)
    as (w1 & H1 & H2 & _).
  - vm_compute. eauto.
  - reflexivity.
  - reflexivity.
  - destruct (H2 1 2) as (r & Hr & _ & Er); [lia..|].
    exists w1, r. split; [exact H1|]. split; [exact Hr|].
    intros rho. rewrite Er. reflexivity.
Defined.

Lemma same_memory_stored_at self a X n w w' :
  same_memory w w' -> stored_at self a X n w -> stored_at self a X n w'.
Proof. intros Hs H k Hk. rewrite (same_memory_mem_get w w') by done. by apply H. Qed.

(** X6. A store through an address with several possible values. For a
    value object that is not unique and not unsatisfiable, [store] picks
    the one address [any()], writes the whole value there, and returns
    the single constraint [expr == any()] that pins the address;
    candidates of the value object other than [any()] are not written.
    A load of the same size at the plain integer [any()] then returns
    the value, and every entry outside the written range, in this store
    and in every other one, is as before. *)
Theorem store_pins_ambiguous_address self v X n w :
  live (SimMemory.mem self) w ->
  SimValue.is_unique v = false ->
  (SimValue.is_symbolic v = true -> SimValue.satisfiable v = true) ->
  wf X = true ->
  size X = 8 * n ->
  let a := SimValue.any v in
  exists w1 r,
    SimMemory.store self (PyValue v) X w
    = (Ok [Eq (SimValue.expr v) (OInt a)], w1)
    /\ SimMemory.load self (PyInt a) n w1 = (Ok (r, []), w1)
    /\ (forall rho, eval rho r = eval rho X)
    /\ (forall h k, h ≠ SimMemory.mem self \/ ~ (a <= k < a + n) ->
          mem_get h k w1 = mem_get h k w).
Proof.
  intros Hl Hu Hsat Hwf Hsz a.
  assert (Hpos : 0 < size X) by (apply (eval_range (fun _ _ => 0)); done).
  set (wq := log_query v QIsUnique w).
  pose proof (concretize_addr_memory self (PyValue v)
                ["free"; "writeable"; "any"] wq) as Hmem.
  destruct (concretize_orders_ok self v wq Hu Hsat) as [_ Hw].
  rewrite (store_ambiguous self v X w Hu). fold wq.
  unfold SimMemory.concretize_write_addr in *.
  destruct (SimMemory.concretize_addr self (PyValue v) _ wq) as [r1 w0].
  simpl in Hw, Hmem. subst r1. fold a.
  assert (Hww : same_memory w w0).
  { eapply same_memory_trans; [apply same_memory_log|exact Hmem]. }
  assert (Hl0 : live (SimMemory.mem self) w0) by (by apply (same_memory_live w)).
  destruct (load_sub_range self a X n 0 n (SimMemory.write_to self a X w0))
    as (r & Hr & _ & Er); [by apply stored_at_write_to|done|lia..|].
  rewrite Z.add_0_r in Hr.
  exists (SimMemory.write_to self a X w0), r.
  split; [done|]. split; [done|]. split.
  - intros rho. rewrite Er. replace (8 * (n - 0 - n)) with 0 by lia.
    rewrite Z.div_1_r. apply Z.mod_small. rewrite <- Hsz. by apply eval_range.
  - intros h k Hk. rewrite (write_to_get self a X n) by done.
    rewrite decide_False by tauto. by apply same_memory_mem_get.
Qed.

Lemma store_pins_ambiguous_address_witness :
  exists w1 r,
    SimMemory.store demo_view.1 (PyValue two_way) (BitVecVal 0x1234 16)
                    demo_view.2
    = (Ok [Eq (BitVec "sel" 64) (OInt 4096)], w1)
    /\ SimMemory.load demo_view.1 (PyInt 4096) 2 w1 = (Ok (r, []), w1)
    /\ (forall rho, eval rho r = 0x1234)
    /\ mem_get (SimMemory.mem demo_view.1) 4100 w1 = None.
Proof.
  destruct (store_pins_ambiguous_address demo_view.1 two_way
              (BitVecVal 0x1234 16) 2 demo_view.2)
    as (w1 & r & H1 & H2 & H3 & H4).
  - vm_compute. eauto.
  - reflexivity.
  - reflexivity.
  - reflexivity.
  - reflexivity.
  - exists w1, r. split; [exact H1|]. split; [exact H2|]. split.
    + intros rho. rewrite H3. reflexivity.
    + rewrite H4; [reflexivity|]. right. simpl. lia.
Defined.

(** X7. Stores at disjoint ranges do not disturb each other. After a
    store of [X] ([n] bytes at [a]) and a store of [Y] ([m] bytes at
    [b]) through the same view, with the two ranges disjoint, a load of
    either range returns the value stored there, and the content of
    every store at every address is the same as when the two stores are
    made in the other order. *)
Theorem disjoint_stores_commute self a X n b Y m w :
  live (SimMemory.mem self) w ->
  wf X = true -> size X = 8 * n ->
  wf Y = true -> size Y = 8 * m ->
  a + n <= b \/ b + m <= a ->
  let xy := (SimMemory.store self (PyInt b) Y
               (SimMemory.store self (PyInt a) X w).2).2 in
  let yx := (SimMemory.store self (PyInt a) X
               (SimMemory.store self (PyInt b) Y w).2).2 in
  (exists rx ry,
     SimMemory.load self (PyInt a) n xy = (Ok (rx, []), xy)
     /\ SimMemory.load self (PyInt b) m xy = (Ok (ry, []), xy)
     /\ forall rho, eval rho rx = eval rho X /\ eval rho ry = eval rho Y)
  /\ forall h k, mem_get h k xy = mem_get h k yx.
Proof.
  intros Hl HwfX HszX HwfY HszY Hdis xy yx.
  assert (HposX : 0 < size X) by (apply (eval_range (fun _ _ => 0)); done).
  assert (HposY : 0 < size Y) by (apply (eval_range (fun _ _ => 0)); done).
  unfold xy, yx. rewrite !(store_concrete _ (PyInt _) _ _ _ eq_refl).
  cbn [snd asked].
  set (wx := SimMemory.write_to self a X w).
  set (wy := SimMemory.write_to self b Y w).
  assert (Hlx : live (SimMemory.mem self) wx)
    by (by apply (write_to_frame self a X w)).
  assert (Hly : live (SimMemory.mem self) wy)
    by (by apply (write_to_frame self b Y w)).
  assert (Hget : forall h k,
            mem_get h k (SimMemory.write_to self b Y wx)
            = if decide (h = SimMemory.mem self /\ b <= k < b + m)
              then Some (byte_of Y (k - b))
              else if decide (h = SimMemory.mem self /\ a <= k < a + n)
                   then Some (byte_of X (k - a)) else mem_get h k w).
  { intros h k. rewrite (write_to_get self b Y m) by done.
    unfold wx. by rewrite (write_to_get self a X n) by done. }
  split.
  - destruct (load_sub_range self a X n 0 n (SimMemory.write_to self b Y wx))
      as (rx & Hrx & _ & Erx); [|done|lia..|].
    { intros k Hk. rewrite Hget, decide_False by lia.
      rewrite decide_True by (split; [done|lia]). f_equal. f_equal. lia. }
    destruct (load_sub_range self b Y m 0 m (SimMemory.write_to self b Y wx))
      as (ry & Hry & _ & Ery); [by apply stored_at_write_to|done|lia..|].
    rewrite Z.add_0_r in Hrx, Hry. exists rx, ry.
    split; [done|]. split; [done|]. intros rho. rewrite Erx, Ery.
    replace (8 * (n - 0 - n)) with 0 by lia.
    replace (8 * (m - 0 - m)) with 0 by lia. rewrite !Z.div_1_r.
    split; apply Z.mod_small.
    + rewrite <- HszX. by apply eval_range.
    + rewrite <- HszY. by apply eval_range.
  - intros h k. rewrite Hget. rewrite (write_to_get self a X n) by done.
    unfold wy. rewrite (write_to_get self b Y m) by done.
    repeat case_decide; try done. lia.
Qed.

Lemma disjoint_stores_commute_witness :
  let v := demo_view.1 in
  let xy := (SimMemory.store v (PyInt 4098) (BitVecVal 0x56 8)
               (SimMemory.store v (PyInt 4096) (BitVecVal 0x1234 16)
                                demo_view.2).2).2 in
  exists rx ry,
    SimMemory.load v (PyInt 4096) 2 xy = (Ok (rx, []), xy)
    /\ SimMemory.load v (PyInt 4098) 1 xy = (Ok (ry, []), xy)
    /\ forall rho, eval rho rx = 0x1234 /\ eval rho ry = 0x56.
Proof.
  destruct (disjoint_stores_commute demo_view.1 4096 (BitVecVal 0x1234 16) 2
              4098 (BitVecVal 0x56 8) 1 demo_view.2)
    as [(rx & ry & H1 & H2 & H3) _].
  - vm_compute. eauto.
  - reflexivity.
  - reflexivity.
  - reflexivity.
  - reflexivity.
  - left. lia.
  - exists rx, ry. split; [exact H1|]. split; [exact H2|].
    intros rho. destruct (H3 rho) as [-> ->]. split; reflexivity.
Defined.

(** ** Membership *)

(** X8. [__contains__] never raises and changes no store and no
    counter. Its answer is whether the store holds an entry at the
    address it looks up. For a symbolic value object that is
    unsatisfiable, or that has several possible values, there is no such
    address and the answer is [False] whatever the store holds: the only
    strategy it passes, ["allocated"], yields nothing, and the resulting
    [SimMemoryError] is caught. *)
Theorem contains_never_raises self dst w :
  (SimMemory.contains self dst w).1
  = Ok (match lookup_address dst with
        | Some a => bool_decide (is_Some (mem_get (SimMemory.mem self) a w))
        | None => false
        end)
  /\ same_memory w (SimMemory.contains self dst w).2
  /\ (forall v, dst = PyValue v -> SimValue.is_symbolic v = true ->
        SimValue.is_unique v = false ->
        (SimMemory.contains self dst w).1 = Ok false).
Proof.
  assert (Hmain : (SimMemory.contains self dst w).1
    = Ok (match lookup_address dst with
          | Some a => bool_decide (is_Some (mem_get (SimMemory.mem self) a w))
          | None => false
          end)
    /\ same_memory w (SimMemory.contains self dst w).2).
  { destruct dst as [z|v]; [split; [done|apply same_memory_refl]|].
    unfold SimMemory.contains, lookup_address, SimMemory.concretize_addr,
      catch_SimMemoryError, index0, mbind, M_bind, ask, lift, raise, mret, M_ret.
    destruct (SimValue.is_symbolic v); cbn [fst snd].
    - destruct (SimValue.satisfiable v); cbn [negb andb fst snd].
      + destruct (SimValue.is_unique v); cbn [fst snd]; by repeat split.
      + by repeat split.
    - by repeat split. }
  destruct Hmain as [H1 H2]. split; [done|]. split; [done|].
  intros v -> Hs Hu. rewrite H1. simpl. rewrite Hs, Hu.
  by rewrite andb_false_r.
Qed.

Lemma contains_never_raises_witness :
  exists w,
    is_Some (mem_get (SimMemory.mem demo_view.1) 4096 w)
    /\ is_Some (mem_get (SimMemory.mem demo_view.1) 4100 w)
    /\ (SimMemory.contains demo_view.1 (PyValue two_way) w).1 = Ok false.
Proof.
  set (w := (SimMemory.store demo_view.1 (PyInt 4096) (BitVecVal 0 40)
               demo_view.2).2).
  exists w. split; [vm_compute; eauto|]. split; [vm_compute; eauto|].
  destruct (contains_never_raises demo_view.1 (PyValue two_way) w)
    as (_ & _ & H). by apply (H two_way).
Defined.

(** What [read_from] leaves in the store. *)
Lemma read_from_present self a n w :
  live (SimMemory.mem self) w ->
  let w' := (SimMemory.read_from self a n w).2 in
  (forall k, a <= k < a + n -> is_Some (mem_get (SimMemory.mem self) k w'))
  /\ (forall h k, h ≠ SimMemory.mem self \/ ~ (a <= k < a + n) ->
        mem_get h k w' = mem_get h k w).
Proof.
  intros Hl. unfold SimMemory.read_from. rewrite py_range_unit.
  pose proof (read_bytes_spec self a (seqZ 0 n) w) as H.
  destruct (SimMemory.read_bytes self a (seqZ 0 n) w) as [buff w'].
  destruct H as (_ & Hlen & Hout & Hin & _). cbn [snd]. split.
  - intros k Hk. specialize (Hin Hl).
    assert (Hi : seqZ 0 n !! Z.to_nat (k - a) = Some (k - a)).
    { rewrite lookup_seqZ. split; lia. }
    destruct (Forall2_lookup_l _ _ _ _ _ Hin Hi) as (b & _ & Hb).
    replace (a + (k - a)) with k in Hb by lia. by exists b.
  - intros h k Hk. apply Hout. destruct Hk as [?|Hk]; [by left|right].
    intros Hel. apply list_elem_of_fmap in Hel as (i & -> & Hi).
    apply elem_of_seqZ in Hi. lia.
Qed.

(** X9. Addresses read or written are in the memory afterwards. After
    a load of [n] bytes at a concrete address [a], and after a store of
    a value of [n] bytes there, [k in memory] is [True] for every [k] of
    the range [a .. a + n - 1]: a load creates the entries it does not
    find. For every address outside the range, the answer is the same as
    before the call. *)
Theorem touched_addresses_are_contained self dst a n X w :
  live (SimMemory.mem self) w ->
  concrete_addr dst = Some a ->
  size X = 8 * n ->
  let wl := (SimMemory.load self dst n w).2 in
  let ws := (SimMemory.store self dst X w).2 in
  (forall k, a <= k < a + n ->
     (SimMemory.contains self (PyInt k) wl).1 = Ok true
     /\ (SimMemory.contains self (PyInt k) ws).1 = Ok true)
  /\ (forall k, ~ (a <= k < a + n) ->
        (SimMemory.contains self (PyInt k) wl).1
        = (SimMemory.contains self (PyInt k) w).1
        /\ (SimMemory.contains self (PyInt k) ws).1
           = (SimMemory.contains self (PyInt k) w).1).
Proof.
  intros Hl Hdst Hsz wl ws. unfold wl, ws.
  rewrite (load_concrete _ _ a), (store_concrete _ _ a) by done.
  assert (Hl' : live (SimMemory.mem self) (asked dst w)) by (by apply asked_live).
  destruct (read_from_present self a n (asked dst w) Hl') as [Hin Hout].
  destruct (SimMemory.read_from self a n (asked dst w)) as [r w'].
  cbn [snd] in *.
  assert (Hc : forall k w0, (SimMemory.contains self (PyInt k) w0).1
             = Ok (bool_decide (is_Some (mem_get (SimMemory.mem self) k w0))))
    by done.
  split; intros k Hk; rewrite !Hc.
  - split; f_equal; apply bool_decide_eq_true.
    + by apply Hin.
    + rewrite (write_to_get self a X n) by done.
      rewrite decide_True by done. by eexists.
  - split; f_equal.
    + rewrite Hout by (by right). by rewrite asked_mem_get.
    + rewrite (write_to_get self a X n) by done.
      rewrite decide_False by tauto. by rewrite asked_mem_get.
Qed.

Lemma touched_addresses_are_contained_witness :
  (SimMemory.contains demo_view.1 (PyInt 4096) demo_view.2).1 = Ok false
  /\ (SimMemory.contains demo_view.1 (PyInt 4097)
        (SimMemory.load demo_view.1 (PyInt 4096) 2 demo_view.2).2).1 = Ok true.
Proof.
  split; [reflexivity|].
  destruct (touched_addresses_are_contained demo_view.1 (PyInt 4096) 4096 2
              (BitVecVal 0 16) demo_view.2) as [H _].
  - vm_compute. eauto.
  - reflexivity.
  - reflexivity.
  - apply (H 4097). lia.
Defined.

(** ** Repeated loads *)

(** X10. Loads are repeatable. A load of [n > 0] bytes at a plain integer
    address returns some term [r] and no constraint; the same load made
    again returns the same [r] and changes nothing, and it still returns
    [r] after any other load at a plain integer address, through this
    view or another one, of a range that may overlap: the symbolic bytes
    a load creates are created once. *)
Theorem loads_are_repeatable self other a n b m w :
  live (SimMemory.mem self) w ->
  0 < n ->
  exists r w1,
    SimMemory.load self (PyInt a) n w = (Ok (r, []), w1)
    /\ SimMemory.load self (PyInt a) n w1 = (Ok (r, []), w1)
    /\ let w2 := (SimMemory.load other (PyInt b) m w1).2 in
       SimMemory.load self (PyInt a) n w2 = (Ok (r, []), w2).
Proof.
  intros Hl _. rewrite (load_concrete self (PyInt a) a n w eq_refl).
  cbn [asked]. destruct (SimMemory.read_from self a n w) as [r w1] eqn:Hr.
  exists r, w1. split; [done|].
  assert (Hrep : forall w2, extends w1 w2 ->
            SimMemory.load self (PyInt a) n w2 = (Ok (r, []), w2)).
  { intros w2 Hext. rewrite (load_concrete self (PyInt a) a n w2 eq_refl).
    cbn [asked]. by rewrite (read_from_stable self a n w r w1 w2). }
  split; [apply Hrep, extends_refl|]. cbv zeta. apply Hrep.
  rewrite (load_concrete other (PyInt b) b m w1 eq_refl). cbn [asked].
  pose proof (read_from_spec other b m w1) as H.
  destruct (SimMemory.read_from other b m w1). by destruct H.
Qed.

Lemma loads_are_repeatable_witness :
  exists r w1,
    SimMemory.load demo_view.1 (PyInt 4096) 4 demo_view.2 = (Ok (r, []), w1)
    /\ SimMemory.load demo_view.1 (PyInt 4096) 4 w1 = (Ok (r, []), w1).
Proof.
  destruct (loads_are_repeatable demo_view.1 demo_view.1 4096 4 4098 4
              demo_view.2) as (r & w1 & H1 & H2 & _).
  - vm_compute. eauto.
  - lia.
  - exists r, w1. split; [exact H1|exact H2].
Defined.

(** ** Construction and copies *)

Lemma new_dict_spec content w :
  let '(h, w') := new_dict content w in
  ~ live h w /\ live h w'
  /\ (forall k, mem_get h k w' = content !! k)
  /\ (forall h' k, h' ≠ h -> mem_get h' k w' = mem_get h' k w)
  /\ (forall h', live h' w -> live h' w')
  /\ addr_mem_counter w' = addr_mem_counter w
  /\ var_mem_counter w' = var_mem_counter w
  /\ merge_mem_counter w' = merge_mem_counter w
  /\ solver_log w' = solver_log w.
Proof.
  unfold new_dict, alloc, live, mem_get. cbn [heap set_heap].
  set (h := fresh (dom (heap w))).
  assert (Hf : heap w !! h = None).
  { apply not_elem_of_dom. apply is_fresh. }
  split; [rewrite Hf; by intros [? ?]|].
  split; [rewrite lookup_insert_eq; by eexists|].
  split.
  { intros k. rewrite lookup_insert_eq. simpl.
    unfold cooldict.getitem, cooldict.ancestry_line. simpl.
    rewrite decide_False by set_solver. by destruct (content !! k). }
  split; [intros h' k Hne; by rewrite lookup_insert_ne|].
  split; [|done].
  intros h' [d Hd]. destruct (decide (h' = h)) as [->|Hne]; [congruence|].
  rewrite lookup_insert_ne by done. by eexists.
Qed.

(** X11. What [SimMemory(backer)] starts from. With no backer or a plain
    [dict], the view gets a store of its own, new in the world, that
    holds exactly the entries of the [dict] (none without a backer, so
    that no address is in the memory), and no existing store changes.
    With a [BranchingDict] the view uses that very object, not a copy:
    the world is unchanged, and a value stored through one view made
    over it is what a load through another view made over it returns. *)
Theorem init_backer bits memory_id w :
  (forall content,
     let v := (SimMemory.init (SimMemory.DictBacker content) bits memory_id w).1 in
     let w' := (SimMemory.init (SimMemory.DictBacker content) bits memory_id w).2 in
     ~ live (SimMemory.mem v) w /\ live (SimMemory.mem v) w'
     /\ (forall k, mem_get (SimMemory.mem v) k w' = content !! k)
     /\ (forall h k, live h w -> mem_get h k w' = mem_get h k w))
  /\ (let v := (SimMemory.init SimMemory.NoBacker bits memory_id w).1 in
      let w' := (SimMemory.init SimMemory.NoBacker bits memory_id w).2 in
      live (SimMemory.mem v) w'
      /\ forall k, SimMemory.contains v (PyInt k) w' = (Ok false, w'))
  /\ (forall h bits' memory_id' a X n,
        let v1 := (SimMemory.init (SimMemory.BranchingBacker h) bits memory_id w).1 in
        let v2 := (SimMemory.init (SimMemory.BranchingBacker h) bits' memory_id' w).1 in
        (SimMemory.init (SimMemory.BranchingBacker h) bits memory_id w).2 = w
        /\ (live h w -> wf X = true -> size X = 8 * n ->
            exists r w1,
              SimMemory.store v1 (PyInt a) X w = (Ok [], w1)
              /\ SimMemory.load v2 (PyInt a) n w1 = (Ok (r, []), w1)
              /\ forall rho, eval rho r = eval rho X)).
Proof.
  split; [|split].
  - intros content. unfold SimMemory.init.
    pose proof (new_dict_spec content w) as H.
    destruct (new_dict content w) as [h w']. cbn [fst snd SimMemory.mem].
    destruct H as (H1 & H2 & H3 & H4 & _).
    split; [done|]. split; [done|]. split; [done|].
    intros h' k Hl. apply H4. by intros ->.
  - unfold SimMemory.init. pose proof (new_dict_spec ∅ w) as H.
    destruct (new_dict ∅ w) as [h w']. cbn [fst snd].
    destruct H as (_ & H2 & H3 & _). split; [done|]. intros k.
    unfold SimMemory.contains, mbind, M_bind, mret, M_ret, lift.
    cbn [SimMemory.mem]. rewrite H3, lookup_empty.
    by rewrite bool_decide_eq_false_2 by (by intros [? ?]).
  - intros h bits' memory_id' a X n. cbn [SimMemory.init fst snd].
    split; [done|]. intros Hl Hwf Hsz.
    assert (Hpos : 0 < size X) by (apply (eval_range (fun _ _ => 0)); done).
    destruct (load_sub_range (SimMemory.mk h 1024 bits' (2 ^ bits') memory_id')
                a X n 0 n
                (SimMemory.write_to (SimMemory.mk h 1024 bits (2 ^ bits) memory_id)
                                    a X w))
      as (r & Hr & _ & Er); [|done|lia..|].
    { apply (stored_at_write_to (SimMemory.mk h 1024 bits (2 ^ bits) memory_id));
        done. }
    rewrite Z.add_0_r in Hr. exists r. eexists.
    split; [by apply store_concrete|]. cbn [asked]. split; [exact Hr|].
    intros rho. rewrite Er. replace (8 * (n - 0 - n)) with 0 by lia.
    rewrite Z.div_1_r. apply Z.mod_small. rewrite <- Hsz. by apply eval_range.
Qed.

(** X12. A copy does not inherit the limit. [copy] keeps [bits] and
    [id], but the copy is built by [__init__], so its [limit] is 1024
    and its [max_mem] is [2 ^ bits] whatever the original had. Hence for
    a symbolic, satisfiable, non-unique address whose range
    [max() - min()] is at least 1024 but below the limit of the
    original, a read through the original enumerates [any_n(limit)]
    while a read through the copy falls back to the single [any()]. *)
Theorem copy_resets_limit self w :
  let c := (SimMemory.copy self w).1 in
  SimMemory.limit c = 1024
  /\ SimMemory.max_mem c = 2 ^ SimMemory.bits self
  /\ SimMemory.bits c = SimMemory.bits self
  /\ SimMemory.id c = SimMemory.id self
  /\ forall v w0,
       SimValue.is_symbolic v = true -> SimValue.satisfiable v = true ->
       SimValue.is_unique v = false ->
       1024 <= SimValue.max v - SimValue.min v < SimMemory.limit self ->
       (SimMemory.concretize_read_addr self (PyValue v) w0).1
       = Ok (SimValue.any_n v (SimMemory.limit self))
       /\ (SimMemory.concretize_read_addr c (PyValue v) w0).1
          = Ok [SimValue.any v].
Proof.
  intros c.
  assert (Hc : SimMemory.limit c = 1024
               /\ SimMemory.max_mem c = 2 ^ SimMemory.bits self
               /\ SimMemory.bits c = SimMemory.bits self
               /\ SimMemory.id c = SimMemory.id self).
  { unfold c, SimMemory.copy.
    by destruct (mem_branch (SimMemory.mem self) w). }
  destruct Hc as (Hlim & Hmax & Hbits & Hid).
  repeat (split; [done|]). intros v w0 Hsym Hsat Hu Hrange.
  unfold SimMemory.concretize_read_addr.
  rewrite !concretize_addr_ambiguous by done.
  cbn [first_yield]. unfold strategy_yield. rewrite Hlim.
  rewrite !(decide_True (P := "symbolic" = "symbolic")) by done.
  rewrite decide_True by lia. rewrite decide_False by lia.
  split; [done|]. by rewrite decide_False, decide_True by done.
Qed.

Lemma copy_resets_limit_witness :
  let self := SimMemory.mk (SimMemory.mem demo_view.1) 4096 64 (2 ^ 64) "mem" in
  (SimMemory.concretize_read_addr self (PyValue wide_range) demo_view.2).1
  = Ok [4096; 5000; 6096]
  /\ (SimMemory.concretize_read_addr (SimMemory.copy self demo_view.2).1
        (PyValue wide_range) demo_view.2).1 = Ok [4096].
Proof.
  intros self.
  destruct (copy_resets_limit self demo_view.2) as (_ & _ & _ & _ & H).
  destruct (H wide_range demo_view.2) as [H1 H2].
  - reflexivity.
  - reflexivity.
  - reflexivity.
  - simpl. lia.
  - split; [exact H1|exact H2].
Defined.

(** ** Names of symbols of different kinds *)

Lemma before_last_segment_app p d :
  no_underscore d = true -> before_last_segment (p +:+ "_" +:+ d) = p.
Proof.
  intros Hd. induction p as [|c p IH].
  - change (before_last_segment (String "_" d) = EmptyString). simpl.
    by rewrite Hd.
  - change (before_last_segment (String c (p +:+ "_" +:+ d)) = String c p).
    cbn [before_last_segment]. rewrite no_underscore_app.
    change (no_underscore ("_" +:+ d)) with false. rewrite andb_false_r.
    by rewrite IH.
Qed.

Lemma kind_segment_spec p q d :
  no_underscore q = true -> no_underscore d = true ->
  kind_segment (p +:+ "_" +:+ q +:+ "_" +:+ d) = q.
Proof.
  intros Hq Hd. unfold kind_segment.
  change (p +:+ "_" +:+ q +:+ "_" +:+ d)
    with (p +:+ ("_" +:+ (q +:+ ("_" +:+ d)))).
  replace (p +:+ ("_" +:+ (q +:+ ("_" +:+ d))))
    with ((p +:+ "_" +:+ q) +:+ "_" +:+ d).
  - rewrite before_last_segment_app by done. by apply last_segment_counter.
  - induction p as [|c p IH]; [done|].
    change (String c ((p +:+ "_" +:+ q) +:+ "_" +:+ d)
            = String c (p +:+ "_" +:+ q +:+ "_" +:+ d)).
    by f_equal.
Qed.

Lemma hex_chars_app s t : hex_chars (s +:+ t) = hex_chars s && hex_chars t.
Proof.
  induction s as [|c s IH]; simpl; [done|]. rewrite IH.
  by rewrite andb_assoc.
Qed.

Lemma hex_chars_uint u : hex_chars (NilEmpty.string_of_uint u) = true.
Proof. induction u; simpl; try done. Qed.

Lemma hex_chars_fmt_x z : hex_chars (fmt_x z) = true.
Proof.
  unfold fmt_x, NilZero.string_of_int.
  destruct (Z.to_hex_int z) as [u|u]; unfold NilZero.string_of_uint.
  - destruct u; try done; apply hex_chars_uint.
  - change (hex_chars (String "-"
      match u with Nil => "0" | _ => NilEmpty.string_of_uint u end) = true).
    cbn [hex_chars]. rewrite andb_true_iff. split; [done|].
    destruct u; try done; apply hex_chars_uint.
Qed.

Lemma hex_chars_no_underscore s : hex_chars s = true -> no_underscore s = true.
Proof.
  induction s as [|c s IH]; [done|]. cbn [hex_chars no_underscore].
  intros [Hc Hs]%andb_prop.
  rewrite IH, andb_true_r by done. apply negb_true_iff, bool_decide_eq_false.
  intros ->. by vm_compute in Hc.
Qed.

Lemma string_app_assoc (a b c : string) : (a +:+ b) +:+ c = a +:+ (b +:+ c).
Proof.
  induction a as [|x a IH]; [done|].
  change (String x ((a +:+ b) +:+ c) = String x (a +:+ (b +:+ c))).
  by f_equal.
Qed.

Lemma no_underscore_0x z : no_underscore ("0x" +:+ fmt_x z) = true.
Proof.
  change (no_underscore (String "0" (String "x" (fmt_x z))) = true).
  cbn [no_underscore]. rewrite hex_chars_no_underscore by apply hex_chars_fmt_x.
  done.
Qed.

Lemma kind_mem_byte_name id a n :
  kind_segment (mem_byte_name id a n) = fmt_x a.
Proof.
  apply kind_segment_spec; [|apply fmt_d_no_underscore].
  apply hex_chars_no_underscore, hex_chars_fmt_x.
Qed.

Lemma kind_addr_name id n : kind_segment (addr_name id n) = "addr".
Proof.
  change (addr_name id n) with (id +:+ "_" +:+ "addr" +:+ "_" +:+ fmt_d n).
  apply kind_segment_spec; [done|apply fmt_d_no_underscore].
Qed.

Lemma unconstrain_name_segments id a n :
  unconstrain_name id a n
  = (id +:+ "_" +:+ "unconstrain") +:+ "_" +:+ ("0x" +:+ fmt_x a) +:+ "_"
    +:+ fmt_d n.
Proof. unfold unconstrain_name. by rewrite string_app_assoc. Qed.

Lemma merge_name_segments id a n :
  merge_name id a n
  = (id +:+ "_" +:+ "merge") +:+ "_" +:+ ("0x" +:+ fmt_x a) +:+ "_" +:+ fmt_d n.
Proof. unfold merge_name. by rewrite string_app_assoc. Qed.

Lemma kind_unconstrain_name id a n :
  kind_segment (unconstrain_name id a n) = "0x" +:+ fmt_x a.
Proof.
  rewrite unconstrain_name_segments.
  apply kind_segment_spec; [apply no_underscore_0x|apply fmt_d_no_underscore].
Qed.

Lemma kind_merge_name id a n :
  kind_segment (merge_name id a n) = "0x" +:+ fmt_x a.
Proof.
  rewrite merge_name_segments.
  apply kind_segment_spec; [apply no_underscore_0x|apply fmt_d_no_underscore].
Qed.

Lemma unconstrain_name_fresh id a n id' a' n' :
  n ≠ n' -> unconstrain_name id a n ≠ unconstrain_name id' a' n'.
Proof.
  intros Hne Heq. apply Hne. apply (f_equal last_segment) in Heq.
  rewrite !unconstrain_name_segments in Heq.
  rewrite !last_segment_two in Heq by apply fmt_d_no_underscore.
  by apply (inj pretty) in Heq.
Qed.

Lemma unconstrain_addr_name_fresh id a n id' n' :
  n ≠ n' -> unconstrain_name id a n ≠ addr_name id' n'.
Proof.
  intros Hne Heq. apply Hne. apply (f_equal last_segment) in Heq.
  rewrite unconstrain_name_segments in Heq.
  change (addr_name id' n') with (id' +:+ "_" +:+ "addr" +:+ "_" +:+ fmt_d n')
    in Heq.
  rewrite !last_segment_two in Heq by apply fmt_d_no_underscore.
  by apply (inj pretty) in Heq.
Qed.

Lemma word_segment_spec p q r d :
  no_underscore q = true -> no_underscore r = true -> no_underscore d = true ->
  word_segment ((p +:+ "_" +:+ q) +:+ "_" +:+ r +:+ "_" +:+ d) = q.
Proof.
  intros Hq Hr Hd. unfold word_segment.
  replace ((p +:+ "_" +:+ q) +:+ "_" +:+ r +:+ "_" +:+ d)
    with (((p +:+ "_" +:+ q) +:+ "_" +:+ r) +:+ "_" +:+ d)
    by (by rewrite !string_app_assoc).
  rewrite !before_last_segment_app by done. by apply last_segment_counter.
Qed.

(** X13. Symbols of different kinds never share a name. The four name
    formats of [s_memory.py] (the bytes [read_from] creates, the value
    of an ambiguous [load], the bytes of [unconstrain_byte] and the
    bytes of [merge]) give different names whatever the memory ids, the
    addresses and the values of the counters, even for ids that contain
    underscores; and two names of [unconstrain_byte], or one of
    [unconstrain_byte] and one of [load], which draw from the same
    counter, differ as soon as the counter values do. *)
Theorem symbol_names_never_collide id a n id' a' n' :
  mem_byte_name id a n ≠ addr_name id' n'
  /\ mem_byte_name id a n ≠ unconstrain_name id' a' n'
  /\ mem_byte_name id a n ≠ merge_name id' a' n'
  /\ addr_name id n ≠ unconstrain_name id' a' n'
  /\ addr_name id n ≠ merge_name id' a' n'
  /\ unconstrain_name id a n ≠ merge_name id' a' n'
  /\ (n ≠ n' ->
      unconstrain_name id a n ≠ unconstrain_name id' a' n'
      /\ unconstrain_name id a n ≠ addr_name id' n').
Proof.
  assert (Hhex : forall z s, fmt_x z = s -> hex_chars s = true).
  { intros z s <-. apply hex_chars_fmt_x. }
  repeat split.
  - intros Heq%(f_equal kind_segment).
    rewrite kind_mem_byte_name, kind_addr_name in Heq.
    by apply Hhex in Heq.
  - intros Heq%(f_equal kind_segment).
    rewrite kind_mem_byte_name, kind_unconstrain_name in Heq.
    apply Hhex in Heq.
    change (hex_chars (String "0" (String "x" (fmt_x a'))) = true) in Heq.
    by cbn [hex_chars] in Heq.
  - intros Heq%(f_equal kind_segment).
    rewrite kind_mem_byte_name, kind_merge_name in Heq.
    apply Hhex in Heq.
    change (hex_chars (String "0" (String "x" (fmt_x a'))) = true) in Heq.
    by cbn [hex_chars] in Heq.
  - intros Heq%(f_equal kind_segment).
    by rewrite kind_addr_name, kind_unconstrain_name in Heq.
  - intros Heq%(f_equal kind_segment).
    by rewrite kind_addr_name, kind_merge_name in Heq.
  - intros Heq%(f_equal word_segment).
    rewrite unconstrain_name_segments, merge_name_segments in Heq.
    rewrite !word_segment_spec in Heq;
      [done|done|apply no_underscore_0x|apply fmt_d_no_underscore
      |done|apply no_underscore_0x|apply fmt_d_no_underscore].
  - by apply unconstrain_name_fresh.
  - by apply unconstrain_addr_name_fresh.
Qed.

(** ** Unconstraining *)

Lemma unconstrain_byte_eq self addr w :
  SimMemory.unconstrain_byte self addr w
  = (Ok tt,
     mem_set (SimMemory.mem self) addr
       (unconstrained_entry self addr (addr_mem_counter w))
       (next_addr_mem w).2).
Proof.
  unfold SimMemory.unconstrain_byte.
  unfold mbind at 1. unfold M_bind at 1. unfold lift at 1.
  cbn [next_addr_mem]. unfold mbind, M_bind.
  by rewrite store_one_byte by done.
Qed.

Lemma unconstrain_byte_frame self addr w :
  let w' := (SimMemory.unconstrain_byte self addr w).2 in
  (forall h a, h ≠ SimMemory.mem self \/ a ≠ addr ->
     mem_get h a w' = mem_get h a w)
  /\ (forall h, live h w' <-> live h w)
  /\ addr_mem_counter w' = (addr_mem_counter w + 1)%N
  /\ (live (SimMemory.mem self) w ->
      mem_get (SimMemory.mem self) addr w'
      = Some (unconstrained_entry self addr (addr_mem_counter w))).
Proof.
  rewrite unconstrain_byte_eq. cbn [snd]. split; [|split; [|split]].
  - intros h a Hne. by rewrite mem_get_set_ne by (destruct Hne; [left|right]; congruence).
  - intros h. by rewrite live_mem_set.
  - by rewrite (proj1 (counters_mem_set _ _ _ _)).
  - intros Hl. by rewrite mem_get_set_eq.
Qed.

(** X14. [unconstrain_byte] replaces one entry by a new symbol. It
    never raises; afterwards a one-byte load at the address returns,
    with no constraint, the low byte of a symbol named from the memory
    id, the address and the current value of the counter of address
    symbols, whose value in a model is that of the symbol alone,
    whatever the entry held before; the counter has advanced by one, and
    every other entry of every store is unchanged. *)
Theorem unconstrain_byte_replaces_entry self addr w :
  live (SimMemory.mem self) w ->
  let k := addr_mem_counter w in
  let name := unconstrain_name (SimMemory.id self) addr k in
  exists w',
    SimMemory.unconstrain_byte self addr w = (Ok tt, w')
    /\ SimMemory.load self (PyInt addr) 1 w'
       = (Ok (Extract 7 0 (BitVec name 8), []), w')
    /\ (forall rho, eval rho (Extract 7 0 (BitVec name 8)) = rho name 8 mod 256)
    /\ addr_mem_counter w' = (k + 1)%N
    /\ (forall h a, h ≠ SimMemory.mem self \/ a ≠ addr ->
          mem_get h a w' = mem_get h a w).
Proof.
  intros Hl k name.
  destruct (unconstrain_byte_frame self addr w) as (Hfr & _ & Hc & Hin).
  rewrite unconstrain_byte_eq in *. cbn [snd] in *.
  eexists. split; [reflexivity|]. split; [|split; [|split]].
  - rewrite load_one_byte, (read_byte_present _ _ _ _ (Hin Hl)). done.
  - intros rho. cbn [eval]. rewrite Z.div_1_r.
    change (7 - 0 + 1) with 8. change (2 ^ 8) with 256.
    by rewrite Z.mod_mod by done.
  - exact Hc.
  - exact Hfr.
Qed.

Lemma unconstrain_byte_replaces_entry_witness :
  exists w',
    SimMemory.unconstrain_byte demo_view.1 4096
      (SimMemory.store demo_view.1 (PyInt 4096) (BitVecVal 7 8) demo_view.2).2
    = (Ok tt, w')
    /\ SimMemory.load demo_view.1 (PyInt 4096) 1 w'
       = (Ok (Extract 7 0 (BitVec "mem_unconstrain_0x1000_0" 8), []), w').
Proof.
  destruct (unconstrain_byte_replaces_entry demo_view.1 4096
    (SimMemory.store demo_view.1 (PyInt 4096) (BitVecVal 7 8) demo_view.2).2)
    as (w' & H1 & H2 & _).
  - vm_compute. eauto.
  - exists w'. split; [exact H1|exact H2].
Defined.

(** The loop of [unconstrain_differences]. *)
Lemma unconstrain_loop_spec self addrs w :
  NoDup addrs ->
  live (SimMemory.mem self) w ->
  exists us w',
    for_list (SimMemory.unconstrain_byte self) addrs w = (Ok us, w')
    /\ (forall h a, h ≠ SimMemory.mem self \/ a ∉ addrs ->
          mem_get h a w' = mem_get h a w)
    /\ (forall h, live h w' <-> live h w)
    /\ addr_mem_counter w' = (addr_mem_counter w + N.of_nat (length addrs))%N
    /\ forall (j : nat) addr, addrs !! j = Some addr ->
         mem_get (SimMemory.mem self) addr w'
         = Some (unconstrained_entry self addr (addr_mem_counter w + N.of_nat j)).
Proof.
  intros Hnd. revert w. induction Hnd as [|a addrs Ha Hnd IH]; intros w Hl.
  - exists [], w. split; [done|]. split; [done|]. split; [done|].
    split; [simpl; lia|]. intros j addr Hj. by rewrite lookup_nil in Hj.
  - cbn [for_list]. unfold mbind at 1. unfold M_bind at 1.
    destruct (unconstrain_byte_frame self a w) as (Hfr & Hlive & Hc & Hin).
    rewrite unconstrain_byte_eq in *. cbn [snd] in *.
    set (w1 := mem_set _ _ _ _) in *.
    destruct (IH w1) as (us & w' & Hrun & Hfr' & Hlive' & Hc' & Hin');
      [by apply Hlive|].
    unfold mbind, M_bind. unfold mbind, M_bind in Hrun. rewrite Hrun.
    eexists _, w'. split; [reflexivity|]. split; [|split; [|split]].
    + intros h k Hk. rewrite Hfr'.
      * apply Hfr. destruct Hk as [?|Hk]; [by left|right].
        intros ->. apply Hk. apply elem_of_cons. by left.
      * destruct Hk as [?|Hk]; [by left|right].
        intros Hin2. apply Hk. apply elem_of_cons. by right.
    + intros h. by rewrite Hlive', Hlive.
    + rewrite Hc', Hc. simpl length. lia.
    + intros [|j] addr Hj.
      * simpl in Hj. injection Hj as <-. rewrite Hfr' by (by right).
        rewrite Hin by done. by rewrite N.add_0_r.
      * simpl in Hj. rewrite (Hin' j addr Hj), Hc. do 2 f_equal. lia.
Qed.

(** X15. [unconstrain_differences] replaces exactly the changed bytes.
    Whatever the order in which the set of changed bytes is iterated,
    the call never raises; afterwards every address of
    [changed_bytes(self, other)] holds in the store of [self] a new
    symbol of [unconstrain_byte], two different addresses hold symbols
    made from different counter values, the counter has advanced by the
    number of changed bytes, and every other entry, of [self] and of
    every other store, is unchanged. *)
Theorem unconstrain_differences_replaces_changed
    (set_iter : gset Z -> list Z) self other w :
  (forall s, set_iter s ≡ₚ elements s) ->
  live (SimMemory.mem self) w ->
  let changed := SimMemory.changed_bytes self other w in
  exists w',
    SimMemory.unconstrain_differences set_iter self other w = (Ok tt, w')
    /\ (forall a, a ∈ changed ->
          exists j : nat,
            set_iter changed !! j = Some a
            /\ mem_get (SimMemory.mem self) a w'
               = Some (unconstrained_entry self a
                         (addr_mem_counter w + N.of_nat j)))
    /\ (forall (i j : nat) a b,
          set_iter changed !! i = Some a -> set_iter changed !! j = Some b ->
          a ≠ b -> i ≠ j)
    /\ addr_mem_counter w'
       = (addr_mem_counter w + N.of_nat (length (elements changed)))%N
    /\ (forall h a, h ≠ SimMemory.mem self \/ a ∉ changed ->
          mem_get h a w' = mem_get h a w).
Proof.
  intros Hperm Hl changed.
  assert (Hnd : NoDup (set_iter changed)).
  { rewrite Hperm. apply NoDup_elements. }
  destruct (unconstrain_loop_spec self (set_iter changed) w Hnd Hl)
    as (us & w' & Hrun & Hfr & _ & Hc & Hin).
  exists w'. split; [|split; [|split; [|split]]].
  - unfold SimMemory.unconstrain_differences. fold changed.
    unfold mbind, M_bind. unfold mbind, M_bind in Hrun. by rewrite Hrun.
  - intros a Ha.
    assert (Hel : a ∈ set_iter changed) by (rewrite Hperm; by apply elem_of_elements).
    apply list_elem_of_lookup in Hel as [j Hj]. exists j. split; [done|].
    by apply Hin.
  - intros i j a b Hi Hj Hab ->. congruence.
  - rewrite Hc. by rewrite Hperm.
  - intros h a Ha. apply Hfr. destruct Ha as [?|Ha]; [by left|right].
    rewrite Hperm. by rewrite elem_of_elements.
Qed.

Lemma unconstrain_differences_replaces_changed_witness :
  exists w',
    SimMemory.unconstrain_differences elements diverged.1.1 diverged.1.2
                                      diverged.2 = (Ok tt, w')
    /\ mem_get (SimMemory.mem diverged.1.1) 4096 w'
       = Some (Extract 7 0 (BitVec "mem_unconstrain_0x1000_0" 8))
    /\ mem_get (SimMemory.mem diverged.1.2) 4096 w'
       = Some (Extract 7 0 (BitVecVal 0x58 8)).
Proof.
  destruct (unconstrain_differences_replaces_changed elements diverged.1.1
              diverged.1.2 diverged.2) as (w' & H1 & _).
  - done.
  - vm_compute. eauto.
  - exists w'. split; [exact H1|].
    assert (Hw : w' = (SimMemory.unconstrain_differences elements diverged.1.1
                         diverged.1.2 diverged.2).2) by (by rewrite H1).
    rewrite Hw. split; vm_compute; reflexivity.
Defined.

(** ** What a merge leaves alone *)

Lemma merge_keeps_other_entries set_iter self others flag flag_values w :
  keeps_entries_outside (SimMemory.mem self) w
    (SimMemory.merge set_iter self others flag flag_values w).2.
Proof.
  refine (keeps_merge (keeps_entries_outside (SimMemory.mem self)) _ _
            (fun _ => True) (fun s => SimMemory.mem s = SimMemory.mem self)
            _ _ _ _ _ set_iter self others flag flag_values _ _ _ w);
    try done.
  - by intros w0 h k b.
  - intros w1 w2 w3 H1 H2 h k b Hh Hb. apply H2; [done|]. by apply H1.
  - by intros v q w0 h k b.
  - intros s a w0 _ h k b _ Hb. by apply keeps_entries_read.
  - intros s a b w0 Hs h k b' Hh Hb. rewrite mem_get_set_ne; [done|].
    left. by rewrite Hs.
  - by intros w0 h k b.
  - by intros w0 h k b.
  - by apply Forall_forall.
Qed.

(** X16. [merge] works on the changed bytes only. With every state on
    a store of the world, at least one flag value, and whatever the
    order of iteration over the set: an address that no other state has changed relative to [self]
    keeps its entry in every store; in the stores of the other states
    no entry at all is replaced or removed (reading an alternative can
    only add a symbolic byte where there was none); the merge counter
    advances by the number of changed bytes; and with no other state
    the merge does nothing and returns no constraint. *)
Theorem merge_changes_only_changed_bytes (set_iter : gset Z -> list Z) self
    others flag flag_values w :
  (forall s, set_iter s ≡ₚ elements s) ->
  Forall (fun s => live (SimMemory.mem s) w) (self :: others) ->
  flag_values ≠ [] ->
  let w' := (SimMemory.merge set_iter self others flag flag_values w).2 in
  let changed := merge_addresses self others w in
  (forall h k, k ∉ changed -> mem_get h k w' = mem_get h k w)
  /\ (forall h k b, h ≠ SimMemory.mem self ->
        mem_get h k w = Some b -> mem_get h k w' = Some b)
  /\ merge_mem_counter w'
     = (merge_mem_counter w + N.of_nat (length (elements changed)))%N
  /\ (others = [] ->
      SimMemory.merge set_iter self others flag flag_values w = (Ok [], w)).
Proof.
  intros Hperm Hl _ w' changed.
  assert (Hnd : NoDup (set_iter changed)).
  { rewrite Hperm. apply NoDup_elements. }
  destruct (merge_loop_spec self others flag flag_values (set_iter changed) w
              Hnd Hl) as (cs & w1 & Hrun & _ & Hfr & _ & Hc & _).
  assert (Hw : w' = w1).
  { unfold w', SimMemory.merge. fold (merge_addresses self others w).
    fold changed. by rewrite Hrun. }
  split; [|split; [|split]].
  - intros h k Hk. rewrite Hw. apply Hfr. rewrite Hperm.
    by rewrite elem_of_elements.
  - apply merge_keeps_other_entries.
  - rewrite Hw, Hc. by rewrite Hperm.
  - intros ->. unfold SimMemory.merge. cbn [foldl].
    assert (He : set_iter ∅ = []).
    { apply Permutation_nil_r. rewrite Hperm. by rewrite elements_empty. }
    by rewrite He.
Qed.

Lemma merge_changes_only_changed_bytes_witness :
  let w' := (SimMemory.merge elements diverged.1.1 [diverged.1.2]
               (BitVec "flag" 8) [OInt 0; OInt 1] diverged.2).2 in
  mem_get (SimMemory.mem diverged.1.2) 4096 w'
  = Some (Extract 7 0 (BitVecVal 0x58 8))
  /\ merge_mem_counter w' = 1%N.
Proof.
  destruct (merge_changes_only_changed_bytes elements diverged.1.1
              [diverged.1.2] (BitVec "flag" 8) [OInt 0; OInt 1] diverged.2)
    as (_ & H2 & H3 & _).
  - done.
  - repeat constructor; vm_compute; eauto.
  - done.
  - cbv zeta. split.
    + apply H2; [by vm_compute|]. by vm_compute.
    + rewrite H3. by vm_compute.
Defined.

(** ** The meaning of an ambiguous load *)

(** The ambiguous branch of [load]: the candidates are not a single
    address. *)
Lemma load_many self v n w addrs :
  live (SimMemory.mem self) w ->
  SimValue.is_unique v = false ->
  (SimMemory.concretize_read_addr self (PyValue v) w).1 = Ok addrs ->
  length addrs ≠ 1%nat ->
  let m := BitVec (addr_name (SimMemory.id self) (addr_mem_counter w)) (n * 8) in
  exists vals w',
    SimMemory.load self (PyValue v) n w
    = (Ok (m, [Or (zip_with (candidate_constraint m (SimValue.expr v))
                            addrs vals)]), w')
    /\ length vals = length addrs
    /\ Forall2 (fun c val => SimMemory.read_from self c n w' = (val, w'))
               addrs vals
    /\ Forall2 (fun c val => value_at self c n w' = Some val) addrs vals
    /\ extends w w'
    /\ addr_mem_counter w' = (addr_mem_counter w + 1)%N.
Proof.
  intros Hl Hu Hconc Hlen m.
  set (wq := log_query v QIsUnique w).
  pose proof (concretize_addr_memory self (PyValue v) ["symbolic"; "any"] wq)
    as Hmem.
  pose proof (concretize_addr_result self (PyValue v) ["symbolic"; "any"] wq w)
    as Hres.
  unfold SimMemory.concretize_read_addr in Hconc. rewrite Hconc in Hres.
  assert (Hload : SimMemory.load self (PyValue v) n w
    = match SimMemory.concretize_addr self (PyValue v) ["symbolic"; "any"] wq
      with
      | (Ok addrs, w1) =>
          match addrs with
          | [a] =>
              (r ← lift (SimMemory.read_from self a n);
               mret (r, [Eq (SimValue.expr v) (OInt a)])) w1
          | _ =>
              (k ← lift next_addr_mem;
               let m := BitVec (addr_name (SimMemory.id self) k) (n * 8) in
               cs ← for_list (fun addr =>
                                r ← lift (SimMemory.read_from self addr n);
                                mret (And [Eq m (OExpr r);
                                           Eq (SimValue.expr v) (OInt addr)]))
                             addrs;
               mret (m, [Or cs])) w1
          end
      | (Raise e, w1) => (Raise e, w1)
      end).
  { unfold SimMemory.load, SimMemory.concretize_read_addr.
    unfold mbind at 1. unfold M_bind at 1. unfold ask at 1. rewrite Hu.
    unfold mbind at 1. unfold M_bind at 1. fold wq.
    destruct (SimMemory.concretize_addr self (PyValue v) _ wq) as [[l|e] w1];
      [|done]. by destruct l as [|? [|? ?]]. }
  destruct (SimMemory.concretize_addr self (PyValue v) _ wq) as [res w1].
  simpl in Hres, Hmem. subst res.
  assert (Hl1 : live (SimMemory.mem self) w1).
  { apply (same_memory_live wq w1); [done|]. done. }
  assert (Hk : addr_mem_counter w1 = addr_mem_counter w) by apply Hmem.
  assert (Hbody : (k ← lift next_addr_mem;
               let m := BitVec (addr_name (SimMemory.id self) k) (n * 8) in
               cs ← for_list (fun addr =>
                                r ← lift (SimMemory.read_from self addr n);
                                mret (And [Eq m (OExpr r);
                                           Eq (SimValue.expr v) (OInt addr)]))
                             addrs;
               mret (m, [Or cs])) w1
             = SimMemory.load self (PyValue v) n w).
  { rewrite Hload. destruct addrs as [|c1 [|c2 rest]]; simpl in Hlen; done. }
  rewrite <- Hbody.
  unfold mbind at 1. unfold M_bind at 1.
  unfold lift at 1. unfold next_addr_mem at 1.
  set (w2 := mkWorld _ _ _ _ _ _). rewrite Hk. fold m.
  destruct (load_candidates self m (SimValue.expr v) n addrs w2)
    as (vals & w' & Hfor & Hlv & Hall & He & Hc); [done|].
  exists vals, w'. unfold mbind at 1. unfold M_bind at 1. rewrite Hfor.
  split; [done|]. split; [done|]. split; [done|].
  assert (Hw1 : extends w w1).
  { apply same_memory_extends. eapply same_memory_trans; [|exact Hmem].
    apply same_memory_log. }
  assert (Hw2 : extends w1 w2) by (by split).
  split; [|split].
  - eapply Forall2_impl; [exact Hall|]. intros c val Hr.
    apply read_from_value_at; [|done]. by apply He.
  - by apply (extends_trans _ w1), (extends_trans _ w2).
  - destruct Hc as [Ha _]. rewrite Ha. unfold w2. simpl. by rewrite Hk.
Qed.

Lemma holds_candidates rho m e addrs vals :
  length vals = length addrs ->
  holds rho (Or (zip_with (candidate_constraint m e) addrs vals)) = true
  <-> exists (j : nat) a val,
        addrs !! j = Some a /\ vals !! j = Some val
        /\ eval rho e = a mod 2 ^ size e
        /\ eval rho m = eval rho val.
Proof.
  intros Hlen. cbn [holds]. rewrite existsb_exists. split.
  - intros (c & Hin & Hc). apply list_elem_of_In in Hin.
    apply list_elem_of_lookup in Hin as [j Hj].
    apply lookup_zip_with_Some in Hj as (a & val & -> & Ha & Hval).
    exists j, a, val. split; [done|]. split; [done|].
    unfold candidate_constraint in Hc. cbn [holds forallb eval_operand] in Hc.
    apply andb_prop in Hc as [H1 H2]. apply andb_prop in H2 as [H2 _].
    apply bool_decide_eq_true in H1, H2. done.
  - intros (j & a & val & Ha & Hval & He & Hm).
    exists (candidate_constraint m e a val). split.
    + apply list_elem_of_In, list_elem_of_lookup. exists j.
      apply lookup_zip_with_Some. by exists a, val.
    + unfold candidate_constraint. cbn [holds forallb eval_operand].
      rewrite !bool_decide_eq_true_2 by done. done.
Qed.

(** X17. What the constraint of an ambiguous load means. When the read
    concretization of a non-unique address gives more than one
    candidate, [load] (of a positive number of bytes) returns the symbol
    [m] of [size * 8] bits named after the counter of address symbols,
    which no address symbol named at another value of the counter
    equals and after which the counter moves on, and one constraint; the
    memory keeps every entry it had; and a model satisfies the
    constraint exactly when, for some candidate [a] of the list, the
    address expression has the value [a] and [m] has the value of what
    the store holds at the [size] addresses from [a] on after the load:
    the entry itself for one byte, the [Concat] of the entries
    otherwise. *)
Theorem ambiguous_load_selects_candidate self v n w addrs :
  live (SimMemory.mem self) w ->
  0 < n ->
  SimValue.is_unique v = false ->
  (SimMemory.concretize_read_addr self (PyValue v) w).1 = Ok addrs ->
  (1 < length addrs)%nat ->
  let m := BitVec (addr_name (SimMemory.id self) (addr_mem_counter w))
                  (n * 8) in
  exists c w',
    SimMemory.load self (PyValue v) n w = (Ok (m, [c]), w')
    /\ (forall id' k, k ≠ addr_mem_counter w ->
          BitVec (addr_name id' k) (n * 8) ≠ m)
    /\ addr_mem_counter w' = (addr_mem_counter w + 1)%N
    /\ extends w w'
    /\ (forall a, a ∈ addrs -> is_Some (value_at self a n w'))
    /\ forall rho,
         holds rho c = true
         <-> exists a val,
               a ∈ addrs
               /\ value_at self a n w' = Some val
               /\ eval rho (SimValue.expr v) = a mod 2 ^ size (SimValue.expr v)
               /\ eval rho m = eval rho val.
Proof.
  intros Hl _ Hu Hconc Hlen m.
  destruct (load_many self v n w addrs Hl Hu Hconc)
    as (vals & w' & Hload & Hlv & _ & Hall & He & Hk); [lia|].
  eexists _, w'. split; [exact Hload|].
  split; [intros id' k Hne [= Heq]; by apply addr_name_fresh in Heq|].
  split; [done|]. split; [done|]. split.
  - intros a Ha. apply list_elem_of_lookup in Ha as [j Hj].
    destruct (Forall2_lookup_l _ _ _ _ _ Hall Hj) as (val & _ & Hval).
    by exists val.
  - intros rho. rewrite holds_candidates by done. split.
    + intros (j & a & val & Ha & Hval & Hev & Hm). exists a, val.
      split; [by eapply list_elem_of_lookup_2|]. split; [|done].
      by apply (Forall2_lookup_lr _ _ _ _ _ _ Hall Ha Hval).
    + intros (a & val & Ha & Hr & Hev & Hm).
      apply list_elem_of_lookup in Ha as [j Hj].
      destruct (Forall2_lookup_l _ _ _ _ _ Hall Hj) as (val' & Hval' & Hr').
      exists j, a, val'. split; [done|]. split; [done|]. split; [done|].
      cbv beta in Hr'. rewrite Hr in Hr'. by injection Hr' as <-.
Qed.

Lemma ambiguous_load_selects_candidate_witness :
  exists c w',
    SimMemory.load demo_view.1 (PyValue two_way) 1 demo_view.2
    = (Ok (BitVec "mem_addr_0" 8, [c]), w')
    /\ forall rho, holds rho c = true ->
         eval rho (BitVec "sel" 64) = 4096 \/ eval rho (BitVec "sel" 64) = 4100.
Proof.
  destruct (ambiguous_load_selects_candidate demo_view.1 two_way 1 demo_view.2
              [4096; 4100]) as (c & w' & H1 & _ & _ & _ & _ & H2).
  - vm_compute. eauto.
  - lia.
  - reflexivity.
  - reflexivity.
  - simpl. lia.
  - exists c, w'. split; [exact H1|]. intros rho Hc.
    apply H2 in Hc as (a & val & Ha & _ & He & _).
    apply elem_of_cons in Ha as [->|Ha]; [left; exact He|].
    apply list_elem_of_singleton in Ha as ->. right. exact He.
Defined.

(** ** The cacher: dumping, stepping and loading *)

Section cacher_more.

Import Cacher.

Context {Project History : Type}.
Variable trim : History -> History.
Variable pickle_dump : list (@SimState Project History) -> pickle_outcome.
Variable simgr_step :
  @SimulationManager Project -> string -> @World Project History ->
  result (@SimulationManager Project) * @World Project History.
Variable subst_addr : string -> string -> string.
Variable hex_addr : Z -> string.

Lemma detached_step k (s : @SimState Project History) :
  with_trimmed_history trim (with_project None (detached trim k s))
  = detached trim (S k) s.
Proof.
  destruct k as [|k]; [done|].
  unfold with_trimmed_history, with_project, detached. simpl. done.
Qed.

Lemma detach_all_states ss (w : @World Project History) h :
  states (foldl (fun w s => detach trim s w) w ss) !! h
  = detached trim (times_listed h ss) <$> states w !! h.
Proof.
  induction ss as [|a ss IH] using rev_ind.
  - simpl. by destruct (states w !! h).
  - rewrite foldl_snoc. unfold detach at 1. cbn [states set_states].
    unfold times_listed. rewrite filter_app, length_app.
    destruct (decide (a = h)) as [->|Hne].
    + rewrite lookup_alter_eq, IH.
      rewrite filter_cons_True by done. simpl.
      destruct (states w !! h) as [s|]; simpl; [|done].
      rewrite detached_step. f_equal. f_equal. unfold times_listed. lia.
    + rewrite lookup_alter_ne by done. rewrite IH.
      rewrite filter_cons_False by done. simpl.
      unfold times_listed. by rewrite Nat.add_0_r.
Qed.

Lemma times_listed_pos h ss : h ∈ ss <-> (0 < times_listed h ss)%nat.
Proof.
  unfold times_listed. split.
  - intros Hin. assert (Hf : h ∈ filter (fun x => x = h) ss)
      by (by apply list_elem_of_filter).
    destruct (filter _ ss); [by apply elem_of_nil in Hf|simpl; lia].
  - intros Hpos. destruct (filter (fun x => x = h) ss) as [|x l] eqn:E;
      [simpl in Hpos; lia|].
    assert (Hx : x ∈ filter (fun x => x = h) ss) by (rewrite E; by left).
    apply list_elem_of_filter in Hx as [-> ?]. done.
Qed.

Lemma dump_stash_eq f simgr stash ss w :
  stashes simgr !! stash = Some ss ->
  _dump_stash trim pickle_dump f simgr stash w
  = let w1 := pickling_world trim ss w in
    let seen := contents ss w1 in
    (match pickle_dump seen with
     | Dumped _ | DumpRaised (RuntimeError _) _ => Ok tt
     | DumpRaised e _ => Raise e
     end,
     foldl (fun w s => attach (_project simgr) s w)
       (match pickle_dump seen with
        | Dumped data => write f data w1
        | DumpRaised (RuntimeError message) partial =>
            emit ERROR ("Unable to cache, '" +:+ message
                        +:+ "' during pickling") (write f partial w1)
        | DumpRaised _ partial => write f partial w1
        end) ss).
Proof.
  intros Hss. unfold _dump_stash, pickling_world. rewrite Hss. cbv zeta.
  by destruct (pickle_dump _) as [|[] ?].
Qed.

Lemma contents_detached ss (w : @World Project History) :
  Forall (fun s => project s = None) (contents ss (pickling_world trim ss w)).
Proof.
  apply Forall_forall. intros s Hs. unfold contents in Hs.
  apply list_elem_of_omap in Hs as (h & Hh & Hs).
  unfold pickling_world in Hs. rewrite detach_all_states in Hs.
  apply times_listed_pos in Hh.
  destruct (times_listed h ss) as [|k]; [lia|].
  destruct (states w !! h) as [s0|]; simpl in Hs; [|done].
  by injection Hs as <-.
Qed.

(** X18. The project is never pickled and always put back. For a
    stash of the simulation manager, every state [pickle.dump] gets to
    see has no project; and whatever [pickle.dump] does (it writes the
    stash, raises a [RuntimeError] such as the one of the recursion
    limit, or raises an exception of another class, which then leaves
    [_dump_stash]), every state of the stash has the simulation
    manager's project again afterwards. [_dump_stash] returns normally
    in the first two cases. For a name that is not a stash, it raises
    [KeyError] and nothing has changed. *)
Theorem project_never_pickled f simgr stash w :
  match stashes simgr !! stash with
  | None =>
      _dump_stash trim pickle_dump f simgr stash w = (Raise (KeyError stash), w)
  | Some ss =>
      let seen := contents ss (pickling_world trim ss w) in
      Forall (fun s => project s = None) seen
      /\ (_dump_stash trim pickle_dump f simgr stash w).1
         = match pickle_dump seen with
           | Dumped _ | DumpRaised (RuntimeError _) _ => Ok tt
           | DumpRaised e _ => Raise e
           end
      /\ attached (_project simgr) ss
           (_dump_stash trim pickle_dump f simgr stash w).2
  end.
Proof.
  destruct (stashes simgr !! stash) as [ss|] eqn:Hss.
  - rewrite (dump_stash_eq f simgr stash ss w Hss). cbv zeta. cbn [fst snd].
    split; [apply contents_detached|]. split; [done|]. apply attached_after.
  - unfold _dump_stash. by rewrite Hss.
Qed.

(** X19. What a dump leaves behind. After [_dump_stash], returning or
    raising, every state of the stash has its address unchanged, the
    simulation manager's project, whatever project it had before, and a
    history trimmed once for each time the state is listed in the
    stash; the states that are not in the stash are as before, no state
    is created or removed, and no file other than [f] is written. *)
Theorem dump_trims_histories f simgr stash ss w :
  stashes simgr !! stash = Some ss ->
  let w' := (_dump_stash trim pickle_dump f simgr stash w).2 in
  (forall h s, states w !! h = Some s ->
     states w' !! h
     = Some (if decide (h ∈ ss)
             then mkState (addr s) (Some (_project simgr))
                          (Nat.iter (times_listed h ss) trim (history s))
             else s))
  /\ (forall h, states w !! h = None -> states w' !! h = None)
  /\ (forall g, g ≠ f -> files w' !! g = files w !! g).
Proof.
  intros Hss w'. unfold w'.
  rewrite (dump_stash_eq f simgr stash ss w Hss). cbv zeta. cbn [snd].
  set (w1 := pickling_world trim ss w).
  set (w2 := match pickle_dump _ with
             | Dumped data => write f data w1
             | DumpRaised e partial => _
             end).
  assert (Hst : states w2 = states w1)
    by (unfold w2; by destruct (pickle_dump _) as [|[] ?]).
  assert (Hfi : forall g, g ≠ f -> files w2 !! g = files w !! g).
  { intros g Hg.
    assert (Hf1 : files w1 = files w) by apply detach_all_rest.
    unfold w2. destruct (pickle_dump _) as [|[] ?]; simpl;
      rewrite lookup_insert_ne by done; by rewrite Hf1. }
  assert (Hlook : forall h, states w2 !! h
            = detached trim (times_listed h ss) <$> states w !! h).
  { intros h. rewrite Hst. apply detach_all_states. }
  split; [|split].
  - intros h s Hs. rewrite attach_all_states, Hlook, Hs.
    destruct (decide (h ∈ ss)) as [Hin|Hin]; simpl.
    + apply times_listed_pos in Hin.
      by destruct (times_listed h ss) as [|k]; [lia|].
    + destruct (times_listed h ss) as [|k] eqn:E; [done|].
      exfalso. apply Hin. apply times_listed_pos. lia.
  - intros h Hs. rewrite attach_all_states, Hlook, Hs. by case_decide.
  - intros g Hg. rewrite (proj2 (attach_all_rest _ _ _)). by apply Hfi.
Qed.

(** Once the cache file of the cacher exists and its name is one a
    substitution has produced, the loop of [step] does nothing more. *)
Lemma step_loop_settled self simgr stash rest (w : @World Project History) :
  (forall name a b, subst_addr (subst_addr name a) b = subst_addr name a) ->
  (exists name a, _cache_file self = subst_addr name a) ->
  is_Some (files w !! _cache_file self) ->
  exists self',
    step_loop subst_addr hex_addr self simgr stash rest w = (self', Ok tt, w)
    /\ _cache_file self' = _cache_file self.
Proof.
  intros Hsub. revert self.
  induction rest as [|h rest IH]; intros self Hname Hex; cbn [step_loop].
  - by exists self.
  - destruct (states w !! h) as [s|]; [|by apply IH].
    destruct (_dump_cache self && _dump_cond self s); [|by apply IH].
    destruct Hname as (name & a & Hname).
    assert (Hsame : subst_addr (_cache_file self) (hex_addr (addr s))
                    = _cache_file self) by (by rewrite Hname, Hsub).
    rewrite Hsame.
    assert (Hself : set_cache_file self (_cache_file self) = self)
      by (by destruct self).
    rewrite Hself. rewrite bool_decide_eq_true_2 by done.
    apply IH; [by exists name, a|done].
Qed.

(** The default dump function writes the file it is given. *)
Lemma dump_stash_file f simgr stash (w : @World Project History) :
  is_Some (files w !! f) ->
  is_Some (files (_dump_stash trim pickle_dump f simgr stash w).2 !! f)
  /\ forall g, g ≠ f ->
       files (_dump_stash trim pickle_dump f simgr stash w).2 !! g
       = files w !! g.
Proof.
  intros Hex. destruct (stashes simgr !! stash) as [ss|] eqn:Hss.
  - rewrite (dump_stash_eq f simgr stash ss w Hss). cbv zeta. cbn [snd].
    rewrite (proj2 (attach_all_rest _ _ _)).
    pose proof (proj2 (detach_all_rest trim ss w)) as Hf1.
    fold (pickling_world trim ss w) in Hf1.
    destruct (pickle_dump _) as [|[] ?]; simpl; rewrite Hf1.
    all: split; [rewrite lookup_insert_eq; by eexists|].
    all: intros g Hg; by rewrite lookup_insert_ne.
  - unfold _dump_stash. rewrite Hss. simpl. by split.
Qed.

(** What the loop of [step] does with the default dump function: it
    changes nothing, or it dumps once, for the first state that
    satisfies the condition, to a file that did not exist. *)
Lemma step_loop_cases self simgr stash ss (w : @World Project History) :
  (forall name a b, subst_addr (subst_addr name a) b = subst_addr name a) ->
  _dump_func self = _dump_stash trim pickle_dump ->
  let r := step_loop subst_addr hex_addr self simgr stash ss w in
  (_dump_cache self = false -> r = (self, Ok tt, w))
  /\ (r.2 = w
      \/ exists pre h post s,
           ss = (pre ++ h :: post)%list
           /\ states w !! h = Some s /\ _dump_cond self s = true
           /\ (forall h' s', h' ∈ pre -> states w !! h' = Some s' ->
                 _dump_cond self s' = false)
           /\ files w !! subst_addr (_cache_file self) (hex_addr (addr s))
              = None
           /\ _cache_file r.1.1
              = subst_addr (_cache_file self) (hex_addr (addr s))
           /\ is_Some (files r.2 !! _cache_file r.1.1)
           /\ forall g,
                g ≠ subst_addr (_cache_file self) (hex_addr (addr s)) ->
                files r.2 !! g = files w !! g).
Proof.
  intros Hsub Hdef r. unfold r. clear r. revert w.
  induction ss as [|h ss IH]; intros w; cbn [step_loop].
  { split; [done|]. by left. }
  assert (Hskip : forall r0,
    (states w !! h = None
     \/ exists s, states w !! h = Some s /\ _dump_cond self s = false) ->
    r0 = step_loop subst_addr hex_addr self simgr stash ss w ->
    r0.2 = w
    \/ exists pre h0 post s,
         h :: ss = (pre ++ h0 :: post)%list
         /\ states w !! h0 = Some s /\ _dump_cond self s = true
         /\ (forall h' s', h' ∈ pre -> states w !! h' = Some s' ->
               _dump_cond self s' = false)
         /\ files w !! subst_addr (_cache_file self) (hex_addr (addr s))
            = None
         /\ _cache_file r0.1.1
            = subst_addr (_cache_file self) (hex_addr (addr s))
         /\ is_Some (files r0.2 !! _cache_file r0.1.1)
         /\ forall g,
              g ≠ subst_addr (_cache_file self) (hex_addr (addr s)) ->
              files r0.2 !! g = files w !! g).
  { intros r0 Hh ->. destruct (IH w) as [_ H2].
    destruct H2 as [?|(pre & h0 & post & s & -> & Hs0 & Hc0 & Hpre & Hrest)];
      [by left|right].
    exists (h :: pre), h0, post, s. split; [done|]. split; [done|].
    split; [done|]. split; [|done].
    intros h' s' [->|Hin]%elem_of_cons Hs'; [|by eapply Hpre].
    destruct Hh as [Hh|(s1 & Hh & Hc1)]; congruence. }
  destruct (states w !! h) as [s|] eqn:Hs.
  2: { split; [apply IH|]. apply Hskip; [by left|done]. }
  destruct (_dump_cond self s) eqn:Hc.
  2: { rewrite andb_false_r. split; [apply IH|].
       apply Hskip; [right; by exists s|done]. }
  destruct (_dump_cache self) eqn:Hdc; cbn [andb].
  2: { split; [intros _; by apply IH|]. left.
       destruct (IH w) as [H1 _]. by rewrite H1. }
  split; [done|].
  set (self1 := set_cache_file self _).
  set (name1 := subst_addr (_cache_file self) (hex_addr (addr s))).
  change (_cache_file self1) with name1.
  assert (Hn1 : exists name a, _cache_file self1 = subst_addr name a)
    by (by eexists _, _).
  destruct (decide (is_Some (files w !! name1))) as [Hex|Hex].
  - rewrite bool_decide_eq_true_2 by done.
    destruct (step_loop_settled self1 simgr stash ss w Hsub Hn1 Hex)
      as (self' & -> & _). by left.
  - rewrite bool_decide_eq_false_2 by done.
    change (_dump_func self1) with (_dump_func self). rewrite Hdef.
    set (w2 := write name1 EmptyString (emit WARNING _ w)).
    assert (Hex2 : is_Some (files w2 !! name1)).
    { unfold w2. simpl. rewrite lookup_insert_eq. by eexists. }
    destruct (dump_stash_file name1 simgr stash w2 Hex2) as [Hex3 Hfr3].
    assert (Hfr2 : forall g, g ≠ name1 -> files w2 !! g = files w !! g).
    { intros g Hg. unfold w2. simpl. by rewrite lookup_insert_ne. }
    right. exists [], h, ss, s. split; [done|].
    split; [done|]. split; [done|].
    split; [intros h' s' Hin; by apply elem_of_nil in Hin|]. fold name1.
    split; [by apply eq_None_not_Some|].
    destruct (_dump_stash trim pickle_dump name1 simgr stash w2)
      as [[[]|e] w3]; cbn [snd] in *.
    + destruct (step_loop_settled self1 simgr stash ss w3 Hsub Hn1 Hex3)
        as (self' & -> & Hname'). cbn [fst snd]. rewrite Hname'.
      change (_cache_file self1) with name1. split; [done|]. split; [done|].
      intros g Hg. by rewrite Hfr3, Hfr2.
    + cbn [fst snd]. change (_cache_file self1) with name1.
      split; [done|]. split; [done|]. intros g Hg. by rewrite Hfr3, Hfr2.
Qed.



Variable pickle_load : string -> @unpickle_outcome Project History.

Lemma new_states_spec objects (w : @World Project History) :
  let hs := (new_states objects w).1 in
  let w' := (new_states objects w).2 in
  length hs = length objects
  /\ NoDup hs
  /\ (forall h, h ∈ hs -> states w !! h = None)
  /\ (forall h, h ∉ hs -> states w' !! h = states w !! h)
  /\ (forall (i : nat) h, hs !! i = Some h -> states w' !! h = objects !! i)
  /\ files w' = files w /\ log w' = log w.
Proof.
  revert w. induction objects as [|s objects IH]; intros w.
  - simpl. repeat split; try done; [apply NoDup_nil_2|]. intros h Hh. by apply elem_of_nil in Hh.
  - cbn [new_states]. set (h0 := fresh (dom (states w))).
    set (w0 := set_states <[ h0 := s ]> w).
    specialize (IH w0). destruct (new_states objects w0) as [hs w'].
    cbn [fst snd] in *. destruct IH as (Hlen & Hnd & Hnew & Hold & Hget & Hf & Hl).
    assert (Hfresh : states w !! h0 = None).
    { apply not_elem_of_dom. apply is_fresh. }
    assert (Hh0 : h0 ∉ hs).
    { intros Hin. apply Hnew in Hin. unfold w0 in Hin. simpl in Hin.
      by rewrite lookup_insert_eq in Hin. }
    split; [simpl; by rewrite Hlen|]. split; [by apply NoDup_cons_2|].
    split; [|split; [|split]].
    + intros h [->|Hin]%elem_of_cons; [done|].
      apply Hnew in Hin. unfold w0 in Hin. simpl in Hin.
      destruct (decide (h0 = h)) as [->|Hne]; [done|].
      by rewrite lookup_insert_ne in Hin.
    + intros h Hh. rewrite Hold.
      * unfold w0. simpl. rewrite lookup_insert_ne; [done|].
        intros ->. apply Hh. by left.
      * intros Hin. apply Hh. by right.
    + intros [|i] h Hi; simpl in Hi.
      * injection Hi as <-. rewrite Hold by done. unfold w0. simpl.
        by rewrite lookup_insert_eq.
      * by apply Hget.
    + by rewrite Hf, Hl.
Qed.

(** [_load_stash] on a file that [pickle.load] accepts. *)
Lemma load_stash_loaded f simgr (w : @World Project History) objects items :
  pickle_load (default EmptyString (files w !! f)) = Loaded objects items ->
  let hs := (new_states objects w).1 in
  let stash := omap (fun i => hs !! i) items in
  exists w',
    _load_stash pickle_load f simgr w
    = (Ok (set_stash simgr "active" stash), w')
    /\ (forall h, h ∉ hs -> states w' !! h = states w !! h)
    /\ (forall (i : nat) h, hs !! i = Some h ->
          states w' !! h
          = (if decide (i ∈ items) then with_project (Some (_project simgr))
             else id) <$> objects !! i)
    /\ attached (_project simgr) stash w'
    /\ files w' = files w.
Proof.
  intros Hload hs stash. unfold _load_stash. rewrite Hload.
  pose proof (new_states_spec objects w) as H. unfold stash, hs. clear stash hs.
  destruct (new_states objects w) as [hs w1]. cbn [fst snd] in *.
  destruct H as (Hlen & Hnd & Hnew & Hold & Hget & Hf & _).
  eexists. split; [reflexivity|].
  assert (Hmem : forall (i : nat) h, hs !! i = Some h ->
            h ∈ omap (fun i => hs !! i) items <-> i ∈ items).
  { intros i h Hi. rewrite list_elem_of_omap. split.
    - intros (j & Hj & Hhj).
      by rewrite (NoDup_lookup hs i j h Hnd Hi Hhj).
    - intros Hin. by exists i. }
  split; [|split; [|split]].
  - intros h Hh. rewrite attach_all_states. rewrite decide_False; [by apply Hold|].
    intros (j & _ & Hj)%list_elem_of_omap. apply Hh.
    by eapply list_elem_of_lookup_2.
  - intros i h Hi. rewrite attach_all_states, (Hget i h Hi).
    destruct (decide (i ∈ items)) as [Hin|Hin].
    + rewrite decide_True; [done|]. by apply (Hmem i h Hi).
    + rewrite decide_False; [by rewrite option_fmap_id|].
      by rewrite (Hmem i h Hi).
  - apply attached_after.
  - by rewrite (proj2 (attach_all_rest _ _ _)).
Qed.

(** X21. What [_load_stash] does to the simulation manager and the
    states. When [pickle.load] raises, the exception leaves
    [_load_stash] and nothing has changed. Otherwise the loaded list
    becomes the stash ["active"], whatever stash the file was dumped
    from, and the other stashes are as before; the loaded states are
    new objects, so no state that existed is changed; every state of
    the loaded list has the project of the simulation manager
    afterwards; and no file is written. *)
Theorem load_stash_replaces_active f simgr (w : @World Project History) :
  match pickle_load (default EmptyString (files w !! f)) with
  | LoadError e => _load_stash pickle_load f simgr w = (Raise e, w)
  | Loaded objects items =>
      exists simgr' w' hs,
        _load_stash pickle_load f simgr w = (Ok simgr', w')
        /\ _project simgr' = _project simgr
        /\ stashes simgr' !! "active" = Some (omap (fun i => hs !! i) items)
        /\ (forall name, name ≠ "active" ->
              stashes simgr' !! name = stashes simgr !! name)
        /\ length hs = length objects /\ NoDup hs
        /\ (forall h, h ∈ hs -> states w !! h = None)
        /\ (forall h, h ∉ hs -> states w' !! h = states w !! h)
        /\ (forall (i : nat) h, hs !! i = Some h ->
              states w' !! h
              = (if decide (i ∈ items) then with_project (Some (_project simgr))
                 else id) <$> objects !! i)
        /\ attached (_project simgr) (omap (fun i => hs !! i) items) w'
        /\ files w' = files w
  end.
Proof.
  destruct (pickle_load _) as [objects items|e] eqn:Hload.
  - destruct (load_stash_loaded f simgr w objects items Hload)
      as (w' & Hrun & Hold & Hget & Hatt & Hfiles).
    destruct (new_states_spec objects w) as (Hlen & Hnd & Hnew & _).
    exists (set_stash simgr "active"
              (omap (fun i => (new_states objects w).1 !! i) items)),
      w', (new_states objects w).1.
    split; [exact Hrun|]. split; [done|].
    split; [simpl; by rewrite lookup_insert_eq|].
    split; [intros name Hne; simpl; by rewrite lookup_insert_ne|].
    by repeat (split; [done|]).
  - unfold _load_stash. by rewrite Hload.
Qed.

Lemma omap_lookup_seq {A} (pre hs : list A) :
  omap (fun i => ((pre ++ hs)%list !! i)) (seq (length pre) (length hs)) = hs.
Proof.
  revert pre. induction hs as [|a hs IH]; intros pre; [done|].
  simpl. rewrite lookup_app_r by lia. rewrite Nat.sub_diag. simpl. f_equal.
  specialize (IH (pre ++ [a])%list). rewrite length_app in IH. simpl in IH.
  rewrite Nat.add_1_r, <- app_assoc in IH. exact IH.
Qed.

Lemma times_listed_NoDup h ss : NoDup ss -> h ∈ ss -> times_listed h ss = 1%nat.
Proof.
  unfold times_listed. induction 1 as [|a ss Ha Hnd IH]; intros Hin.
  - by apply elem_of_nil in Hin.
  - destruct (decide (a = h)) as [->|Hne].
    + rewrite filter_cons_True by done. simpl. f_equal.
      destruct (filter (fun x => x = h) ss) as [|x l] eqn:E; [done|].
      assert (Hx : x ∈ filter (fun x => x = h) ss) by (rewrite E; by left).
      apply list_elem_of_filter in Hx as [-> ?]. done.
    + rewrite filter_cons_False by done. apply IH.
      apply elem_of_cons in Hin as [?|?]; [congruence|done].
Qed.

Lemma contents_lookup ss (w : @World Project History) (i : nat) :
  (forall h, h ∈ ss -> is_Some (states w !! h)) ->
  contents ss w !! i = ss !! i ≫= fun h => states w !! h.
Proof.
  unfold contents. revert i. induction ss as [|a ss IH]; intros i Hall; [done|].
  destruct (Hall a) as [s Hs]; [by left|]. simpl. rewrite Hs.
  destruct i as [|i]; simpl; [done|]. apply IH.
  intros h Hh. apply Hall. by right.
Qed.

Lemma contents_length ss (w : @World Project History) :
  (forall h, h ∈ ss -> is_Some (states w !! h)) ->
  length (contents ss w) = length ss.
Proof.
  unfold contents. induction ss as [|a ss IH]; intros Hall; [done|].
  destruct (Hall a) as [s Hs]; [by left|]. simpl. rewrite Hs. simpl.
  f_equal. apply IH. intros h Hh. apply Hall. by right.
Qed.

(** X22. Dump and load round trip. Assume that [pickle.load] gives
    back the list [pickle.dump] has written. For a stash that lists no
    state twice, after a successful [_dump_stash] to a file, a
    [_load_stash] of that file into any simulation manager makes its
    stash ["active"] a list of as many new states, in the same order,
    each with the address of the dumped state, the project of the
    loading simulation manager, and the history of the dumped state
    trimmed once: the project is not in the file and the part of the
    history that [trim] drops is not recovered. *)
Theorem dump_load_round_trip f simgr stash ss data loader
    (w : @World Project History) :
  stashes simgr !! stash = Some ss ->
  NoDup ss ->
  (forall h, h ∈ ss -> is_Some (states w !! h)) ->
  let seen := contents ss (pickling_world trim ss w) in
  pickle_dump seen = Dumped data ->
  pickle_load data = Loaded seen (seq 0 (length seen)) ->
  exists w1 loader' w2 hs,
    _dump_stash trim pickle_dump f simgr stash w = (Ok tt, w1)
    /\ _load_stash pickle_load f loader w1 = (Ok loader', w2)
    /\ stashes loader' !! "active" = Some hs
    /\ length hs = length ss
    /\ (forall h, h ∈ hs -> states w1 !! h = None)
    /\ forall (i : nat) h s,
         ss !! i = Some h -> states w !! h = Some s ->
         exists h',
           hs !! i = Some h'
           /\ states w2 !! h'
              = Some (mkState (addr s) (Some (_project loader))
                              (trim (history s))).
Proof.
  intros Hss Hnd Hlive seen Hdump Hrt. unfold seen in *. clear seen.
  pose proof (dump_stash_eq f simgr stash ss w Hss) as Hd.
  cbv zeta in Hd. rewrite Hdump in Hd.
  set (pw := pickling_world trim ss w) in *.
  set (l := contents ss pw) in *.
  set (w1 := foldl _ (write f data pw) ss) in Hd.
  assert (Hfile : files w1 !! f = Some data).
  { unfold w1. rewrite (proj2 (attach_all_rest _ _ _)). simpl.
    by rewrite lookup_insert_eq. }
  assert (Hlpw : forall h, h ∈ ss -> is_Some (states pw !! h)).
  { intros h Hh. unfold pw, pickling_world. rewrite detach_all_states.
    destruct (Hlive h Hh) as [s ->]. by eexists. }
  assert (Hload : pickle_load (default EmptyString (files w1 !! f))
                  = Loaded l (seq 0 (length l))) by (by rewrite Hfile).
  destruct (load_stash_loaded f loader w1 l (seq 0 (length l)) Hload)
    as (w2 & Hrun & _ & Hget & _).
  destruct (new_states_spec l w1) as (Hlen & _ & Hnew & _).
  set (hs := (new_states l w1).1) in *.
  assert (Hact : stashes (set_stash loader "active"
                            (omap (fun i => hs !! i) (seq 0 (length l))))
                 !! "active"
                 = Some (omap (fun i => hs !! i) (seq 0 (length l))))
    by (simpl; by rewrite lookup_insert_eq).
  set (loader' := set_stash loader "active" _) in *.
  assert (Hll : length l = length ss) by (by apply contents_length).
  replace (length l) with (length hs) in Hact by done.
  pose proof (omap_lookup_seq [] hs) as Ho. simpl in Ho. rewrite Ho in Hact.
  exists w1, loader', w2, hs. split; [done|]. split; [done|].
  split; [done|]. split; [congruence|]. split; [done|].
  intros i h s Hi Hs.
  assert (Hil : (i < length hs)%nat).
  { rewrite Hlen, Hll. by eapply lookup_lt_Some. }
  destruct (lookup_lt_is_Some_2 hs i Hil) as [h' Hh']. exists h'.
  split; [done|]. rewrite (Hget i h' Hh').
  rewrite decide_True by (apply elem_of_seq; lia).
  unfold l. rewrite contents_lookup by done. rewrite Hi. simpl.
  unfold pw, pickling_world. rewrite detach_all_states, Hs. simpl.
  rewrite times_listed_NoDup by (done || by eapply list_elem_of_lookup_2).
  done.
Qed.

(** The loop of [step] passes over the states that do not satisfy the
    condition. *)
Lemma step_loop_skip self simgr stash pre rest (w : @World Project History) :
  (forall h' s', h' ∈ pre -> states w !! h' = Some s' ->
     _dump_cond self s' = false) ->
  step_loop subst_addr hex_addr self simgr stash (pre ++ rest)%list w
  = step_loop subst_addr hex_addr self simgr stash rest w.
Proof.
  induction pre as [|h pre IH]; intros Hpre; [done|].
  cbn [app step_loop].
  assert (IH' : step_loop subst_addr hex_addr self simgr stash
                  (pre ++ rest)%list w
                = step_loop subst_addr hex_addr self simgr stash rest w).
  { apply IH. intros h' s' Hin. apply Hpre. by right. }
  destruct (states w !! h) as [s|] eqn:Hs; [|done].
  rewrite (Hpre h s) by (done || by left). by rewrite andb_false_r.
Qed.

Lemma contents_same_states ss (w w0 : @World Project History) :
  states w0 = states w ->
  contents ss (pickling_world trim ss w0) = contents ss (pickling_world trim ss w).
Proof.
  intros Heq. unfold contents. apply list_omap_ext, Forall_Forall2_diag.
  apply Forall_forall. intros h _. unfold pickling_world.
  by rewrite !detach_all_states, Heq.
Qed.

(** X28. An exception of pickling other than [RuntimeError] is fatal
    to [step]. With the default dump function and [dump_cache] on: when
    the first state of the stash that satisfies the condition names a
    cache file that does not exist, and [pickle.dump] raises an
    exception [e] that is not a [RuntimeError] (an instance of neither
    that class nor a subclass of it), [step] raises [e] and
    [simgr.step] is not called; the cache file has been created and
    holds what pickle had written, every state of the stash has its
    project again, and the only line logged is the warning that caching
    starts. *)
Theorem step_propagates_dump_error self simgr stash pre h post s e partial
    (w : @World Project History) :
  _dump_func self = _dump_stash trim pickle_dump ->
  _dump_cache self = true ->
  stashes simgr !! stash = Some (pre ++ h :: post)%list ->
  (forall h' s', h' ∈ pre -> states w !! h' = Some s' ->
     _dump_cond self s' = false) ->
  states w !! h = Some s -> _dump_cond self s = true ->
  let ss := (pre ++ h :: post)%list in
  let name := subst_addr (_cache_file self) (hex_addr (addr s)) in
  files w !! name = None ->
  pickle_dump (contents ss (pickling_world trim ss w)) = DumpRaised e partial ->
  (forall message, e ≠ RuntimeError message) ->
  exists w',
    step simgr_step subst_addr hex_addr self simgr stash w
    = (set_cache_file self name, Raise e, w')
    /\ files w' !! name = Some partial
    /\ attached (_project simgr) ss w'
    /\ log w' = (log w ++ [(WARNING, "Caching to " +:+ name +:+ "...")])%list.
Proof.
  intros Hdef Hdc Hss Hpre Hs Hc ss name Hnone Hdump Hother.
  unfold step. rewrite Hss. fold ss. unfold ss at 1.
  rewrite step_loop_skip by done. cbn [step_loop].
  rewrite Hs, Hdc, Hc. cbn [andb]. fold name.
  change (_cache_file (set_cache_file self name)) with name.
  rewrite bool_decide_eq_false_2 by (rewrite Hnone; by intros [? ?]).
  change (_dump_func (set_cache_file self name)) with (_dump_func self).
  rewrite Hdef.
  set (w2 := write name EmptyString (emit WARNING _ w)).
  rewrite (dump_stash_eq name simgr stash ss w2 Hss). cbv zeta.
  rewrite (contents_same_states ss w w2) by done. rewrite Hdump.
  assert (He : match e with
               | RuntimeError _ => Ok tt
               | _ => Raise e
               end = @Raise unit e)
    by (destruct e as [message| |]; [by destruct (Hother message)|done..]).
  rewrite He.
  assert (Hw : match e with
               | RuntimeError message =>
                   emit ERROR ("Unable to cache, '" +:+ message
                               +:+ "' during pickling")
                        (write name partial (pickling_world trim ss w2))
               | _ => write name partial (pickling_world trim ss w2)
               end = write name partial (pickling_world trim ss w2))
    by (destruct e as [message| |]; [by destruct (Hother message)|done..]).
  rewrite Hw.
  eexists. split; [reflexivity|]. split; [|split].
  - rewrite (proj2 (attach_all_rest _ _ _)). simpl.
    by rewrite lookup_insert_eq.
  - apply attached_after.
  - rewrite (proj1 (attach_all_rest _ _ _)). cbn [log write].
    unfold pickling_world. by rewrite (proj1 (detach_all_rest trim ss w2)).
Qed.

End cacher_more.

Lemma dump_trims_histories_witness :
  let simgr := Cacher.mkSimgr tt {[ "active" := [0%nat; 0%nat] ]} in
  let w := Cacher.mkWorld {[ 0%nat := Cacher.mkState 4096 (Some tt) 0%nat ]} ∅ [] in
  Cacher.states
    (Cacher._dump_stash S (fun _ => Cacher.Dumped "pickled") "/tmp/f" simgr
                        "active" w).2 !! 0%nat
  = Some (Cacher.mkState 4096 (Some tt) 2%nat).
Proof.
  intros simgr w.
  destruct (dump_trims_histories S (fun _ => Cacher.Dumped "pickled") "/tmp/f"
              simgr "active" [0%nat; 0%nat] w) as (H & _).
  - reflexivity.
  - rewrite (H 0%nat (Cacher.mkState 4096 (Some tt) 0%nat)) by reflexivity.
    reflexivity.
Defined.


Lemma dump_load_round_trip_witness :
  let simgr := Cacher.mkSimgr 1%nat {[ "deferred" := [0%nat] ]} in
  let loader := Cacher.mkSimgr 2%nat ∅ in
  let w := Cacher.mkWorld {[ 0%nat := Cacher.mkState 4096 (Some 1%nat) 5%nat ]}
                          ∅ [] in
  let pickle_dump := fun _ : list Cacher.SimState => Cacher.Dumped "pickled" in
  let pickle_load :=
    fun _ : string => Cacher.Loaded [Cacher.mkState 4096 None 4%nat] [0%nat] in
  exists w1 loader' w2 h',
    Cacher._dump_stash Nat.pred pickle_dump "/tmp/f" simgr "deferred" w
    = (Cacher.Ok tt, w1)
    /\ Cacher._load_stash pickle_load "/tmp/f" loader w1 = (Cacher.Ok loader', w2)
    /\ Cacher.stashes loader' !! "active" = Some [h']
    /\ Cacher.states w2 !! h' = Some (Cacher.mkState 4096 (Some 2%nat) 4%nat).
Proof.
  intros simgr loader w pickle_dump pickle_load.
  destruct (dump_load_round_trip Nat.pred pickle_dump pickle_load "/tmp/f"
              simgr "deferred" [0%nat] "pickled" loader w)
    as (w1 & loader' & w2 & hs & H1 & H2 & H3 & H4 & _ & H5).
  - reflexivity.
  - repeat constructor. by intros Hin%elem_of_nil.
  - intros h Hh. apply list_elem_of_singleton in Hh. subst h.
    vm_compute. eauto.
  - reflexivity.
  - reflexivity.
  - destruct (H5 0%nat 0%nat (Cacher.mkState 4096 (Some 1%nat) 5%nat))
      as (h' & Hh' & Hs'); [reflexivity..|].
    destruct hs as [|h0 [|h1 hs]]; simpl in H4; try discriminate.
    simpl in Hh'. injection Hh' as ->.
    exists w1, loader', w2, h'. split; [exact H1|]. split; [exact H2|].
    split; [exact H3|exact Hs'].
Defined.


Lemma step_propagates_dump_error_witness :
  let pickle_dump := fun _ : list (@Cacher.SimState unit unit) =>
    Cacher.DumpRaised (Cacher.OtherError "PicklingError") "partial" in
  let self := Cacher.mk (fun _ => true) true true "/tmp/demo.cache"
                (Cacher._dump_stash id pickle_dump) in
  exists w',
    Cacher.step (fun sg _ w => (Cacher.Ok sg, w)) (fun name _ => name)
      (fun _ => "0x1000") self Cacher.demo_simgr "active" Cacher.demo_world
    = (self, Cacher.Raise (Cacher.OtherError "PicklingError"), w')
    /\ Cacher.files w' !! "/tmp/demo.cache" = Some "partial".
Proof.
  intros pickle_dump self.
  destruct (step_propagates_dump_error id pickle_dump
              (fun sg _ w => (Cacher.Ok sg, w)) (fun name _ => name)
              (fun _ => "0x1000") self Cacher.demo_simgr "active" [] 0%nat []
              (Cacher.mkState 4096 (Some tt) tt)
              (Cacher.OtherError "PicklingError") "partial" Cacher.demo_world)
    as (w' & H1 & H2 & _).
  - reflexivity.
  - reflexivity.
  - reflexivity.
  - intros h' s' Hin. by apply elem_of_nil in Hin.
  - reflexivity.
  - reflexivity.
  - reflexivity.
  - reflexivity.
  - discriminate.
  - exists w'. split; [exact H1|exact H2].
Defined.

(** ** The vectorizer *)

Lemma nat_of_ascii_bound c : 0 <= Z.of_nat (nat_of_ascii c) < 256.
Proof.
  split; [lia|]. destruct c as [[] [] [] [] [] [] [] []]; vm_compute; done.
Qed.

(** X23. What [Vectorizer.default_cacher] makes of an entry of the
    backer. A string of one character becomes the 8-bit constant whose
    value is the code of the character, and a value that is neither an
    [int] nor a [str] is passed through; in both cases the result is
    recorded in the cache under the key and no other key of the cache
    changes. An [int] entry, although the type test lets it in, raises
    [TypeError] from [ord], as does a string that is not of length one;
    a key the backer does not have raises [KeyError]; and when the
    method raises, the cache is as before. *)
Theorem default_cacher_vectorizes (self : Vectorizer.t) (k : Z) :
  match Vectorizer.backer self !! k with
  | None =>
      Vectorizer.default_cacher self k
      = (Vectorizer.Raise (Vectorizer.KeyError k), self)
  | Some (Vectorizer.Expr e) =>
      Vectorizer.default_cacher self k
      = (Vectorizer.Ok e,
         Vectorizer.mk (Vectorizer.backer self) (<[ k := e ]> (Vectorizer.cache self)))
  | Some (Vectorizer.Scalar (Vectorizer.SStr (String c EmptyString))) =>
      exists b self',
        Vectorizer.default_cacher self k = (Vectorizer.Ok b, self')
        /\ Vectorizer.cache self' !! k = Some b
        /\ (forall k', k' ≠ k ->
              Vectorizer.cache self' !! k' = Vectorizer.cache self !! k')
        /\ Vectorizer.backer self' = Vectorizer.backer self
        /\ wf b = true /\ size b = 8
        /\ forall rho, eval rho b = Z.of_nat (nat_of_ascii c)
  | Some (Vectorizer.Scalar _) =>
      exists msg,
        Vectorizer.default_cacher self k
        = (Vectorizer.Raise (Vectorizer.TypeError msg), self)
  end.
Proof.
  unfold Vectorizer.default_cacher.
  destruct (Vectorizer.backer self !! k) as [[[z|[|c [|c' s]]]|e]|]; try done.
  - by eexists.
  - by eexists.
  - simpl. eexists _, _. split; [reflexivity|]. simpl.
    split; [by rewrite lookup_insert_eq|].
    split; [intros k' Hk'; by rewrite lookup_insert_ne|].
    split; [done|]. split; [done|]. split; [done|].
    intros rho. change (2 ^ 8) with 256. apply Z.mod_small, nat_of_ascii_bound.
  - by eexists.
Qed.

(** ** Changed bytes *)

Lemma writes_in_place h (f : Z -> Z) (g : Z -> bv) ks w l ps :
  heap w !! h = Some (cooldict.mkDict l ps) ->
  cooldict.finalized l = false ->
  let w' := foldl (fun w k => mem_set h (f k) (g k) w) w ks in
  exists l',
    heap w' !! h = Some (cooldict.mkDict l' ps)
    /\ cooldict.ident l' = cooldict.ident l
    /\ dom (cooldict.storage l')
       = dom (cooldict.storage l) ∪ list_to_set (f <$> ks)
    /\ cooldict.deleted l' = cooldict.deleted l ∖ list_to_set (f <$> ks)
    /\ (forall h', h' ≠ h -> heap w' !! h' = heap w !! h').
Proof.
  revert w l. induction ks as [|k ks IH]; intros w l Hd Hfin.
  - exists l. simpl. split; [done|]. split; [done|].
    split; [by rewrite union_empty_r_L|].
    split; [by rewrite difference_empty_L|done].
  - cbn [foldl]. set (w1 := mem_set h (f k) (g k) w).
    assert (Hd1 : heap w1 !! h
      = Some (cooldict.mkDict
                (cooldict.mkLayer (cooldict.ident l)
                   (<[ f k := g k ]> (cooldict.storage l))
                   (cooldict.deleted l ∖ {[ f k ]}) false) ps)).
    { unfold w1, mem_set. rewrite Hd. simpl. rewrite lookup_insert_eq.
      unfold cooldict.setitem. simpl. by rewrite Hfin. }
    assert (Hother : forall h', h' ≠ h -> heap w1 !! h' = heap w !! h').
    { intros h' Hne. unfold w1, mem_set. rewrite Hd. simpl.
      by rewrite lookup_insert_ne. }
    destruct (IH w1 _ Hd1 eq_refl) as (l' & Eh & Eid & Edom & Edel & Eoth).
    exists l'. split; [done|]. split; [done|]. simpl in *.
    split.
    { rewrite Edom, dom_insert_L. apply set_eq. intros x.
      rewrite !elem_of_union, elem_of_singleton. tauto. }
    split.
    { rewrite Edel. apply set_eq. intros x.
      rewrite !elem_of_difference, elem_of_union, elem_of_singleton. tauto. }
    intros h' Hne. by rewrite Eoth, Hother.
Qed.

Lemma writes_on_shared h (f : Z -> Z) (g : Z -> bv) k ks w d :
  heap w !! h = Some d ->
  cooldict.finalized (cooldict.cowdict d) = true ->
  let w' := foldl (fun w k => mem_set h (f k) (g k) w) w (k :: ks) in
  exists l',
    heap w' !! h = Some (cooldict.mkDict l' (cooldict.ancestry_line d))
    /\ cooldict.ident l' = next_ident w
    /\ dom (cooldict.storage l') = list_to_set (f <$> k :: ks)
    /\ cooldict.deleted l' = ∅
    /\ (forall h', h' ≠ h -> heap w' !! h' = heap w !! h').
Proof.
  intros Hd Hfin. cbn [foldl]. set (w1 := mem_set h (f k) (g k) w).
  assert (Hd1 : heap w1 !! h
    = Some (cooldict.mkDict
              (cooldict.mkLayer (next_ident w) {[ f k := g k ]} ∅ false)
              (cooldict.ancestry_line d))).
  { unfold w1, mem_set. rewrite Hd. simpl. rewrite lookup_insert_eq.
    unfold cooldict.setitem. by rewrite Hfin. }
  assert (Hother : forall h', h' ≠ h -> heap w1 !! h' = heap w !! h').
  { intros h' Hne. unfold w1, mem_set. rewrite Hd. simpl.
    by rewrite lookup_insert_ne. }
  destruct (writes_in_place h f g ks w1 _ _ Hd1 eq_refl)
    as (l' & Eh & Eid & Edom & Edel & Eoth).
  exists l'. split; [done|]. split; [done|]. simpl in *.
  split; [by rewrite Edom, dom_singleton_L|].
  split.
  { rewrite Edel. apply set_eq. intros x.
    rewrite elem_of_difference, elem_of_empty. tauto. }
  intros h' Hne. by rewrite Eoth, Hother.
Qed.

Lemma copy_heap self w d :
  heap w !! SimMemory.mem self = Some d ->
  let v2 := (SimMemory.copy self w).1 in
  let w1 := (SimMemory.copy self w).2 in
  SimMemory.mem v2 ≠ SimMemory.mem self
  /\ heap w1 !! SimMemory.mem self = Some (cooldict.branch d)
  /\ heap w1 !! SimMemory.mem v2 = Some (cooldict.branch d)
  /\ next_ident w1 = next_ident w.
Proof.
  intros Hd.
  assert (Hb : mem_branch (SimMemory.mem self) w
    = alloc (cooldict.branch d)
        (set_heap <[SimMemory.mem self := cooldict.branch d]> w)).
  { unfold mem_branch. by rewrite Hd. }
  unfold SimMemory.copy. rewrite Hb. unfold alloc. simpl.
  set (m1 := <[SimMemory.mem self := cooldict.branch d]> (heap w)).
  set (h' := fresh (dom m1)).
  assert (Hfresh : h' ∉ dom m1) by apply is_fresh.
  assert (Hne : h' ≠ SimMemory.mem self).
  { intros Heq. apply Hfresh. rewrite Heq. unfold m1.
    rewrite dom_insert. set_solver. }
  split; [done|]. split; [|split; [|done]].
  - rewrite lookup_insert_ne by done. unfold m1. by rewrite lookup_insert_eq.
  - by rewrite lookup_insert_eq.
Qed.

Lemma common_ancestor_head d :
  cooldict.common_ancestor d d = Some (cooldict.ident (cooldict.cowdict d)).
Proof.
  unfold cooldict.common_ancestor, cooldict.ancestry_line. simpl.
  rewrite filter_cons_True; [done|]. by left.
Qed.

Lemma line_changes_head anc l ls :
  cooldict.ident l = anc -> cooldict.line_changes anc (l :: ls) = (∅, ∅).
Proof. intros H. simpl. by rewrite decide_True. Qed.

(** The changed bytes between a view and its copy after a store through
    the copy. *)
Lemma fork_changed_bytes v1 a X n w d :
  heap w !! SimMemory.mem v1 = Some d ->
  fresh_idents (SimMemory.mem v1) w ->
  0 < n -> size X = 8 * n ->
  let v2 := (SimMemory.copy v1 w).1 in
  let w1 := (SimMemory.copy v1 w).2 in
  let w2 := (SimMemory.store v2 (PyInt a) X w1).2 in
  SimMemory.changed_bytes v1 v2 w2
  = list_to_set ((fun k => a + k) <$> seqZ 0 n)
  /\ SimMemory.changed_bytes v2 v1 w2
     = list_to_set ((fun k => a + k) <$> seqZ 0 n).
Proof.
  intros Hd Hfresh Hpos Hsz v2 w1 w2.
  destruct (copy_heap v1 w d Hd) as (Hne & Hh1 & Hh2 & Hni).
  fold v2 w1 in Hne, Hh1, Hh2, Hni.
  assert (Hw2 : w2 = foldl (fun w k => mem_set (SimMemory.mem v2) (a + k)
                                         (byte_of X k) w) w1 (seqZ 0 n)).
  { unfold w2. rewrite (store_concrete v2 (PyInt a) a X w1 eq_refl).
    cbn [snd asked]. apply write_to_bytes; [lia|done]. }
  assert (Hseq : seqZ 0 n = 0 :: seqZ 1 (n - 1)).
  { rewrite seqZ_cons by lia. f_equal; try (f_equal; lia). }
  rewrite Hseq in Hw2.
  destruct (writes_on_shared (SimMemory.mem v2) (fun k => a + k) (byte_of X)
              0 (seqZ 1 (n - 1)) w1 _ Hh2 eq_refl)
    as (l' & H1 & H2 & H3 & H4 & H5).
  rewrite <- Hw2 in H1, H5. rewrite <- Hseq in H3.
  specialize (Hfresh d Hd).
  assert (Hidc : (cooldict.ident (cooldict.cowdict d) < next_ident w)%nat).
  { by apply Forall_cons_1 in Hfresh as [? _]. }
  assert (Hnotin : cooldict.ident l'
            ∉ cooldict.ident <$> cooldict.ancestry_line (cooldict.branch d)).
  { rewrite H2, Hni. intros (l0 & Hl0 & Hin)%list_elem_of_fmap.
    unfold cooldict.ancestry_line, cooldict.branch in Hin. simpl in Hin.
    apply elem_of_cons in Hin as [->|Hin].
    - simpl in Hl0. lia.
    - apply Forall_cons_1 in Hfresh as [_ Hps].
      rewrite Forall_forall in Hps. specialize (Hps l0 Hin). lia. }
  rewrite <- H3. unfold SimMemory.changed_bytes.
  rewrite H1, (H5 (SimMemory.mem v1)) by done. rewrite Hh1.
  unfold cooldict.common_ancestor.
  change (cooldict.ancestry_line
            (cooldict.mkDict l' (cooldict.ancestry_line (cooldict.branch d))))
    with (l' :: cooldict.ancestry_line (cooldict.branch d)).
  rewrite fmap_cons.
  rewrite (filter_cons_False _ (cooldict.ident l')) by done.
  assert (Hhead : cooldict.ancestry_line (cooldict.branch d)
            = cooldict.finalize (cooldict.cowdict d) :: cooldict.parents d)
    by done.
  rewrite Hhead, fmap_cons.
  rewrite filter_cons_True by (by left). cbn [head].
  rewrite filter_cons_True by (apply elem_of_cons; right; by left).
  cbn [head]. unfold cooldict.changes_since.
  change (cooldict.ancestry_line
            (cooldict.mkDict l' (cooldict.finalize (cooldict.cowdict d)
                                 :: cooldict.parents d)))
    with (l' :: cooldict.finalize (cooldict.cowdict d) :: cooldict.parents d).
  rewrite Hhead. rewrite (line_changes_head _ (cooldict.finalize _)) by done.
  assert (Hl' : cooldict.line_changes
                  (cooldict.ident (cooldict.finalize (cooldict.cowdict d)))
                  (l' :: cooldict.finalize (cooldict.cowdict d)
                      :: cooldict.parents d)
                = (dom (cooldict.storage l') ∪ ∅, cooldict.deleted l' ∪ ∅)).
  { cbn [cooldict.line_changes]. rewrite decide_False.
    - by rewrite decide_True by done.
    - simpl. rewrite H2, Hni. lia. }
  rewrite Hl', H4. by rewrite !union_empty_r_L, !union_empty_l_L.
Qed.

Lemma elem_of_range (a n k : Z) :
  k ∈ (list_to_set ((fun i => a + i) <$> seqZ 0 n) : gset Z) <-> a <= k < a + n.
Proof.
  rewrite elem_of_list_to_set, list_elem_of_fmap. split.
  - intros (i & -> & Hi). apply elem_of_seqZ in Hi. lia.
  - intros Hk. exists (k - a). split; [lia|]. apply elem_of_seqZ. lia.
Qed.

(** X24. After a copy, the changed bytes are the bytes written since.
    Right after [v2 = v1.copy()] no byte is changed between the two
    views. After a store of a well-formed value of [n] bytes at a plain
    integer address [a] through the copy, [changed_bytes] between the
    two views, asked from either side, is exactly the range
    [a .. a + n - 1]. *)
Theorem changed_bytes_after_copy v1 a X n w :
  live (SimMemory.mem v1) w ->
  fresh_idents (SimMemory.mem v1) w ->
  wf X = true -> size X = 8 * n ->
  let v2 := (SimMemory.copy v1 w).1 in
  let w1 := (SimMemory.copy v1 w).2 in
  let w2 := (SimMemory.store v2 (PyInt a) X w1).2 in
  SimMemory.changed_bytes v1 v2 w1 = ∅
  /\ (forall k, k ∈ SimMemory.changed_bytes v1 v2 w2 <-> a <= k < a + n)
  /\ SimMemory.changed_bytes v2 v1 w2 = SimMemory.changed_bytes v1 v2 w2.
Proof.
  intros [d Hd] Hfresh Hwf Hsz v2 w1 w2.
  assert (Hpos : 0 < size X) by (apply (eval_range (fun _ _ => 0)); done).
  destruct (copy_heap v1 w d Hd) as (Hne & Hh1 & Hh2 & Hni).
  fold v2 w1 in Hne, Hh1, Hh2, Hni.
  destruct (fork_changed_bytes v1 a X n w d Hd Hfresh) as [Hc1 Hc2];
    [lia|done|]. fold v2 w1 w2 in Hc1, Hc2.
  split; [|split].
  - unfold SimMemory.changed_bytes. rewrite Hh1, Hh2, common_ancestor_head.
    unfold cooldict.changes_since, cooldict.ancestry_line.
    rewrite line_changes_head by done. by rewrite !union_empty_r_L.
  - intros k. rewrite Hc1. apply elem_of_range.
  - by rewrite Hc1, Hc2.
Qed.

Lemma changed_bytes_after_copy_witness :
  let v1 := demo_view.1 in
  let v2 := (SimMemory.copy v1 demo_view.2).1 in
  let w1 := (SimMemory.copy v1 demo_view.2).2 in
  let w2 := (SimMemory.store v2 (PyInt 4096) (BitVecVal 0x1234 16) w1).2 in
  4097 ∈ SimMemory.changed_bytes v1 v2 w2
  /\ 4098 ∉ SimMemory.changed_bytes v1 v2 w2.
Proof.
  destruct (changed_bytes_after_copy demo_view.1 4096 (BitVecVal 0x1234 16) 2
              demo_view.2) as (_ & H & _).
  - vm_compute. eauto.
  - intros d Hd. vm_compute in Hd. injection Hd as <-.
    repeat constructor.
  - reflexivity.
  - reflexivity.
  - cbv zeta. split.
    + apply H. lia.
    + intros Hin. apply H in Hin. lia.
Defined.

Lemma changed_bytes_same_store self other w :
  SimMemory.mem other = SimMemory.mem self ->
  SimMemory.changed_bytes self other w = ∅.
Proof.
  intros Heq. unfold SimMemory.changed_bytes. rewrite Heq.
  destruct (heap w !! SimMemory.mem self) as [d|]; [|done].
  rewrite common_ancestor_head. unfold cooldict.changes_since.
  unfold cooldict.ancestry_line. rewrite line_changes_head by done.
  by rewrite !union_empty_r_L.
Qed.

(** X26. A view has no changed bytes against itself. [changed_bytes]
    between a view and itself, or any view that uses the same store
    object, is empty; so a merge in which every other state is such a
    view, and an unconstraining of the differences with such a view,
    return at once, without a constraint, and leave the world as it
    is. *)
Theorem nothing_changed_against_itself (set_iter : gset Z -> list Z) self
    others flag flag_values w :
  (forall s, set_iter s ≡ₚ elements s) ->
  Forall (fun o => SimMemory.mem o = SimMemory.mem self) others ->
  Forall (fun o => SimMemory.changed_bytes self o w = ∅) others
  /\ SimMemory.merge set_iter self others flag flag_values w = (Ok [], w)
  /\ Forall (fun o =>
               SimMemory.unconstrain_differences set_iter self o w = (Ok tt, w))
            others.
Proof.
  intros Hperm Hsame.
  assert (Hnil : set_iter ∅ = []).
  { apply Permutation_nil_r. rewrite Hperm. by rewrite elements_empty. }
  split; [|split].
  - eapply Forall_impl; [exact Hsame|]. intros o Ho.
    by apply changed_bytes_same_store.
  - unfold SimMemory.merge.
    assert (He : foldl (fun acc o => acc ∪ SimMemory.changed_bytes self o w)
                   ∅ others = ∅).
    { induction Hsame as [|o others Ho _ IH]; [done|]. cbn [foldl].
      rewrite changed_bytes_same_store by done.
      by rewrite union_empty_r_L. }
    by rewrite He, Hnil.
  - eapply Forall_impl; [exact Hsame|]. intros o Ho. simpl.
    unfold SimMemory.unconstrain_differences.
    by rewrite changed_bytes_same_store, Hnil by done.
Qed.

Lemma nothing_changed_against_itself_witness :
  let v := diverged.1.1 in
  SimMemory.merge elements v [v; v] (BitVec "flag" 8)
                  [OInt 0; OInt 1; OInt 2] diverged.2
  = (Ok [], diverged.2).
Proof.
  intros v.
  destruct (nothing_changed_against_itself elements v [v; v] (BitVec "flag" 8)
              [OInt 0; OInt 1; OInt 2] diverged.2) as (_ & H & _).
  - done.
  - repeat constructor.
  - exact H.
Defined.

Lemma common_ancestor_none ours theirs :
  (forall l, l ∈ cooldict.ancestry_line theirs ->
     cooldict.ident l ∉ cooldict.ident <$> cooldict.ancestry_line ours) ->
  cooldict.common_ancestor ours theirs = None.
Proof.
  intros Hdis. unfold cooldict.common_ancestor.
  induction (cooldict.ancestry_line theirs) as [|l ls IH]; [done|].
  rewrite fmap_cons, filter_cons_False.
  - apply IH. intros l' Hl'. apply Hdis. by right.
  - apply Hdis. by left.
Qed.

(** X27. Without a common ancestor every address counts as changed.
    For a view built by [SimMemory(backer)] from a plain [dict], which
    shares no lineage with a view [v1] that existed before,
    [changed_bytes] is the set of all addresses at which [v1] or the new
    view holds an entry, whether or not the entries are the same. *)
Theorem changed_bytes_without_ancestor v1 content bits memory_id w :
  live (SimMemory.mem v1) w ->
  fresh_idents (SimMemory.mem v1) w ->
  let v2 := (SimMemory.init (SimMemory.DictBacker content) bits memory_id w).1 in
  let w1 := (SimMemory.init (SimMemory.DictBacker content) bits memory_id w).2 in
  forall k,
    k ∈ SimMemory.changed_bytes v1 v2 w1
    <-> is_Some (mem_get (SimMemory.mem v1) k w) \/ is_Some (content !! k).
Proof.
  intros [d Hd] Hfresh v2 w1 k.
  specialize (Hfresh d Hd).
  assert (Hne : SimMemory.mem v2 ≠ SimMemory.mem v1
          /\ heap w1 !! SimMemory.mem v2
             = Some (cooldict.mkDict
                       (cooldict.mkLayer (next_ident w) content ∅ false) [])
          /\ heap w1 !! SimMemory.mem v1 = Some d).
  { unfold v2, w1, SimMemory.init, new_dict, alloc. cbn [fst snd SimMemory.mem].
    cbn [heap set_heap].
    set (h := fresh (dom (heap w))).
    assert (Hf : heap w !! h = None) by (apply not_elem_of_dom, is_fresh).
    assert (h ≠ SimMemory.mem v1) by congruence.
    split; [done|]. split; [by rewrite lookup_insert_eq|].
    by rewrite lookup_insert_ne. }
  destruct Hne as (Hne & Hh2 & Hh1).
  unfold SimMemory.changed_bytes. rewrite Hh1, Hh2.
  rewrite common_ancestor_none.
  - rewrite !union_empty_r_L, elem_of_union.
    unfold cooldict.keys. rewrite !line_keys_spec.
    unfold mem_get. rewrite Hd. cbn [mbind option_bind].
    unfold cooldict.getitem.
    assert (Hc : cooldict.line_lookup k
                   (cooldict.ancestry_line
                      (cooldict.mkDict
                         (cooldict.mkLayer (next_ident w) content ∅ false) []))
                 = content !! k).
    { unfold cooldict.ancestry_line. simpl.
      rewrite decide_False by apply not_elem_of_empty.
      by destruct (content !! k). }
    by rewrite Hc.
  - intros l Hl. unfold cooldict.ancestry_line in Hl. simpl in Hl.
    apply list_elem_of_singleton in Hl. subst l. cbn [cooldict.ident].
    intros (l0 & Hl0 & Hin)%list_elem_of_fmap.
    rewrite Forall_forall in Hfresh. specialize (Hfresh l0 Hin). lia.
Qed.

Lemma changed_bytes_without_ancestor_witness :
  let v1 := diverged.1.1 in
  let v2 := (SimMemory.init (SimMemory.DictBacker {[ 8192 := BitVecVal 1 8 ]})
               64 "other" diverged.2).1 in
  let w1 := (SimMemory.init (SimMemory.DictBacker {[ 8192 := BitVecVal 1 8 ]})
               64 "other" diverged.2).2 in
  4096 ∈ SimMemory.changed_bytes v1 v2 w1
  /\ 8192 ∈ SimMemory.changed_bytes v1 v2 w1
  /\ 4097 ∉ SimMemory.changed_bytes v1 v2 w1.
Proof.
  pose proof (changed_bytes_without_ancestor diverged.1.1
                {[ 8192 := BitVecVal 1 8 ]} 64 "other" diverged.2) as H.
  cbv zeta in *. 
  assert (Hl : live (SimMemory.mem diverged.1.1) diverged.2)
    by (vm_compute; eauto).
  assert (Hf : fresh_idents (SimMemory.mem diverged.1.1) diverged.2).
  { intros d Hd. vm_compute in Hd. injection Hd as <-.
    repeat constructor. }
  specialize (H Hl Hf). split; [|split].
  - apply H. left. vm_compute. eauto.
  - apply H. right. rewrite lookup_singleton_eq. eauto.
  - intros Hin. apply H in Hin as [[b Hb]|[b Hb]].
    + vm_compute in Hb. discriminate.
    + rewrite lookup_singleton_ne in Hb by done. discriminate.
Defined.

(** ** Merging a fork *)

(** X29. Merging a state with its fork. Let [v2 = v1.copy()] and let
    a well-formed value [X] of [n] bytes be stored at a plain integer
    address [a] through [v2]. Then [v1.merge([v2], flag, [fv0, fv1])]
    returns [n] constraints, one for each byte of the range; it leaves
    the entries of [v1] outside the range and the bytes of [X] in [v2]
    as they are; and afterwards, for each byte of the range, in every
    model of the constraints the entry of [v1] has the value of that
    byte of [X] where the flag does not have the value [fv0], and the
    value of the entry [v1] had before where the flag does not have the
    value [fv1]. *)
Theorem merge_of_a_fork (set_iter : gset Z -> list Z) v1 a X n flag fv0 fv1 w :
  (forall s, set_iter s ≡ₚ elements s) ->
  live (SimMemory.mem v1) w ->
  fresh_idents (SimMemory.mem v1) w ->
  wf X = true -> size X = 8 * n ->
  let v2 := (SimMemory.copy v1 w).1 in
  let w1 := (SimMemory.copy v1 w).2 in
  let w2 := (SimMemory.store v2 (PyInt a) X w1).2 in
  exists cs w3,
    SimMemory.merge set_iter v1 [v2] flag [fv0; fv1] w2 = (Ok cs, w3)
    /\ length cs = Z.to_nat n
    /\ (forall k, ~ (a <= k < a + n) ->
          mem_get (SimMemory.mem v1) k w3 = mem_get (SimMemory.mem v1) k w)
    /\ (forall k, 0 <= k < n ->
          mem_get (SimMemory.mem v2) (a + k) w3 = Some (byte_of X k))
    /\ (forall k, 0 <= k < n ->
          exists b,
            mem_get (SimMemory.mem v1) (a + k) w3 = Some b
            /\ forall rho,
                 Forall (fun c => holds rho c = true) cs ->
                 (holds rho (Eq flag fv0) = false ->
                  eval rho b = eval rho (byte_of X k))
                 /\ (holds rho (Eq flag fv1) = false ->
                     forall b0,
                       mem_get (SimMemory.mem v1) (a + k) w = Some b0 ->
                       eval rho b = eval rho b0)).
Proof.
  intros Hperm Hl Hfresh Hwf Hsz v2 w1 w2.
  assert (Hpos : 0 < size X) by (apply (eval_range (fun _ _ => 0)); done).
  destruct Hl as [d Hd].
  destruct (copy_heap v1 w d Hd) as (Hne & _).
  destruct (copy_spec v1 w) as (_ & Hl2 & Hlive1 & Hget1 & Hget2 & _);
    [by exists d|].
  fold v2 w1 in Hne, Hl2, Hlive1, Hget1, Hget2.
  destruct (fork_changed_bytes v1 a X n w d Hd Hfresh) as [Hc _]; [lia|done|].
  fold v2 w1 w2 in Hc.
  assert (Hw2 : w2 = SimMemory.write_to v2 a X w1).
  { unfold w2. by rewrite (store_concrete v2 (PyInt a) a X w1 eq_refl). }
  assert (Hg2 : forall h k,
            mem_get h k w2
            = if decide (h = SimMemory.mem v2 /\ a <= k < a + n)
              then Some (byte_of X (k - a)) else mem_get h k w1).
  { intros h k. rewrite Hw2. by apply write_to_get. }
  assert (Hlw2 : forall h, live h w2 <-> live h w1).
  { intros h. rewrite Hw2. apply (write_to_frame v2 a X w1). }
  assert (Hv1 : forall k, mem_get (SimMemory.mem v1) k w2
                          = mem_get (SimMemory.mem v1) k w).
  { intros k. rewrite Hg2, decide_False by (intros [? _]; congruence).
    apply Hget1. by exists d. }
  assert (Hv2 : forall k, 0 <= k < n ->
            mem_get (SimMemory.mem v2) (a + k) w2 = Some (byte_of X k)).
  { intros k Hk. rewrite Hg2, decide_True by (split; [done|lia]).
    do 2 f_equal. lia. }
  set (changed := merge_addresses v1 [v2] w2).
  assert (Hch : changed = list_to_set ((fun i => a + i) <$> seqZ 0 n)).
  { unfold changed, merge_addresses. cbn [foldl].
    by rewrite union_empty_l_L. }
  assert (Hnd : NoDup (set_iter changed)).
  { rewrite Hperm. apply NoDup_elements. }
  assert (Hlive : Forall (fun s => live (SimMemory.mem s) w2) [v1; v2]).
  { repeat constructor; apply Hlw2; [apply Hlive1; by exists d|done]. }
  destruct (merge_loop_spec v1 [v2] flag [fv0; fv1] (set_iter changed) w2
              Hnd Hlive) as (cs & w3 & Hrun & Hlen & Hfr & _ & _ & Hper).
  assert (Hin : forall k, k ∈ set_iter changed <-> a <= k < a + n).
  { intros k. rewrite Hperm, elem_of_elements, Hch. apply elem_of_range. }
  exists cs, w3. split; [|split; [|split; [|split]]].
  - unfold SimMemory.merge. fold (merge_addresses v1 [v2] w2). by fold changed.
  - rewrite Hlen, Hperm, Hch.
    assert (Hndr : NoDup ((fun i => a + i) <$> seqZ 0 n)).
    { apply NoDup_fmap_2; [intros ???; lia|apply NoDup_seqZ]. }
    pose proof (size_list_to_set (C := gset Z) _ Hndr) as Hs.
    unfold base.size, set_size, compose in Hs. rewrite Hs.
    by rewrite length_fmap, length_seqZ.
  - intros k Hk. rewrite Hfr by (by rewrite Hin). apply Hv1.
  - intros k Hk.
    pose proof (merge_keeps_other_entries set_iter v1 [v2] flag [fv0; fv1] w2
                  (SimMemory.mem v2) (a + k) (byte_of X k) Hne (Hv2 k Hk))
      as Hkeep.
    unfold SimMemory.merge in Hkeep. fold (merge_addresses v1 [v2] w2) in Hkeep.
    fold changed in Hkeep. by rewrite Hrun in Hkeep.
  - intros k Hk.
    assert (Hel : a + k ∈ set_iter changed) by (apply Hin; lia).
    apply list_elem_of_lookup in Hel as [j Hj].
    destruct (Hper j (a + k) Hj) as (alts & Hcj & Halt & Hnew).
    eexists. split; [exact Hnew|]. intros rho Hall.
    assert (Hcs : holds rho (merge_constraint flag
                    (merged_symbol v1 (a + k) (merge_mem_counter w2 + N.of_nat j))
                    alts [fv0; fv1]) = true).
    { rewrite Forall_forall in Hall. apply Hall.
      by eapply list_elem_of_lookup_2. }
    apply Forall2_cons_inv_l in Halt as (alt1 & alts' & Ha1 & Halt & ->).
    apply Forall2_cons_inv_l in Halt as (alt2 & alts'' & Ha2 & Halt & ->).
    apply Forall2_nil_inv_l in Halt as ->.
    rewrite eval_merged_entry. split.
    + intros Hf0.
      assert (alt2 = byte_of X k) as <-.
      { destruct Ha2 as (Hsame & _). apply Hsame. by apply Hv2. }
      apply (merge_constraint_selects rho flag _ [alt1; alt2] [fv0; fv1] 1 fv1);
        [done|done|done|].
      intros [|[|i]] fv' Hi Hfv'; simpl in Hfv'; try done.
      by injection Hfv' as <-.
    + intros Hf1 b0 Hb0.
      assert (alt1 = b0) as <-.
      { destruct Ha1 as (Hsame & _). apply Hsame. by rewrite Hv1. }
      apply (merge_constraint_selects rho flag _ [alt1; alt2] [fv0; fv1] 0 fv0);
        [done|done|done|].
      intros [|[|i]] fv' Hi Hfv'; simpl in Hfv'; try done.
      by injection Hfv' as <-.
Qed.

Lemma merge_of_a_fork_witness :
  let v1 := demo_view.1 in
  let w := (SimMemory.store v1 (PyInt 4096) (BitVecVal 0x59 8) demo_view.2).2 in
  let v2 := (SimMemory.copy v1 w).1 in
  let w1 := (SimMemory.copy v1 w).2 in
  let w2 := (SimMemory.store v2 (PyInt 4096) (BitVecVal 0x58 8) w1).2 in
  exists cs w3,
    SimMemory.merge elements v1 [v2] (BitVec "flag" 8) [OInt 0; OInt 1] w2
    = (Ok cs, w3)
    /\ length cs = 1%nat
    /\ mem_get (SimMemory.mem v2) 4096 w3 = Some (Extract 7 0 (BitVecVal 0x58 8)).
Proof.
  intros v1 w v2 w1 w2.
  destruct (merge_of_a_fork elements v1 4096 (BitVecVal 0x58 8) 1
              (BitVec "flag" 8) (OInt 0) (OInt 1) w)
    as (cs & w3 & H1 & H2 & _ & H4 & _).
  - done.
  - vm_compute. eauto.
  - intros d Hd. vm_compute in Hd. injection Hd as <-. repeat constructor.
  - reflexivity.
  - reflexivity.
  - exists cs, w3. split; [exact H1|]. split; [exact H2|].
    apply (H4 0). lia.
Defined.

